(** * hpmr: the chained hash map and its segmented wrapper

    A shallow embedding of [src/concurrent_map_old.h] (class
    [ConcurrentMap]) and of [src/bare_concurrent_map.h] (class
    [BareConcurrentMap]).

    - [size_t] is modelled as [Z] with the 64-bit wrap-around written
      out where the source does arithmetic that can overflow.
    - A [hash_node] is the pair of its key and value, and a bucket chain
      ([std::unique_ptr<hash_node>]) is the list of its nodes: [next] is
      the tail of the list, the null pointer is [[]].
    - The hash functor [H] is a template parameter of the classes; the
      operations that hash take the hash function as a parameter.
    - The [double] load factor and progress are read as exact rationals
      ([Q]); the reading is exact for the default factor [1.0] and for
      every dyadic factor as long as the counts stay below 2^53.
    - OpenMP loops and parallel regions are run by one thread at a time,
      in index order.  Locks are modelled in the segmented map, where
      [async_set] inspects them, and in the [locked_] operations of
      [ConcurrentMap], which are shown to agree with the operations
      without locks: a wait for a held lock gives no result.
    - [bare_map.h] and [async_hasher.h] are not among the sources; what
      [BareConcurrentMap] uses of them is modelled from the spec, in the
      definitions marked so. *)

From Stdlib Require Import ZArith QArith Qround Lia Lqa List.
From stdpp Require Import base option list.

Local Open Scope Z_scope.

(** ** Machine integers *)

Definition size_t_modulus : Z := 2 ^ 64.

Definition wrap64 (x : Z) : Z := x mod size_t_modulus.

(** ** [get_n_rehashing_buckets] *)

Definition PRIMES : list Z :=
  [11; 17; 29; 47; 79; 127; 211; 337; 547; 887; 1433; 2311; 3739; 6053; 9791; 15859].

Definition N_PRIMES : Z := Z.of_nat (length PRIMES).

Definition PRIMES_at (i : Z) : Z := nth (Z.to_nat i) PRIMES 0.

Definition LAST_PRIME : Z := PRIMES_at (N_PRIMES - 1).

(** First loop of [get_n_rehashing_buckets]:
    [while (remaining_factor > LAST_PRIME) { remaining_factor /= LAST_PRIME;
    n_rehashing_buckets *= LAST_PRIME; }].  The fuel counts iterations. *)
Fixpoint divide_loop (fuel : nat) (remaining_factor n_rehashing_buckets : Z) : Z * Z :=
  match fuel with
  | O => (remaining_factor, n_rehashing_buckets)
  | S fuel' =>
      if LAST_PRIME <? remaining_factor
      then divide_loop fuel' (remaining_factor / LAST_PRIME)
                       (wrap64 (n_rehashing_buckets * LAST_PRIME))
      else (remaining_factor, n_rehashing_buckets)
  end.

(** Second loop: the binary search
    [while (left < right) { mid = (left + right) / 2; ... }]. *)
Fixpoint search_loop (fuel : nat) (remaining_factor left right : Z) : Z :=
  match fuel with
  | O => left
  | S fuel' =>
      if left <? right
      then
        let mid := (left + right) / 2 in
        if PRIMES_at mid <? remaining_factor
        then search_loop fuel' remaining_factor (mid + 1) right
        else search_loop fuel' remaining_factor left mid
      else left
  end.

Definition get_n_rehashing_buckets (n_buckets_min : Z) : Z :=
  let '(remaining_factor, n_rehashing_buckets) := divide_loop 64 n_buckets_min 1 in
  let left := search_loop 16 remaining_factor 0 (N_PRIMES - 1) in
  wrap64 (n_rehashing_buckets * PRIMES_at left).

(** ** Hash nodes, chains and handlers

    A [std::unique_ptr<hash_node>&] slot is the chain hanging from it.  A
    node handler receives the slot and the variables its closure captured
    by reference (the state [St]) and gives both back. *)

Abbreviation chain K V := (list (K * V)).

Definition node_handler (K V St : Type) : Type := chain K V → St → chain K V * St.

Section Chains.
Context {K V : Type} `{EqDecision K}.

(** [hash_node_apply_recursive]: find the node with [key] on the list
    starting at [node] and apply the handler to it; if there is none,
    apply the handler to the null slot at the end of the list. *)
Fixpoint hash_node_apply_recursive {St} (node : chain K V) (key : K)
    (handler : node_handler K V St) (s : St) : chain K V * St :=
  match node with
  | [] => handler [] s
  | (k, v) :: next =>
      if decide (k = key) then handler node s
      else
        let '(next', s') := hash_node_apply_recursive next key handler s in
        ((k, v) :: next', s')
  end.

(** [hash_node_all_apply_recursive]: post-order, the successor first. *)
Fixpoint hash_node_all_apply_recursive {St} (node : chain K V)
    (handler : node_handler K V St) (s : St) : chain K V * St :=
  match node with
  | [] => ([], s)
  | kv :: next =>
      let '(next', s') := hash_node_all_apply_recursive next handler s in
      handler (kv :: next') s'
  end.

(** The handler of [set_with_hash]; the captured state is [n_keys]. *)
Definition set_node_handler (key : K) (value : V) (reducer : V → V → V)
    : node_handler K V Z :=
  λ node n_keys,
    match node with
    | [] => ([(key, value)], wrap64 (n_keys + 1))
    | (k, v) :: next => ((k, reducer v value) :: next, n_keys)
    end.

(** The handler of [get_with_hash]; the captured state is the local [value]. *)
Definition get_node_handler : node_handler K V V :=
  λ node value,
    match node with
    | [] => (node, value)
    | (_, v) :: _ => (node, v)
    end.

(** The handler of [has_with_hash]; the captured state is [has_key]. *)
Definition has_node_handler : node_handler K V bool :=
  λ node has_key,
    match node with
    | [] => (node, has_key)
    | _ :: _ => (node, true)
    end.

(** [get] and [has] in one: the handler of [get_with_hash] with an
    optional result, [None] when the node is null. *)
Definition lookup_node_handler : node_handler K V (option V) :=
  λ node o,
    match node with
    | [] => (node, o)
    | (_, v) :: _ => (node, Some v)
    end.

Definition chain_lookup (node : chain K V) (key : K) : option V :=
  (hash_node_apply_recursive node key lookup_node_handler None).2.

(** The handler of [unset_with_hash]; the captured state is [n_keys]. *)
Definition unset_node_handler : node_handler K V Z :=
  λ node n_keys,
    match node with
    | [] => (node, n_keys)
    | _ :: next => (next, wrap64 (n_keys - 1))
    end.

(** The inner handler of [rehash]:
    [rehashing_node = std::move(node); rehashing_node->next.reset();]. *)
Definition rehashing_node_handler (node : K * V) : node_handler K V unit :=
  λ _ s, ([node], s).

(** The outer handler of [rehash]; the captured state is
    [rehashing_buckets].  The moved-from slot is left null. *)
Definition rehash_node_handler (get_hash_value : K → Z) (n_rehashing_buckets : Z)
    : node_handler K V (list (chain K V)) :=
  λ node rehashing_buckets,
    match node with
    | [] => ([], rehashing_buckets)
    | (key, value) :: _ =>
        let hash_value := get_hash_value key in
        let bucket_id := Z.to_nat (hash_value mod n_rehashing_buckets) in
        let '(slot, _) :=
          hash_node_apply_recursive (rehashing_buckets !!! bucket_id) key
            (rehashing_node_handler (key, value)) tt in
        ([], <[bucket_id := slot]> rehashing_buckets)
    end.

(** The loop of [rehash] over the old buckets, in index order. *)
Definition rehash_step (get_hash_value : K → Z) (n_rehashing_buckets : Z)
    (st : list (chain K V) * list (chain K V)) (i : nat)
    : list (chain K V) * list (chain K V) :=
  let '(old_buckets, rehashing_buckets) := st in
  let '(node', rehashing_buckets') :=
    hash_node_all_apply_recursive (old_buckets !!! i)
      (rehash_node_handler get_hash_value n_rehashing_buckets) rehashing_buckets in
  (<[i := node']> old_buckets, rehashing_buckets').

Definition rehash_buckets (get_hash_value : K → Z) (n_buckets n_rehashing_buckets : Z)
    (old_buckets : list (chain K V)) : list (chain K V) :=
  snd (foldl (rehash_step get_hash_value n_rehashing_buckets)
             (old_buckets, replicate (Z.to_nat n_rehashing_buckets) [])
             (seq 0 (Z.to_nat n_buckets))).

(** [for (i = 0; i < n_buckets; i++) buckets[i].reset();] *)
Definition reset_buckets (n_buckets : Z) (bs : list (chain K V)) : list (chain K V) :=
  foldl (λ bs i, <[i := []]> bs) bs (seq 0 (Z.to_nat n_buckets)).

(** [std::vector::resize] with null slots. *)
Definition resize (n : nat) (bs : list (chain K V)) : list (chain K V) :=
  take n bs ++ replicate (n - length bs) [].
End Chains.

(** ** [ConcurrentMap] (concurrent_map_old.h) *)

Record ConcurrentMap (K V : Type) := {
  n_keys : Z;
  n_buckets : Z;
  max_load_factor : Q;
  n_segments : Z;
  buckets : list (chain K V)
}.
Arguments n_keys {K V} _.
Arguments n_buckets {K V} _.
Arguments max_load_factor {K V} _.
Arguments n_segments {K V} _.
Arguments buckets {K V} _.

Definition N_INITIAL_BUCKETS : Z := 11.
Definition N_SEGMENTS_PER_THREAD : Z := 7.
Definition DEFAULT_MAX_LOAD_FACTOR : Q := 1.

Section ConcurrentMapOps.
Context {K V : Type} `{EqDecision K}.
(** The hash functor [H] of the template, as a function to [size_t]. *)
Variable hasher : K → Z.
(** [Parallel::get_n_procs()] and [Parallel::get_n_threads()]. *)
Variable n_procs : Z.
Variable n_threads : Z.

Definition with_n_keys (n : Z) (m : ConcurrentMap K V) : ConcurrentMap K V :=
  {| n_keys := n; n_buckets := n_buckets m; max_load_factor := max_load_factor m;
     n_segments := n_segments m; buckets := buckets m |}.

Definition with_buckets (bs : list (chain K V)) (m : ConcurrentMap K V)
    : ConcurrentMap K V :=
  {| n_keys := n_keys m; n_buckets := n_buckets m; max_load_factor := max_load_factor m;
     n_segments := n_segments m; buckets := bs |}.

(** The constructor. *)
Definition ConcurrentMap_new : ConcurrentMap K V :=
  {| n_keys := 0; n_buckets := N_INITIAL_BUCKETS;
     max_load_factor := DEFAULT_MAX_LOAD_FACTOR;
     n_segments := n_threads * N_SEGMENTS_PER_THREAD;
     buckets := replicate (Z.to_nat N_INITIAL_BUCKETS) [] |}.

Definition set_max_load_factor (l : Q) (m : ConcurrentMap K V) : ConcurrentMap K V :=
  {| n_keys := n_keys m; n_buckets := n_buckets m; max_load_factor := l;
     n_segments := n_segments m; buckets := buckets m |}.

Definition get_hash_value (key : K) : Z := hasher key / n_procs.

(** [hash_node_apply].  With one thread the snapshot of [n_buckets]
    never differs from [n_buckets], so the retry loop runs once. *)
Definition hash_node_apply {St} (key : K) (hash_value : Z)
    (handler : node_handler K V St) (m : ConcurrentMap K V) (s : St)
    : ConcurrentMap K V * St :=
  let bucket_id := Z.to_nat (hash_value mod n_buckets m) in
  let '(node', s') :=
    hash_node_apply_recursive (buckets m !!! bucket_id) key handler s in
  (with_buckets (<[bucket_id := node']> (buckets m)) m, s').

(** [rehash(n_rehashing_buckets)]. *)
Definition rehash (n_rehashing_buckets : Z) (m : ConcurrentMap K V)
    : ConcurrentMap K V :=
  if n_buckets m >=? n_rehashing_buckets then m
  else
    {| n_keys := n_keys m; n_buckets := n_rehashing_buckets;
       max_load_factor := max_load_factor m; n_segments := n_segments m;
       buckets := rehash_buckets get_hash_value (n_buckets m)
                    n_rehashing_buckets (buckets m) |}.

Definition reserve (n_buckets_min : Z) (m : ConcurrentMap K V) : ConcurrentMap K V :=
  if n_buckets m >=? n_buckets_min then m
  else rehash (get_n_rehashing_buckets n_buckets_min) m.

(** The nullary [rehash()]; the cast of the quotient truncates. *)
Definition rehash0 (m : ConcurrentMap K V) : ConcurrentMap K V :=
  let n_buckets_min := Qfloor (inject_Z (n_keys m) / max_load_factor m) in
  reserve n_buckets_min m.

(** The guard of [set_with_hash]:
    [n_keys >= n_buckets * max_load_factor]. *)
Definition set_calls_rehash (m : ConcurrentMap K V) : bool :=
  Qle_bool (inject_Z (n_buckets m) * max_load_factor m) (inject_Z (n_keys m)).

(** [set_with_hash] up to the call of [hash_node_apply]. *)
Definition set_apply (key : K) (hash_value : Z) (value : V) (reducer : V → V → V)
    (m : ConcurrentMap K V) : ConcurrentMap K V :=
  let '(m', n) :=
    hash_node_apply key hash_value (set_node_handler key value reducer) m (n_keys m) in
  with_n_keys n m'.

Definition set_with_hash (key : K) (hash_value : Z) (value : V) (reducer : V → V → V)
    (m : ConcurrentMap K V) : ConcurrentMap K V :=
  let m' := set_apply key hash_value value reducer m in
  if set_calls_rehash m' then rehash0 m' else m'.

Definition set (key : K) (value : V) (reducer : V → V → V) (m : ConcurrentMap K V)
    : ConcurrentMap K V :=
  set_with_hash key (get_hash_value key) value reducer m.

Definition get_with_hash (key : K) (hash_value : Z) (default_value : V)
    (m : ConcurrentMap K V) : V * ConcurrentMap K V :=
  let '(m', value) := hash_node_apply key hash_value get_node_handler m default_value in
  (value, m').

Definition has_with_hash (key : K) (hash_value : Z) (m : ConcurrentMap K V)
    : bool * ConcurrentMap K V :=
  let '(m', has_key) := hash_node_apply key hash_value has_node_handler m false in
  (has_key, m').

Definition unset_with_hash (key : K) (hash_value : Z) (m : ConcurrentMap K V)
    : ConcurrentMap K V :=
  let '(m', n) := hash_node_apply key hash_value unset_node_handler m (n_keys m) in
  with_n_keys n m'.

Definition clear (m : ConcurrentMap K V) : ConcurrentMap K V :=
  {| n_keys := 0; n_buckets := n_buckets m; max_load_factor := max_load_factor m;
     n_segments := n_segments m;
     buckets := reset_buckets (n_buckets m) (buckets m) |}.

Definition clear_and_shrink (m : ConcurrentMap K V) : ConcurrentMap K V :=
  {| n_keys := 0; n_buckets := N_INITIAL_BUCKETS;
     max_load_factor := max_load_factor m; n_segments := n_segments m;
     buckets := resize (Z.to_nat N_INITIAL_BUCKETS)
                  (reset_buckets (n_buckets m) (buckets m)) |}.

(** The stored pairs, bucket by bucket. *)
Definition entries (m : ConcurrentMap K V) : list (K * V) := mjoin (buckets m).

Definition get_n_buckets (m : ConcurrentMap K V) : Z := n_buckets m.

Definition get_n_keys (m : ConcurrentMap K V) : Z := n_keys m.

(** The public operations hash the key themselves. *)
Definition get (key : K) (default_value : V) (m : ConcurrentMap K V)
    : V * ConcurrentMap K V :=
  get_with_hash key (get_hash_value key) default_value m.

Definition has (key : K) (m : ConcurrentMap K V) : bool * ConcurrentMap K V :=
  has_with_hash key (get_hash_value key) m.

Definition unset (key : K) (m : ConcurrentMap K V) : ConcurrentMap K V :=
  unset_with_hash key (get_hash_value key) m.

(** The handler of the [get_with_hash] that takes a callback:
    [if (node) handler(node->value);].  The callback is a function on
    the state [St] that its closure captured. *)
Definition callback_node_handler {St} (handler : V → St → St) : node_handler K V St :=
  λ node s,
    match node with
    | [] => (node, s)
    | (_, v) :: _ => (node, handler v s)
    end.

Definition get_with_hash_callback {St} (key : K) (hash_value : Z)
    (handler : V → St → St) (m : ConcurrentMap K V) (s : St) : ConcurrentMap K V * St :=
  hash_node_apply key hash_value (callback_node_handler handler) m s.

Definition get_callback {St} (key : K) (handler : V → St → St)
    (m : ConcurrentMap K V) (s : St) : ConcurrentMap K V * St :=
  get_with_hash_callback key (get_hash_value key) handler m s.



(** The [while] loop of the copy constructor on one bucket.  [ptr_src]
    walks the chain of the source.  [ptr_dest] is a local raw pointer,
    here the chain it points to: it is set to each new node and then to
    the null successor of that node, and nothing is stored through it.
    The result is the last [ptr_dest] and the nodes allocated. *)
Fixpoint copy_chain (ptr_src ptr_dest : chain K V) (allocated : list (K * V))
    : chain K V * list (K * V) :=
  match ptr_src with
  | [] => (ptr_dest, allocated)
  | (key, value) :: next => copy_chain next [] (allocated ++ [(key, value)])
  end.

(** The body of the bucket loop of the copy constructor:
    [ptr_src = m.buckets[i].get(); ptr_dest = buckets[i].get();] and the
    [while] loop.  The bucket array of the copy is read, never written. *)
Definition copy_step (src : ConcurrentMap K V)
    (st : list (chain K V) * list (K * V)) (i : nat)
    : list (chain K V) * list (K * V) :=
  let '(bs, allocated) := st in
  let '(_, allocated') := copy_chain (buckets src !!! i) (bs !!! i) allocated in
  (bs, allocated').

(** The copy constructor: the copy, and the nodes that it allocated. *)
Definition ConcurrentMap_copy (m : ConcurrentMap K V)
    : ConcurrentMap K V * list (K * V) :=
  let '(bs, allocated) :=
    foldl (copy_step m) (resize (Z.to_nat (n_buckets m)) [], [])
          (seq 0 (Z.to_nat (n_buckets m))) in
  ({| n_keys := n_keys m; n_buckets := n_buckets m;
      max_load_factor := max_load_factor m; n_segments := n_segments m;
      buckets := bs |}, allocated).
End ConcurrentMapOps.

(** ** Progress output of [ConcurrentMap::mapreduce]

    The [printf] calls of the bucket loop: the ticks that one thread of
    one process prints.  [target_progress] is touched by thread 0 of
    process 0 alone. *)



(** The values of [i] that thread [thread_id] runs in
    [for (i = proc_id; i < n_buckets; i += n_procs)] under
    [schedule(static, 1)]: iteration number [j] goes to thread
    [j mod n_threads], and a thread runs its iterations in order. *)
Definition thread_iterations (proc_id n_procs n_threads thread_id n_buckets : Z)
    : list Z :=
  let n_iterations := (n_buckets - proc_id + n_procs - 1) / n_procs in
  (λ j, proc_id + j * n_procs) <$>
    filter (λ j, j mod n_threads = thread_id) (seqZ 0 n_iterations).



(** ** The mapper calls of [ConcurrentMap::mapreduce]

    [mapper(ptr->key, ptr->value, emit)] is called on the nodes of a
    bucket from the head of the chain on.  The mapper is a function on
    the state [St] that it reaches through [emit]. *)

Definition mapreduce_bucket {K V St} (mapper : K → V → St → St)
    (m : ConcurrentMap K V) (s : St) (i : Z) : St :=
  foldl (λ s kv, mapper kv.1 kv.2 s) s (buckets m !!! Z.to_nat i).

(** The chain walks of the bucket loop that one thread of one process runs. *)
Definition mapreduce_thread {K V St} (n_procs n_threads proc_id thread_id : Z)
    (mapper : K → V → St → St) (m : ConcurrentMap K V) (s : St) : St :=
  foldl (mapreduce_bucket mapper m) s
        (thread_iterations proc_id n_procs n_threads thread_id (n_buckets m)).

(** The pairs that the thread passes to the mapper, in the order of the calls. *)
Definition mapper_calls {K V} (n_procs n_threads proc_id thread_id : Z)
    (m : ConcurrentMap K V) : list (K * V) :=
  mapreduce_thread n_procs n_threads proc_id thread_id (λ k v calls, calls ++ [(k, v)]) m [].

(** ** Operations that may block

    [Op St A] is a computation on the state [St] that gives [None] when
    the calling thread would wait for a lock that nobody releases. *)

Definition Op (St A : Type) : Type := St → option (A * St).

Definition op_ret {St A} (a : A) : Op St A := λ s, Some (a, s).

Definition op_bind {St A B} (c : Op St A) (k : A → Op St B) : Op St B :=
  λ s, match c s with
       | Some (a, s') => k a s'
       | None => None
       end.

Notation "'do' x <- c ;; k" := (op_bind c (λ x, k))
  (at level 10, x name, c at level 99, k at level 200,
   format "'[v' 'do'  x  <-  c  ;; '/' k ']'").
Notation "c >> k" := (op_bind c (λ _, k))
  (at level 100, k at level 200, right associativity).

(** ** [ConcurrentMap] with its locks

    The operations of [ConcurrentMap] once more, as one thread
    [thread_id] runs them, with the [omp_set_lock] and [omp_unset_lock]
    calls of the source.  The state is the map together with its two
    lock vectors; a lock is free ([None]) or held by a thread
    ([Some thread_id]), and [omp_set_lock] on a lock that is held waits,
    also when the caller holds it. *)

Record LockedMap (K V : Type) := {
  map_of : ConcurrentMap K V;
  segment_locks : list (option Z);
  rehashing_segment_locks : list (option Z)
}.
Arguments map_of {K V} _.
Arguments segment_locks {K V} _.
Arguments rehashing_segment_locks {K V} _.

Definition omp_set_lock (thread_id : Z) (i : nat) : Op (list (option Z)) unit :=
  λ locks, match locks !! i with
           | Some None => Some (tt, <[i := Some thread_id]> locks)
           | _ => None
           end.

Definition omp_unset_lock (i : nat) : Op (list (option Z)) unit :=
  λ locks, Some (tt, <[i := None]> locks).

(** [for (auto& lock : locks) omp_set_lock(&lock);] from lock [i] on. *)
Fixpoint omp_set_locks (thread_id : Z) (ids : list nat) : Op (list (option Z)) unit :=
  match ids with
  | [] => op_ret tt
  | i :: rest => omp_set_lock thread_id i >> omp_set_locks thread_id rest
  end.

Fixpoint omp_unset_locks (ids : list nat) : Op (list (option Z)) unit :=
  match ids with
  | [] => op_ret tt
  | i :: rest => omp_unset_lock i >> omp_unset_locks rest
  end.

Section LockedOps.
Context {K V : Type} `{EqDecision K}.
Variable hasher : K → Z.
Variable n_procs : Z.
(** [omp_get_thread_num()] of the thread that runs the operations. *)
Variable thread_id : Z.

(** A step on [segment_locks]. *)
Definition on_segment_locks {A} (c : Op (list (option Z)) A) : Op (LockedMap K V) A :=
  λ lm, match c (segment_locks lm) with
        | Some (a, locks) =>
            Some (a, {| map_of := map_of lm; segment_locks := locks;
                        rehashing_segment_locks := rehashing_segment_locks lm |})
        | None => None
        end.

(** A step on the data of the map. *)
Definition on_map {A} (f : ConcurrentMap K V → ConcurrentMap K V * A)
    : Op (LockedMap K V) A :=
  λ lm, let '(m, a) := f (map_of lm) in
        Some (a, {| map_of := m; segment_locks := segment_locks lm;
                    rehashing_segment_locks := rehashing_segment_locks lm |}).

(** The constructor: [omp_init_lock] leaves every lock free. *)
Definition LockedMap_new (n_threads : Z) : LockedMap K V :=
  let m := ConcurrentMap_new n_threads in
  {| map_of := m;
     segment_locks := replicate (Z.to_nat (n_segments m)) None;
     rehashing_segment_locks := replicate (Z.to_nat (n_segments m)) None |}.

Definition lock_all_segments : Op (LockedMap K V) unit :=
  λ lm, on_segment_locks
          (omp_set_locks thread_id (seq 0 (length (segment_locks lm)))) lm.

Definition unlock_all_segments : Op (LockedMap K V) unit :=
  λ lm, on_segment_locks (omp_unset_locks (seq 0 (length (segment_locks lm)))) lm.

(** [hash_node_apply] with the lock of the segment of the bucket.  One
    thread never sees [n_buckets] differ from its snapshot, so the body
    of the retry loop is run once. *)
Definition locked_hash_node_apply {St} (key : K) (hash_value : Z)
    (handler : node_handler K V St) (s : St) : Op (LockedMap K V) St :=
  λ lm,
    let n_buckets_snapshot := n_buckets (map_of lm) in
    let bucket_id := hash_value mod n_buckets_snapshot in
    let segment_id := Z.to_nat (bucket_id mod n_segments (map_of lm)) in
    (on_segment_locks (omp_set_lock thread_id segment_id) >>
     do s' <- on_map (λ m, hash_node_apply key hash_value handler m s) ;;
     on_segment_locks (omp_unset_lock segment_id) >>
     op_ret s') lm.

(** The outer handler of [rehash] with the lock of the segment of the
    new bucket, taken from [rehashing_segment_locks].  The captured
    state is [rehashing_buckets] with these locks, or [None] once the
    thread waits. *)
Definition locked_rehash_node_handler (n_rehashing_buckets n_segments : Z)
    : node_handler K V (option (list (chain K V) * list (option Z))) :=
  λ node st,
    match node, st with
    | (key, value) :: _, Some (rehashing_buckets, locks) =>
        let hash_value := get_hash_value hasher n_procs key in
        let bucket_id := hash_value mod n_rehashing_buckets in
        let segment_id := Z.to_nat (bucket_id mod n_segments) in
        match omp_set_lock thread_id segment_id locks with
        | Some (_, locks') =>
            let '(slot, _) :=
              hash_node_apply_recursive (rehashing_buckets !!! Z.to_nat bucket_id) key
                (rehashing_node_handler (key, value)) tt in
            match omp_unset_lock segment_id locks' with
            | Some (_, locks'') =>
                ([], Some (<[Z.to_nat bucket_id := slot]> rehashing_buckets, locks''))
            | None => (node, None)
            end
        | None => (node, None)
        end
    | _, _ => (node, st)
    end.

Definition locked_rehash_step (n_rehashing_buckets n_segments : Z)
    (st : list (chain K V) * option (list (chain K V) * list (option Z))) (i : nat)
    : list (chain K V) * option (list (chain K V) * list (option Z)) :=
  let '(old_buckets, s) := st in
  let '(node', s') :=
    hash_node_all_apply_recursive (old_buckets !!! i)
      (locked_rehash_node_handler n_rehashing_buckets n_segments) s in
  (<[i := node']> old_buckets, s').

(** The part of [rehash] under the comment [// Rehash.]: the loop over
    the old buckets, and the two assignments after it. *)
Definition locked_rehash_buckets (n_rehashing_buckets : Z) : Op (LockedMap K V) unit :=
  λ lm,
    let m := map_of lm in
    match snd (foldl (locked_rehash_step n_rehashing_buckets (n_segments m))
                     (buckets m,
                      Some (replicate (Z.to_nat n_rehashing_buckets) [],
                            rehashing_segment_locks lm))
                     (seq 0 (Z.to_nat (n_buckets m)))) with
    | Some (rehashing_buckets, locks) =>
        Some (tt, {| map_of :=
                       {| n_keys := n_keys m; n_buckets := n_rehashing_buckets;
                          max_load_factor := max_load_factor m;
                          n_segments := n_segments m;
                          buckets := rehashing_buckets |};
                     segment_locks := segment_locks lm;
                     rehashing_segment_locks := locks |})
    | None => None
    end.

(** [rehash(n_rehashing_buckets)]: the check under the first lock, the
    check again under all locks, the rehash proper. *)
Definition locked_rehash (n_rehashing_buckets : Z) : Op (LockedMap K V) unit :=
  on_segment_locks (omp_set_lock thread_id 0) >>
  λ lm,
    if n_buckets (map_of lm) >=? n_rehashing_buckets
    then on_segment_locks (omp_unset_lock 0) lm
    else
      (on_segment_locks (omp_unset_lock 0) >>
       lock_all_segments >>
       λ lm',
         if n_buckets (map_of lm') >=? n_rehashing_buckets
         then unlock_all_segments lm'
         else (locked_rehash_buckets n_rehashing_buckets >> unlock_all_segments) lm') lm.

Definition locked_reserve (n_buckets_min : Z) : Op (LockedMap K V) unit :=
  λ lm,
    if n_buckets (map_of lm) >=? n_buckets_min then Some (tt, lm)
    else locked_rehash (get_n_rehashing_buckets n_buckets_min) lm.

Definition locked_rehash0 : Op (LockedMap K V) unit :=
  λ lm,
    let m := map_of lm in
    locked_reserve (Qfloor (inject_Z (n_keys m) / max_load_factor m)) lm.

Definition locked_set_with_hash (key : K) (hash_value : Z) (value : V)
    (reducer : V → V → V) : Op (LockedMap K V) unit :=
  λ lm,
    (do n <- locked_hash_node_apply key hash_value
               (set_node_handler key value reducer) (n_keys (map_of lm)) ;;
     on_map (λ m, (with_n_keys n m, tt)) >>
     λ lm', if set_calls_rehash (map_of lm') then locked_rehash0 lm'
            else Some (tt, lm')) lm.

Definition locked_set (key : K) (value : V) (reducer : V → V → V)
    : Op (LockedMap K V) unit :=
  locked_set_with_hash key (get_hash_value hasher n_procs key) value reducer.

Definition locked_get (key : K) (default_value : V) : Op (LockedMap K V) V :=
  locked_hash_node_apply key (get_hash_value hasher n_procs key)
    get_node_handler default_value.

Definition locked_has (key : K) : Op (LockedMap K V) bool :=
  locked_hash_node_apply key (get_hash_value hasher n_procs key) has_node_handler false.

Definition locked_unset (key : K) : Op (LockedMap K V) unit :=
  λ lm,
    (do n <- locked_hash_node_apply key (get_hash_value hasher n_procs key)
               unset_node_handler (n_keys (map_of lm)) ;;
     on_map (λ m, (with_n_keys n m, tt))) lm.

Definition locked_clear : Op (LockedMap K V) unit :=
  lock_all_segments >> on_map (λ m, (clear m, tt)) >> unlock_all_segments.

Definition locked_clear_and_shrink : Op (LockedMap K V) unit :=
  lock_all_segments >> on_map (λ m, (clear_and_shrink m, tt)) >> unlock_all_segments.

End LockedOps.

(** ** [BareMap] *)

Module BareMap.
(** Modelled from the spec: bare_map.h is not among the sources.  The
    state of a bare map is "a vector of bucket heads of length B, a key
    count n, and a max-load-factor L".  The hash function, "supplied at
    map construction", is the parameter [hasher] of the operations. *)
Record BareMap (K V : Type) := {
  n_keys : Z;
  n_buckets : Z;
  max_load_factor : Q;
  buckets : list (chain K V)
}.
Arguments n_keys {K V} _.
Arguments n_buckets {K V} _.
Arguments max_load_factor {K V} _.
Arguments buckets {K V} _.

Section Ops.
Context {K V : Type} `{EqDecision K}.
Variable hasher : K → Z.

(** Modelled from the spec: BareMap::DEFAULT_MAX_LOAD_FACTOR is missing;
    the scenarios of the spec run "with max_load_factor = 1.0". *)
Definition DEFAULT_MAX_LOAD_FACTOR : Q := 1.

(** Modelled from the spec: the initial bucket count of BareMap is
    missing; a map starts "at 11 buckets", "the smallest prime". *)
Definition N_INITIAL_BUCKETS : Z := 11.

(** Modelled from the spec: the constructor of BareMap is missing; "maps
    are created empty". *)
Definition empty : BareMap K V :=
  {| n_keys := 0; n_buckets := N_INITIAL_BUCKETS;
     max_load_factor := DEFAULT_MAX_LOAD_FACTOR;
     buckets := replicate (Z.to_nat N_INITIAL_BUCKETS) [] |}.

(** Modelled from the spec: BareMap::rehash is missing.  "Rehash
    proceeds post-order over each chain, transplanting nodes into a
    freshly allocated bucket array of the new size". *)
Definition rehash (n_rehashing_buckets : Z) (m : BareMap K V) : BareMap K V :=
  {| n_keys := n_keys m; n_buckets := n_rehashing_buckets;
     max_load_factor := max_load_factor m;
     buckets := rehash_buckets hasher (n_buckets m) n_rehashing_buckets
                  (buckets m) |}.

(** Modelled from the spec: BareMap::set is missing.  "set walks the
    target bucket chain; if the key is found, applies the reducer to
    its value; otherwise appends a new node at the chain's tail.
    After insert, if n > B·L, rehash to pick_prime_product(n/L)." *)
Definition set (key : K) (hash_value : Z) (value : V) (reducer : V → V → V)
    (m : BareMap K V) : BareMap K V :=
  let bucket_id := Z.to_nat (hash_value mod n_buckets m) in
  let '(node', n) :=
    hash_node_apply_recursive (buckets m !!! bucket_id) key
      (set_node_handler key value reducer) (n_keys m) in
  let m' :=
    {| n_keys := n; n_buckets := n_buckets m; max_load_factor := max_load_factor m;
       buckets := <[bucket_id := node']> (buckets m) |} in
  if negb (Qle_bool (inject_Z n) (inject_Z (n_buckets m) * max_load_factor m))
  then rehash (get_n_rehashing_buckets (Qfloor (inject_Z n / max_load_factor m))) m'
  else m'.

(** Modelled from the spec: BareMap::get and BareMap::has are missing;
    [None] stands for the default value of [get] and [false] of [has].
    "Hash collisions of different keys: handled by chain traversal
    with equality." *)
Definition lookup (key : K) (hash_value : Z) (m : BareMap K V) : option V :=
  let bucket_id := Z.to_nat (hash_value mod n_buckets m) in
  chain_lookup (buckets m !!! bucket_id) key.

(** Modelled from the spec: BareMap::clear is missing.  Post-clear
    "n_keys == 0"; the bucket array keeps its length. *)
Definition clear (m : BareMap K V) : BareMap K V :=
  {| n_keys := 0; n_buckets := n_buckets m; max_load_factor := max_load_factor m;
     buckets := replicate (Z.to_nat (n_buckets m)) [] |}.

(** Modelled from the spec: BareMap::for_each is missing.  The visitor
    is called with "(key, hash, value)" for every node; the hash is the
    map's own hash of the key. *)
Fixpoint for_each_nodes {St} (nodes : list (K * V))
    (handler : K → Z → V → Op St unit) : Op St unit :=
  match nodes with
  | [] => op_ret tt
  | (k, v) :: rest => handler k (hasher k) v >> for_each_nodes rest handler
  end.

(** Modelled from the spec: BareMap::for_each is missing; the nodes are
    visited bucket by bucket. *)
Definition for_each {St} (m : BareMap K V) (handler : K → Z → V → Op St unit)
    : Op St unit :=
  for_each_nodes (mjoin (buckets m)) handler.
End Ops.

#[global] Instance BareMap_inhabited {K V} : Inhabited (BareMap K V) :=
  populate {| n_keys := 0; n_buckets := 0; max_load_factor := 0; buckets := [] |}.
End BareMap.

(** ** [AsyncHasher] *)

(** Modelled from the spec: async_hasher.h is not among the sources.  A
    segment hashes a key with "h div S", so that the bucket choice stays
    "uncorrelated with h mod S". *)
Definition AsyncHasher {K} (H : K → Z) (n_segments : Z) : K → Z :=
  λ key, H key / n_segments.

(** Modelled from the spec: AsyncHasher::N_SEGMENTS_PER_THREAD is missing;
    "S = T · 7 (seven segments per thread)". *)
Definition AsyncHasher_N_SEGMENTS_PER_THREAD : Z := 7.

(** ** [BareConcurrentMap] (bare_concurrent_map.h) *)

Module BareConcurrentMap.
(** A lock is free ([None]) or held by a thread ([Some thread_id]). *)
Record BareConcurrentMap (K V : Type) := {
  max_load_factor : Q;
  n_threads : Z;
  n_segments : Z;
  segment_locks : list (option Z);
  thread_caches : list (BareMap.BareMap K V);
  segments : list (BareMap.BareMap K V)
}.
Arguments max_load_factor {K V} _.
Arguments n_threads {K V} _.
Arguments n_segments {K V} _.
Arguments segment_locks {K V} _.
Arguments thread_caches {K V} _.
Arguments segments {K V} _.

Section Ops.
Context {K V : Type} `{EqDecision K}.
(** The hash functor [H] of the template. *)
Variable H : K → Z.

Definition with_locks (ls : list (option Z)) (m : BareConcurrentMap K V)
    : BareConcurrentMap K V :=
  {| max_load_factor := max_load_factor m; n_threads := n_threads m;
     n_segments := n_segments m; segment_locks := ls;
     thread_caches := thread_caches m; segments := segments m |}.

Definition with_thread_caches (cs : list (BareMap.BareMap K V))
    (m : BareConcurrentMap K V) : BareConcurrentMap K V :=
  {| max_load_factor := max_load_factor m; n_threads := n_threads m;
     n_segments := n_segments m; segment_locks := segment_locks m;
     thread_caches := cs; segments := segments m |}.

Definition with_segments (ss : list (BareMap.BareMap K V))
    (m : BareConcurrentMap K V) : BareConcurrentMap K V :=
  {| max_load_factor := max_load_factor m; n_threads := n_threads m;
     n_segments := n_segments m; segment_locks := segment_locks m;
     thread_caches := thread_caches m; segments := ss |}.

(** The constructor, for [omp_get_max_threads() = n]. *)
Definition BareConcurrentMap_new (n : Z) : BareConcurrentMap K V :=
  let s := n * AsyncHasher_N_SEGMENTS_PER_THREAD in
  {| max_load_factor := BareMap.DEFAULT_MAX_LOAD_FACTOR; n_threads := n;
     n_segments := s;
     segment_locks := replicate (Z.to_nat s) None;
     thread_caches := replicate (Z.to_nat n) BareMap.empty;
     segments := replicate (Z.to_nat s) BareMap.empty |}.

(** [omp_test_lock]: takes the lock if it is free, never waits. *)
Definition omp_test_lock (thread_id : Z) (i : nat) : Op (BareConcurrentMap K V) bool :=
  λ m, match segment_locks m !! i with
       | Some None => Some (true, with_locks (<[i := Some thread_id]> (segment_locks m)) m)
       | _ => Some (false, m)
       end.

(** [omp_set_lock]: takes the lock if it is free, waits otherwise. *)
Definition omp_set_lock (thread_id : Z) (i : nat) : Op (BareConcurrentMap K V) unit :=
  λ m, match segment_locks m !! i with
       | Some None => Some (tt, with_locks (<[i := Some thread_id]> (segment_locks m)) m)
       | _ => None
       end.

Definition omp_unset_lock (i : nat) : Op (BareConcurrentMap K V) unit :=
  λ m, Some (tt, with_locks (<[i := None]> (segment_locks m)) m).

(** [segments[segment_id].set(key, hash_value, value, reducer)]; a
    segment is a [BareMap<K, V, AsyncHasher<K, H>>]. *)
Definition segment_set (segment_id : nat) (key : K) (hash_value : Z) (value : V)
    (reducer : V → V → V) : Op (BareConcurrentMap K V) unit :=
  λ m, Some (tt, with_segments
                   (<[segment_id :=
                        BareMap.set (AsyncHasher H (n_segments m))
                          key hash_value value reducer
                          (segments m !!! segment_id)]> (segments m)) m).

(** [thread_caches[thread_id].set(key, hash_value, value, reducer)]; a
    cache is a [BareMap<K, V, H>]. *)
Definition thread_cache_set (thread_id : Z) (key : K) (hash_value : Z) (value : V)
    (reducer : V → V → V) : Op (BareConcurrentMap K V) unit :=
  λ m, let i := Z.to_nat thread_id in
       Some (tt, with_thread_caches
                   (<[i := BareMap.set H key hash_value value reducer
                             (thread_caches m !!! i)]> (thread_caches m)) m).

(** [thread_caches[thread_id].clear()]. *)
Definition thread_cache_clear (thread_id : Z) : Op (BareConcurrentMap K V) unit :=
  λ m, let i := Z.to_nat thread_id in
       Some (tt, with_thread_caches
                   (<[i := BareMap.clear (thread_caches m !!! i)]> (thread_caches m)) m).

(** [async_set], run by thread [thread_id]. *)
Definition async_set (thread_id : Z) (key : K) (hash_value : Z) (value : V)
    (reducer : V → V → V) : Op (BareConcurrentMap K V) unit :=
  λ m,
    let async_hash_value := hash_value / n_segments m in
    let segment_id := Z.to_nat (hash_value mod n_segments m) in
    (do locked <- omp_test_lock thread_id segment_id ;;
     if (locked : bool) then
       segment_set segment_id key async_hash_value value reducer >>
       omp_unset_lock segment_id
     else
       thread_cache_set thread_id key hash_value value reducer) m.

(** The handler of [sync], run by thread [thread_id]. *)
Definition sync_handler (thread_id : Z) (reducer : V → V → V)
    (key : K) (hash_value : Z) (value : V) : Op (BareConcurrentMap K V) unit :=
  λ m,
    let segment_id := Z.to_nat (hash_value mod n_segments m) in
    let async_hash_value := hash_value / n_segments m in
    (omp_set_lock thread_id segment_id >>
     segment_set segment_id key async_hash_value value reducer >>
     omp_unset_lock segment_id) m.

(** The body of the parallel region of [sync] for one thread. *)
Definition sync_thread (reducer : V → V → V) (thread_id : Z)
    : Op (BareConcurrentMap K V) unit :=
  λ m,
    (BareMap.for_each H (thread_caches m !!! Z.to_nat thread_id)
       (sync_handler thread_id reducer) >>
     thread_cache_clear thread_id) m.

(** [sync]: the team of the parallel region has [n_threads] threads,
    as when the map was built; they run one after the other. *)
Fixpoint sync_team (reducer : V → V → V) (team : list Z)
    : Op (BareConcurrentMap K V) unit :=
  match team with
  | [] => op_ret tt
  | thread_id :: rest => sync_thread reducer thread_id >> sync_team reducer rest
  end.

Definition sync (reducer : V → V → V) : Op (BareConcurrentMap K V) unit :=
  λ m, sync_team reducer (seqZ 0 (n_threads m)) m.

(** What [get] finds in the segments for a key and its hash. *)
Definition lookup (key : K) (hash_value : Z) (m : BareConcurrentMap K V) : option V :=
  BareMap.lookup key (hash_value / n_segments m)
    (segments m !!! Z.to_nat (hash_value mod n_segments m)).

(** [get_n_keys]: the key counts of the segments, added up in [size_t]. *)
Definition get_n_keys (m : BareConcurrentMap K V) : Z :=
  foldl (λ n i, wrap64 (n + BareMap.n_keys (segments m !!! i))) 0
        (seq 0 (Z.to_nat (n_segments m))).
End Ops.
End BareConcurrentMap.

(** ** The invariant of the data model

    "Every node in bucket i satisfies hash(key) mod B == i; no two nodes
    in the same bucket share a key"; the bucket vector has [n_buckets]
    slots. *)

Definition buckets_wf {K V} (hash : K → Z) (n_buckets : Z) (bs : list (chain K V))
    : Prop :=
  0 < n_buckets ∧
  length bs = Z.to_nat n_buckets ∧
  ∀ i c, bs !! i = Some c →
    NoDup c.*1 ∧ ∀ k, k ∈ c.*1 → Z.to_nat (hash k mod n_buckets) = i.

(** The invariant as a test, to run on a concrete bucket array. *)
Definition buckets_wf_b {K V} `{EqDecision K} (hash : K → Z) (n_buckets : Z)
    (bs : list (chain K V)) : bool :=
  bool_decide (0 < n_buckets) &&
  bool_decide (length bs = Z.to_nat n_buckets) &&
  forallb (λ ic : nat * chain K V,
             bool_decide (NoDup (ic.2).*1) &&
             forallb (λ k, bool_decide (Z.to_nat (hash k mod n_buckets) = ic.1)) (ic.2).*1)
          (imap pair bs).

Definition wf {K V} (hasher : K → Z) (n_procs : Z) (m : ConcurrentMap K V) : Prop :=
  buckets_wf (get_hash_value hasher n_procs) (n_buckets m) (buckets m).

(** [n_keys] is the number of stored pairs. *)
Definition counted {K V} (m : ConcurrentMap K V) : Prop :=
  get_n_keys m = Z.of_nat (length (entries m)).

(** A map at rest: its bucket array is well formed, it has a lock of
    each kind per segment, and no lock is held. *)
Definition at_rest {K V} (hasher : K → Z) (n_procs : Z) (lm : LockedMap K V) : Prop :=
  wf hasher n_procs (map_of lm) ∧
  0 < n_segments (map_of lm) ∧
  segment_locks lm = replicate (Z.to_nat (n_segments (map_of lm))) None ∧
  rehashing_segment_locks lm = replicate (Z.to_nat (n_segments (map_of lm))) None.

(** The locked map with other data and the same locks. *)
Definition with_map {K V} (m : ConcurrentMap K V) (lm : LockedMap K V) : LockedMap K V :=
  {| map_of := m; segment_locks := segment_locks lm;
     rehashing_segment_locks := rehashing_segment_locks lm |}.

(** ** Sample maps

    Maps with [Z] keys and values, the identity as hash, one process and
    one thread, filled through [set] from the constructor. *)

Definition sample_map (max_load : Q) (keys : list Z) : ConcurrentMap Z Z :=
  foldl (λ m k, set id 1 k (10 * k) Z.add m)
        (set_max_load_factor max_load (ConcurrentMap_new 1)) keys.

(** Three keys that share bucket 3 of the eleven. *)
Definition sample_chained : ConcurrentMap Z Z := sample_map 1 [3; 14; 25].

(** [sample_chained] with its locks, at rest, and with the lock of
    segment 3 (the segment of bucket 3) held by thread 1. *)
Definition sample_locked : LockedMap Z Z := with_map sample_chained (LockedMap_new 1).

Definition sample_locked_held : LockedMap Z Z :=
  {| map_of := sample_chained;
     segment_locks := <[3%nat := Some 1]> (segment_locks sample_locked);
     rehashing_segment_locks := rehashing_segment_locks sample_locked |}.



(** ** The invariant of the segmented map

    A bare map is well formed when its bucket array is, for its hash. *)

Definition bare_wf {K V} (hasher : K → Z) (m : BareMap.BareMap K V) : Prop :=
  buckets_wf hasher (BareMap.n_buckets m) (BareMap.buckets m).

(** A segmented map over the hash [H]: [S] segments, well formed for the
    hash [H k / S], [S] segment locks, and one staging cache per thread. *)
Definition segmented_wf {K V} (H : K → Z)
    (m : BareConcurrentMap.BareConcurrentMap K V) : Prop :=
  0 < BareConcurrentMap.n_segments m ∧
  length (BareConcurrentMap.segments m) = Z.to_nat (BareConcurrentMap.n_segments m) ∧
  length (BareConcurrentMap.segment_locks m) = Z.to_nat (BareConcurrentMap.n_segments m) ∧
  length (BareConcurrentMap.thread_caches m) = Z.to_nat (BareConcurrentMap.n_threads m) ∧
  Forall (bare_wf (AsyncHasher H (BareConcurrentMap.n_segments m)))
         (BareConcurrentMap.segments m).

Definition segmented_wf_b {K V} `{EqDecision K} (H : K → Z)
    (m : BareConcurrentMap.BareConcurrentMap K V) : bool :=
  bool_decide (0 < BareConcurrentMap.n_segments m) &&
  bool_decide (length (BareConcurrentMap.segments m) =
                 Z.to_nat (BareConcurrentMap.n_segments m)) &&
  bool_decide (length (BareConcurrentMap.segment_locks m) =
                 Z.to_nat (BareConcurrentMap.n_segments m)) &&
  bool_decide (length (BareConcurrentMap.thread_caches m) =
                 Z.to_nat (BareConcurrentMap.n_threads m)) &&
  forallb (λ s, buckets_wf_b (AsyncHasher H (BareConcurrentMap.n_segments m))
                  (BareMap.n_buckets s) (BareMap.buckets s))
          (BareConcurrentMap.segments m).

(** No thread holds a segment lock. *)
Definition locks_free {K V} (m : BareConcurrentMap.BareConcurrentMap K V) : Prop :=
  Forall (λ l, l = None) (BareConcurrentMap.segment_locks m).

(** The pairs staged in the thread caches, thread by thread. *)
Definition staged {K V} (m : BareConcurrentMap.BareConcurrentMap K V) : list (K * V) :=
  mjoin ((λ c, mjoin (BareMap.buckets c)) <$> BareConcurrentMap.thread_caches m).

(** The staging caches are well formed for the hash [H]. *)
Definition caches_wf {K V} (H : K → Z)
    (m : BareConcurrentMap.BareConcurrentMap K V) : Prop :=
  Forall (bare_wf H) (BareConcurrentMap.thread_caches m).

(** The map once every thread has let go of the locks it held. *)
Definition released {K V} (m : BareConcurrentMap.BareConcurrentMap K V)
    : BareConcurrentMap.BareConcurrentMap K V :=
  BareConcurrentMap.with_locks
    (replicate (length (BareConcurrentMap.segment_locks m)) None) m.

(** The values that a list of pairs holds for a key, in order. *)
Definition values_of {K V} `{EqDecision K} (key : K) (l : list (K * V)) : list V :=
  (filter (λ kv, kv.1 = key) l).*2.

(** The reducer applied to an optional stored value, as [set] does. *)
Definition reduce_into {V} (reducer : V → V → V) (o : option V) (value : V) : option V :=
  Some (from_option (λ old, reducer old value) value o).

(** A segmented map for two threads in which thread 1 holds the lock of
    segment 3. *)
Definition sample_held : BareConcurrentMap.BareConcurrentMap Z Z :=
  let m := BareConcurrentMap.BareConcurrentMap_new 2 in
  BareConcurrentMap.with_locks (<[3%nat := Some 1]> (BareConcurrentMap.segment_locks m)) m.

(** A run of two threads over the identity hash: key 3 is committed;
    then, while the other thread holds the lock of segment 3, thread 0
    stages the keys 3 and 17 and thread 1 stages key 3; at the end no lock
    is held. *)
Definition after_async_set (thread_id key value : Z)
    (m : BareConcurrentMap.BareConcurrentMap Z Z) : BareConcurrentMap.BareConcurrentMap Z Z :=
  default m (snd <$> BareConcurrentMap.async_set id thread_id key key value Z.add m).

Definition with_lock_3 (owner : option Z) (m : BareConcurrentMap.BareConcurrentMap Z Z)
    : BareConcurrentMap.BareConcurrentMap Z Z :=
  BareConcurrentMap.with_locks (<[3%nat := owner]> (BareConcurrentMap.segment_locks m)) m.

Definition sample_segmented : BareConcurrentMap.BareConcurrentMap Z Z :=
  with_lock_3 None
    (after_async_set 1 3 100
       (with_lock_3 (Some 0)
          (after_async_set 0 17 170
             (after_async_set 0 3 7
                (with_lock_3 (Some 1)
                   (after_async_set 0 3 30
                      (BareConcurrentMap.BareConcurrentMap_new 2))))))).

(** * Properties *)

(** ** The bucket-count picker *)

Lemma wrap64_range x : 0 ≤ wrap64 x < size_t_modulus.
Proof. apply Z.mod_pos_bound. reflexivity. Qed.

Lemma wrap64_small x : 0 ≤ x < size_t_modulus → wrap64 x = x.
Proof. apply Z.mod_small. Qed.

Lemma wrap64_odd x : Z.odd (wrap64 x) = Z.odd x.
Proof.
  unfold wrap64.
  rewrite (Z.div_mod x size_t_modulus) at 2 by discriminate.
  rewrite Z.add_comm, Z.odd_add_mul_even; [done|].
  exists (2 ^ 63). reflexivity.
Qed.

Lemma divide_loop_unfold fuel rf acc :
  divide_loop (S fuel) rf acc =
    if LAST_PRIME <? rf
    then divide_loop fuel (rf / LAST_PRIME) (wrap64 (acc * LAST_PRIME))
    else (rf, acc).
Proof. reflexivity. Qed.

Lemma search_loop_unfold fuel rf l r :
  search_loop (S fuel) rf l r =
    if l <? r then
      if PRIMES_at ((l + r) / 2) <? rf
      then search_loop fuel rf ((l + r) / 2 + 1) r
      else search_loop fuel rf l ((l + r) / 2)
    else l.
Proof. reflexivity. Qed.

(** One turn of the binary search on a symbolic [remaining_factor]: the
    bounds are numerals, the comparison with the prime is split. *)
Ltac search_step :=
  rewrite search_loop_unfold;
  match goal with
  | |- context [?l <? ?r] =>
      let b := eval vm_compute in (l <? r) in
      change (l <? r) with b; cbv iota
  end;
  try match goal with
  | |- context [PRIMES_at ?i <? ?rf] =>
      let p := eval vm_compute in (PRIMES_at i) in
      change (PRIMES_at i) with p;
      destruct (Z.ltb_spec p rf); try lia
  end.

(** The binary search finds the first prime of the table that is not
    below [rf] (the last one if all are). *)
Lemma search_loop_spec rf :
  let i := search_loop 16 rf 0 (N_PRIMES - 1) in
  0 ≤ i ≤ 15 ∧
  (rf ≤ LAST_PRIME → rf ≤ PRIMES_at i) ∧
  (0 < i → PRIMES_at (i - 1) < rf).
Proof.
  change (N_PRIMES - 1) with 15. change LAST_PRIME with 15859. cbv zeta.
  do 5 search_step; vm_compute PRIMES_at;
    (split; [by vm_compute|]); (split; lia).
Qed.

(** It leaves through its condition: more fuel changes nothing. *)
Lemma search_loop_exit rf extra :
  search_loop (16 + extra) rf 0 (N_PRIMES - 1) = search_loop 16 rf 0 (N_PRIMES - 1).
Proof.
  change (N_PRIMES - 1) with 15.
  change (16 + extra)%nat with (S (S (S (S (S (11 + extra)))))).
  do 5 search_step; repeat search_step; reflexivity.
Qed.

Lemma PRIMES_at_odd i : 0 ≤ i ≤ 15 → Z.odd (PRIMES_at i) = true.
Proof.
  intros Hi.
  assert (Hc : i ∈ seqZ 0 16) by (apply elem_of_seqZ; lia).
  revert Hc. generalize i. clear.
  apply Forall_forall. by vm_compute; repeat constructor.
Qed.

Lemma PRIMES_at_bounds i : 0 ≤ i ≤ 15 → 11 ≤ PRIMES_at i ≤ 15859.
Proof.
  intros Hi.
  assert (Hc : i ∈ seqZ 0 16) by (apply elem_of_seqZ; lia).
  revert Hc. generalize i. clear.
  apply Forall_forall. vm_compute. repeat constructor; by vm_compute.
Qed.

(** The first loop leaves through its condition for every [size_t]. *)
Lemma divide_loop_exit fuel rf acc :
  0 ≤ rf < 2 ^ Z.of_nat fuel →
  (divide_loop fuel rf acc).1 ≤ LAST_PRIME ∧
  ∀ extra, divide_loop (fuel + extra) rf acc = divide_loop fuel rf acc.
Proof.
  revert rf acc. induction fuel as [|fuel IH]; intros rf acc Hrf.
  - change (2 ^ Z.of_nat 0) with 1 in Hrf. assert (rf = 0) as -> by lia.
    split; [done|]. intros [|extra]; [done|]. reflexivity.
  - rewrite divide_loop_unfold. change (S fuel + ?e)%nat with (S (fuel + e)).
    destruct (Z.ltb_spec LAST_PRIME rf) as [Hlt|Hge].
    + change LAST_PRIME with 15859 in *.
      assert (0 ≤ rf / 15859 < 2 ^ Z.of_nat fuel) as Hq.
      { split; [apply Z.div_pos; lia|].
        apply Z.div_lt_upper_bound; [lia|].
        rewrite Nat2Z.inj_succ, Z.pow_succ_r in Hrf by lia. nia. }
      destruct (IH _ (wrap64 (acc * 15859)) Hq) as [H1 H2].
      split; [done|]. intros extra. rewrite divide_loop_unfold.
      change LAST_PRIME with 15859.
      destruct (Z.ltb_spec 15859 rf); [apply H2|lia].
    + split; [done|]. intros extra. rewrite divide_loop_unfold.
      destruct (Z.ltb_spec LAST_PRIME rf); [lia|done].
Qed.

Lemma divide_loop_odd fuel rf acc :
  Z.odd acc = true → Z.odd (divide_loop fuel rf acc).2 = true.
Proof.
  revert rf acc. induction fuel as [|fuel IH]; intros rf acc Hodd; [done|].
  rewrite divide_loop_unfold. destruct (_ <? _); [|done].
  apply IH. rewrite wrap64_odd, Z.odd_mul, Hodd. reflexivity.
Qed.

(** The picker never gives zero, even when the product wraps around. *)
Lemma get_n_rehashing_buckets_pos n_buckets_min :
  0 < get_n_rehashing_buckets n_buckets_min.
Proof.
  unfold get_n_rehashing_buckets.
  destruct (divide_loop 64 n_buckets_min 1) as [rf acc] eqn:Hloop.
  assert (Z.odd acc = true) as Hacc.
  { change acc with (rf, acc).2. rewrite <- Hloop. by apply divide_loop_odd. }
  destruct (search_loop_spec rf) as (Hi & _). set (i := search_loop _ _ _ _) in *.
  pose proof (wrap64_range (acc * PRIMES_at i)) as Hr.
  assert (Z.odd (wrap64 (acc * PRIMES_at i)) = true) as Hodd.
  { by rewrite wrap64_odd, Z.odd_mul, Hacc, PRIMES_at_odd. }
  destruct (decide (wrap64 (acc * PRIMES_at i) = 0)) as [Hz|]; [|lia].
  by rewrite Hz in Hodd.
Qed.

(** Up to eleven times the last prime the picker gives at least what was
    asked for. *)
Lemma get_n_rehashing_buckets_ge n_buckets_min :
  0 ≤ n_buckets_min ≤ 174449 →
  n_buckets_min ≤ get_n_rehashing_buckets n_buckets_min.
Proof.
  intros Hn. unfold get_n_rehashing_buckets.
  change 64%nat with (S (S 62)). rewrite divide_loop_unfold.
  change LAST_PRIME with 15859.
  destruct (Z.ltb_spec 15859 n_buckets_min) as [Hlt|Hge].
  - rewrite divide_loop_unfold. change LAST_PRIME with 15859.
    assert (0 ≤ n_buckets_min / 15859 ≤ 11) as Hq.
    { split; [apply Z.div_pos; lia|]. apply Z.div_le_upper_bound; lia. }
    destruct (Z.ltb_spec 15859 (n_buckets_min / 15859)); [lia|].
    destruct (search_loop_spec (n_buckets_min / 15859)) as (Hi & _ & Hmin).
    set (i := search_loop _ _ _ _) in *.
    assert (i = 0) as Hi0.
    { destruct (decide (0 < i)) as [Hpos|]; [|lia].
      specialize (Hmin Hpos). pose proof (PRIMES_at_bounds (i - 1)). lia. }
    rewrite Hi0. vm_compute (wrap64 _). lia.
  - destruct (search_loop_spec n_buckets_min) as (Hi & Hle & _).
    set (i := search_loop _ _ _ _) in *.
    change LAST_PRIME with 15859 in Hle.
    pose proof (PRIMES_at_bounds i Hi).
    rewrite Z.mul_1_l, wrap64_small; [lia|]. change size_t_modulus with (2 ^ 64). lia.
Qed.

(** The product that the first loop builds: a power of the last prime,
    within [size_t]. *)
Lemma divide_loop_power fuel rf acc :
  ∃ k : nat, (divide_loop fuel rf (wrap64 acc)).2 = wrap64 (acc * LAST_PRIME ^ Z.of_nat k).
Proof.
  revert rf acc. induction fuel as [|fuel IH]; intros rf acc.
  - exists 0%nat. simpl. by rewrite Z.mul_1_r.
  - rewrite divide_loop_unfold. destruct (_ <? _).
    + destruct (IH (rf / LAST_PRIME) (wrap64 acc * LAST_PRIME)) as [k Hk].
      exists (S k). rewrite Hk. unfold wrap64.
      rewrite Nat2Z.inj_succ, Z.pow_succ_r by lia.
      by rewrite <- Z.mul_assoc, Z.mul_mod_idemp_l by discriminate.
    + exists 0%nat. simpl. by rewrite Z.mul_1_r.
Qed.

(** What the picker returns is, within [size_t], a power of the last
    prime times a prime of the table. *)
Lemma get_n_rehashing_buckets_shape n_buckets_min :
  ∃ (k : nat) (i : Z), 0 ≤ i ≤ 15 ∧
    get_n_rehashing_buckets n_buckets_min =
      wrap64 (LAST_PRIME ^ Z.of_nat k * PRIMES_at i).
Proof.
  unfold get_n_rehashing_buckets.
  destruct (divide_loop_power 64 n_buckets_min 1) as [k Hk].
  change (wrap64 1) with 1 in Hk.
  destruct (divide_loop 64 n_buckets_min 1) as [rf acc]. simpl in Hk. subst acc.
  destruct (search_loop_spec rf) as (Hi & _).
  exists k, (search_loop 16 rf 0 (N_PRIMES - 1)). split; [done|].
  unfold wrap64. rewrite Z.mul_1_l. by rewrite Z.mul_mod_idemp_l by discriminate.
Qed.

(** C1.  [get_n_rehashing_buckets] is documented to return "a number that
    is greater than or equal to n_buckets_min"; asked for 174450 buckets it
    returns 174449 = 11 * 15859, one fewer: the quotient by the last prime
    is truncated before the table is searched. *)
Theorem get_n_rehashing_buckets_below_minimum :
  get_n_rehashing_buckets 174450 = 174449 ∧
  174449 = 11 * 15859 ∧
  ¬ (174450 ≤ get_n_rehashing_buckets 174450).
Proof. vm_compute. split; [done|]. split; [done|]. intros H. by apply H. Qed.

(** ** Chains *)

Section ChainFacts.
Context {K V : Type} `{EqDecision K}.
Implicit Types (c : chain K V) (k key : K) (v : V).

(** A key on a chain splits the chain at its first occurrence. *)
Lemma chain_split_first c key :
  key ∈ c.*1 → ∃ c1 v c2, c = c1 ++ (key, v) :: c2 ∧ key ∉ c1.*1.
Proof.
  induction c as [|[k v] c IH]; intros Hin; [by apply elem_of_nil in Hin|].
  destruct (decide (k = key)) as [->|Hne].
  - exists [], v, c. split; [done|]. apply not_elem_of_nil.
  - apply elem_of_cons in Hin as [Heq|Hin]; [simpl in Heq; congruence|].
    destruct (IH Hin) as (c1 & v' & c2 & -> & Hc1).
    exists ((k, v) :: c1), v', c2. split; [done|].
    rewrite fmap_cons, not_elem_of_cons. split; [simpl; congruence|done].
Qed.

(** The walk reaches the null slot at the tail when the key is absent. *)
Lemma hash_node_apply_recursive_absent {St} c key (h : node_handler K V St) s :
  key ∉ c.*1 →
  hash_node_apply_recursive c key h s = (c ++ (h [] s).1, (h [] s).2).
Proof.
  induction c as [|[k v] c IH]; intros Hnin; simpl.
  - by destruct (h [] s).
  - rewrite fmap_cons, not_elem_of_cons in Hnin. destruct Hnin as [Hne Hnin].
    rewrite decide_False by (simpl in Hne; congruence).
    by rewrite (IH Hnin).
Qed.

(** The walk stops at the first node with the key. *)
Lemma hash_node_apply_recursive_present {St} c1 c2 key v
    (h : node_handler K V St) s :
  key ∉ c1.*1 →
  hash_node_apply_recursive (c1 ++ (key, v) :: c2) key h s =
    (c1 ++ (h ((key, v) :: c2) s).1, (h ((key, v) :: c2) s).2).
Proof.
  induction c1 as [|[k' v'] c1 IH]; intros Hnin; simpl.
  - rewrite decide_True by done. by destruct (h _ s).
  - rewrite fmap_cons, not_elem_of_cons in Hnin. destruct Hnin as [Hne Hnin].
    rewrite decide_False by (simpl in Hne; congruence).
    by rewrite (IH Hnin).
Qed.

(** A handler that leaves the slot alone leaves the chain alone. *)
Lemma hash_node_apply_recursive_read {St} c key (h : node_handler K V St) s :
  (∀ node s', (h node s').1 = node) →
  (hash_node_apply_recursive c key h s).1 = c.
Proof.
  intros Hread. destruct (decide (key ∈ c.*1)) as [Hin|Hnin].
  - destruct (chain_split_first _ _ Hin) as (c1 & v & c2 & -> & Hc1).
    rewrite hash_node_apply_recursive_present by done. simpl. by rewrite Hread.
  - rewrite hash_node_apply_recursive_absent by done. simpl.
    by rewrite Hread, app_nil_r.
Qed.

Lemma chain_lookup_nil key : chain_lookup ([] : chain K V) key = None.
Proof. reflexivity. Qed.

Lemma chain_lookup_cons k v c key :
  chain_lookup ((k, v) :: c) key =
    if decide (k = key) then Some v else chain_lookup c key.
Proof.
  unfold chain_lookup. simpl. destruct (decide (k = key)); [done|].
  by destruct (hash_node_apply_recursive c key lookup_node_handler None).
Qed.

Lemma chain_lookup_None c key : chain_lookup c key = None ↔ key ∉ c.*1.
Proof.
  induction c as [|[k v] c IH].
  - rewrite chain_lookup_nil. split; [intros _; apply not_elem_of_nil|done].
  - rewrite chain_lookup_cons, fmap_cons, not_elem_of_cons. simpl.
    destruct (decide (k = key)) as [->|Hne].
    + split; [done|]. by intros [? _].
    + rewrite IH. split; [intros ?; split; [congruence|done]|by intros [_ ?]].
Qed.

Lemma chain_lookup_Some_elem_of c key v :
  chain_lookup c key = Some v → (key, v) ∈ c.
Proof.
  induction c as [|[k v'] c IH]; [done|].
  rewrite chain_lookup_cons. destruct (decide (k = key)) as [->|Hne].
  - intros [= ->]. apply elem_of_cons. by left.
  - intros Hc. apply elem_of_cons. right. by apply IH.
Qed.

Lemma chain_lookup_Some c key v :
  NoDup c.*1 → chain_lookup c key = Some v ↔ (key, v) ∈ c.
Proof.
  intros Hnd. split; [apply chain_lookup_Some_elem_of|].
  induction c as [|[k v'] c IH]; [by intros ?%elem_of_nil|].
  rewrite fmap_cons in Hnd. apply NoDup_cons in Hnd as [Hk Hnd].
  rewrite chain_lookup_cons. intros [Heq|Hin]%elem_of_cons.
  - injection Heq as <- <-. by rewrite decide_True.
  - rewrite decide_False; [by apply IH|].
    intros ->. apply Hk. simpl. apply list_elem_of_fmap. by exists (key, v).
Qed.

(** [get_with_hash] and [has_with_hash] through [chain_lookup]. *)
Lemma get_node_handler_lookup c key (d : V) :
  hash_node_apply_recursive c key get_node_handler d =
    (c, default d (chain_lookup c key)).
Proof.
  induction c as [|[k v] c IH]; [done|].
  rewrite chain_lookup_cons. simpl. destruct (decide (k = key)); [done|].
  by rewrite IH.
Qed.

Lemma has_node_handler_lookup c key :
  hash_node_apply_recursive c key has_node_handler false =
    (c, bool_decide (is_Some (chain_lookup c key))).
Proof.
  induction c as [|[k v] c IH].
  - by rewrite chain_lookup_nil.
  - rewrite chain_lookup_cons. simpl. destruct (decide (k = key)).
    + by rewrite bool_decide_true by eauto.
    + by rewrite IH.
Qed.

(** The walk of [set_with_hash] on one chain. *)
Lemma set_node_handler_present c1 c2 key old v (r : V → V → V) n :
  key ∉ c1.*1 →
  hash_node_apply_recursive (c1 ++ (key, old) :: c2) key (set_node_handler key v r) n =
    (c1 ++ (key, r old v) :: c2, n).
Proof. intros Hc1. by rewrite hash_node_apply_recursive_present. Qed.

Lemma set_node_handler_absent c key v (r : V → V → V) n :
  key ∉ c.*1 →
  hash_node_apply_recursive c key (set_node_handler key v r) n =
    (c ++ [(key, v)], wrap64 (n + 1)).
Proof. intros Hc. by rewrite hash_node_apply_recursive_absent. Qed.

(** After the walk the key is bound to the reduced value, or to the
    new value if it was not bound; no other key is touched. *)
Lemma set_node_handler_lookup c key v (r : V → V → V) n k :
  chain_lookup (hash_node_apply_recursive c key (set_node_handler key v r) n).1 k =
    if decide (k = key)
    then Some (from_option (λ old, r old v) v (chain_lookup c key))
    else chain_lookup c k.
Proof.
  induction c as [|[k' v'] c IH].
  - simpl. rewrite chain_lookup_cons, chain_lookup_nil.
    destruct (decide (key = k)), (decide (k = key)); congruence.
  - simpl. destruct (decide (k' = key)) as [->|Hne].
    + simpl. rewrite !chain_lookup_cons, (decide_True (P := key = key)) by done.
      destruct (decide (key = k)), (decide (k = key)); simpl; congruence.
    + destruct (hash_node_apply_recursive c key _ n) as [c' n'] eqn:Heq.
      simpl in *. rewrite !chain_lookup_cons, IH.
      rewrite (decide_False (P := k' = key)) by done.
      destruct (decide (k' = k)) as [->|]; [|done].
      by rewrite decide_False.
Qed.

Lemma elem_of_keys_lookup c k : k ∈ c.*1 ↔ chain_lookup c k ≠ None.
Proof.
  pose proof (chain_lookup_None c k) as Hc.
  destruct (decide (k ∈ c.*1)) as [Hin|Hnin].
  - split; [|done]. intros _ Hnone. by apply Hc in Hnone.
  - split; [done|]. intros Hsome. by apply Hc in Hnin.
Qed.

Lemma set_node_handler_keys c key v (r : V → V → V) n k :
  k ∈ (hash_node_apply_recursive c key (set_node_handler key v r) n).1.*1 ↔
  k = key ∨ k ∈ c.*1.
Proof.
  rewrite !elem_of_keys_lookup, set_node_handler_lookup.
  destruct (decide (k = key)) as [->|Hne].
  - split; [by left|done].
  - split; [by right|]. by intros [?|?].
Qed.

Lemma set_node_handler_NoDup c key v (r : V → V → V) n :
  NoDup c.*1 →
  NoDup (hash_node_apply_recursive c key (set_node_handler key v r) n).1.*1.
Proof.
  intros Hnd. destruct (decide (key ∈ c.*1)) as [Hin|Hnin].
  - destruct (chain_split_first _ _ Hin) as (c1 & old & c2 & -> & Hc1).
    rewrite set_node_handler_present by done. simpl.
    by rewrite fmap_app, fmap_cons in Hnd |- *.
  - rewrite set_node_handler_absent by done. simpl.
    rewrite fmap_app. apply NoDup_app. split; [done|]. split; [|apply NoDup_singleton].
    by intros k Hk ->%list_elem_of_singleton.
Qed.
End ChainFacts.

(** ** Bucket arrays *)

Section BucketFacts.
Context {K V : Type} `{EqDecision K}.
Variable hash : K → Z.
Implicit Types (bs rb : list (chain K V)) (c : chain K V) (k key : K) (v : V).

Lemma elem_of_join_keys bs k :
  k ∈ (mjoin bs).*1 ↔ ∃ i c, bs !! i = Some c ∧ k ∈ c.*1.
Proof.
  rewrite list_elem_of_fmap. split.
  - intros ([k' v] & -> & Hin). apply list_elem_of_join in Hin as (c & Hc & Hbs).
    apply list_elem_of_lookup in Hbs as [i Hi]. exists i, c. split; [done|].
    apply list_elem_of_fmap. by exists (k', v).
  - intros (i & c & Hi & Hk). apply list_elem_of_fmap in Hk as (kv & -> & Hkv).
    exists kv. split; [done|]. apply list_elem_of_join. exists c. split; [done|].
    by eapply list_elem_of_lookup_2.
Qed.

Lemma buckets_wf_replicate n :
  0 < n → buckets_wf hash n (replicate (Z.to_nat n) ([] : chain K V)).
Proof.
  intros Hn. split; [done|]. split; [by rewrite length_replicate|].
  intros i c [-> _]%lookup_replicate. split; [constructor|].
  intros k Hk. by apply elem_of_nil in Hk.
Qed.

Lemma join_replicate_nil n : mjoin (replicate n ([] : chain K V)) = [].
Proof. induction n as [|n IH]; [done|]. simpl. by rewrite IH. Qed.

Lemma buckets_wf_bucket_id n bs k :
  buckets_wf hash n bs → (Z.to_nat (hash k mod n) < length bs)%nat.
Proof.
  intros (Hn & Hlen & _). rewrite Hlen.
  pose proof (Z.mod_pos_bound (hash k) n Hn). lia.
Qed.

Lemma buckets_wf_lookup n bs k :
  buckets_wf hash n bs →
  bs !! Z.to_nat (hash k mod n) = Some (bs !!! Z.to_nat (hash k mod n)).
Proof.
  intros Hwf. apply list_lookup_lookup_total_lt. by eapply buckets_wf_bucket_id.
Qed.

(** A key of the map sits in the bucket of its hash. *)
Lemma buckets_wf_elem_of n bs k v :
  buckets_wf hash n bs →
  (k, v) ∈ mjoin bs ↔ (k, v) ∈ bs !!! Z.to_nat (hash k mod n).
Proof.
  intros Hwf. split.
  - intros (c & Hc & Hbs)%list_elem_of_join.
    apply list_elem_of_lookup in Hbs as [i Hi].
    destruct Hwf as (_ & _ & Hall). destruct (Hall i c Hi) as [_ Hidx].
    rewrite (Hidx k).
    + by rewrite (list_lookup_total_correct _ _ _ Hi).
    + apply list_elem_of_fmap. by exists (k, v).
  - intros Hin. apply list_elem_of_join. eexists. split; [exact Hin|].
    eapply list_elem_of_lookup_2. by apply buckets_wf_lookup.
Qed.

Lemma buckets_wf_elem_of_keys n bs k :
  buckets_wf hash n bs →
  k ∈ (mjoin bs).*1 ↔ k ∈ (bs !!! Z.to_nat (hash k mod n)).*1.
Proof.
  intros Hwf. rewrite !list_elem_of_fmap. split.
  - intros ([k' v] & -> & Hin). exists (k', v). split; [done|].
    by apply (buckets_wf_elem_of n).
  - intros ([k' v] & -> & Hin). exists (k', v). split; [done|].
    by apply (buckets_wf_elem_of n).
Qed.

(** No key occurs twice in a well-formed bucket array. *)
Lemma buckets_keys_NoDup (f : K → nat) bs off :
  (∀ i c, bs !! i = Some c → NoDup c.*1 ∧ ∀ k, k ∈ c.*1 → f k = (off + i)%nat) →
  NoDup (mjoin bs).*1.
Proof.
  revert off. induction bs as [|c bs IH]; intros off Hall; [constructor|].
  simpl. rewrite fmap_app. apply NoDup_app. split; [|split].
  - by apply (Hall 0%nat c).
  - intros k Hk (i & c' & Hi & Hk')%elem_of_join_keys.
    destruct (Hall 0%nat c eq_refl) as [_ H0].
    destruct (Hall (S i) c' Hi) as [_ HS].
    specialize (H0 k Hk). specialize (HS k Hk'). lia.
  - apply (IH (S off)). intros i c' Hi.
    destruct (Hall (S i) c' Hi) as [Hnd Hidx]. split; [done|].
    intros k Hk. rewrite (Hidx k Hk). lia.
Qed.

Lemma buckets_wf_NoDup n bs : buckets_wf hash n bs → NoDup (mjoin bs).*1.
Proof.
  intros (_ & _ & Hall).
  apply (buckets_keys_NoDup (λ k, Z.to_nat (hash k mod n)) bs 0). exact Hall.
Qed.

(** Appending to one chain adds one pair to the stored pairs. *)
Lemma join_insert_snoc bs j c x :
  bs !! j = Some c → mjoin (<[j := c ++ [x]]> bs) ≡ₚ x :: mjoin bs.
Proof.
  intros Hj. rewrite insert_take_drop by (by eapply lookup_lt_Some).
  rewrite <- (take_drop_middle bs j c Hj) at 3.
  rewrite !join_app. simpl. rewrite <- app_assoc. simpl.
  by rewrite <- !Permutation_middle.
Qed.

(** Appending a fresh key to the chain of its hash keeps the invariant. *)
Lemma buckets_wf_insert_snoc n rb k v :
  let j := Z.to_nat (hash k mod n) in
  buckets_wf hash n rb → k ∉ (mjoin rb).*1 →
  buckets_wf hash n (<[j := rb !!! j ++ [(k, v)]]> rb).
Proof.
  intros j Hwf Hfresh. pose proof Hwf as (Hn & Hlen & Hall).
  split; [done|]. split; [by rewrite length_insert|].
  intros i c Hi. destruct (decide (i = j)) as [->|Hne].
  - rewrite list_lookup_insert_eq in Hi by (by eapply buckets_wf_bucket_id).
    injection Hi as <-. destruct (Hall j _ (buckets_wf_lookup n rb k Hwf)) as [Hnd Hidx].
    split.
    + rewrite fmap_app. apply NoDup_app. split; [done|]. split; [|apply NoDup_singleton].
      intros k' Hk' ->%list_elem_of_singleton. apply Hfresh.
      by apply (buckets_wf_elem_of_keys n).
    + intros k'. rewrite fmap_app, elem_of_app. intros [Hk'|Hk'].
      * by apply Hidx.
      * by apply list_elem_of_singleton in Hk' as ->.
  - rewrite list_lookup_insert_ne in Hi by done. by apply Hall.
Qed.

(** The outer rehash handler on a node whose key is new to the fresh
    array: the node goes to the tail of the chain of its hash. *)
Lemma rehash_node_handler_fresh n rb k v next :
  let j := Z.to_nat (hash k mod n) in
  buckets_wf hash n rb → k ∉ (mjoin rb).*1 →
  rehash_node_handler hash n ((k, v) :: next) rb =
    ([], <[j := rb !!! j ++ [(k, v)]]> rb).
Proof.
  intros j Hwf Hfresh. unfold rehash_node_handler. fold j.
  rewrite hash_node_apply_recursive_absent; [done|].
  intros Hin. apply Hfresh. by apply (buckets_wf_elem_of_keys n).
Qed.

(** Post-order transplant of one chain. *)
Lemma rehash_chain n c rb :
  buckets_wf hash n rb → NoDup (c.*1 ++ (mjoin rb).*1) →
  ∃ rb', hash_node_all_apply_recursive c (rehash_node_handler hash n) rb = ([], rb') ∧
         buckets_wf hash n rb' ∧ mjoin rb' ≡ₚ c ++ mjoin rb.
Proof.
  revert rb. induction c as [|[k v] c IH]; intros rb Hwf Hnd.
  - exists rb. split; [done|]. by split.
  - simpl in Hnd. apply NoDup_cons in Hnd as [Hk Hnd].
    destruct (IH rb Hwf Hnd) as (rb1 & Heq & Hwf1 & Hperm).
    cbn [hash_node_all_apply_recursive]. rewrite Heq. cbv beta iota.
    assert (k ∉ (mjoin rb1).*1) as Hfresh.
    { by rewrite Hperm, fmap_app. }
    rewrite rehash_node_handler_fresh by done.
    eexists. split; [done|]. split; [by apply buckets_wf_insert_snoc|].
    rewrite join_insert_snoc by (by apply buckets_wf_lookup).
    by rewrite Hperm.
Qed.

(** The loop over the old buckets, from bucket [a] on. *)
Lemma rehash_fold n cnt : ∀ a old rb,
  (a + cnt)%nat = length old →
  buckets_wf hash n rb → NoDup ((mjoin (drop a old)).*1 ++ (mjoin rb).*1) →
  let st := foldl (rehash_step hash n) (old, rb) (seq a cnt) in
  buckets_wf hash n st.2 ∧ mjoin st.2 ≡ₚ mjoin (drop a old) ++ mjoin rb.
Proof.
  induction cnt as [|cnt IH]; intros a old rb Hlen Hwf Hnd.
  - simpl. split; [done|]. by rewrite drop_ge by lia.
  - assert (old !! a = Some (old !!! a)) as Ha
      by (apply list_lookup_lookup_total_lt; lia).
    rewrite (drop_S _ _ _ Ha) in Hnd |- *. simpl in Hnd |- *.
    rewrite fmap_app, <- app_assoc in Hnd.
    destruct (rehash_chain n (old !!! a) rb Hwf) as (rb1 & Heq & Hwf1 & Hperm).
    { apply NoDup_app in Hnd as (H1 & H2 & H3). apply NoDup_app. split; [done|].
      split; [|by apply NoDup_app in H3 as (_ & _ & ?)].
      intros k Hk. specialize (H2 k Hk). by apply not_elem_of_app in H2 as [_ ?]. }
    rewrite Heq.
    destruct (IH (S a) (<[a := []]> old) rb1) as [Hwf2 Hperm2].
    + rewrite length_insert. lia.
    + done.
    + rewrite drop_insert_lt by lia. rewrite Hperm, fmap_app.
      by rewrite Permutation_app_swap_app.
    + split; [done|]. rewrite Hperm2, drop_insert_lt by lia. rewrite Hperm.
      rewrite <- app_assoc. by rewrite Permutation_app_swap_app.
Qed.

(** [rehash_buckets] keeps every stored pair and re-establishes the
    invariant for the new bucket count. *)
Lemma rehash_buckets_spec n_old n bs :
  length bs = Z.to_nat n_old → NoDup (mjoin bs).*1 → 0 < n →
  buckets_wf hash n (rehash_buckets hash n_old n bs) ∧
  mjoin (rehash_buckets hash n_old n bs) ≡ₚ mjoin bs.
Proof.
  intros Hlen Hnd Hn. unfold rehash_buckets.
  destruct (rehash_fold n (Z.to_nat n_old) 0 bs (replicate (Z.to_nat n) []))
    as [Hwf Hperm].
  - by rewrite Hlen.
  - by apply buckets_wf_replicate.
  - by rewrite join_replicate_nil, app_nil_r.
  - split; [done|]. by rewrite Hperm, join_replicate_nil, app_nil_r.
Qed.

(** Under the invariant, the chain of a key's hash holds its binding. *)
Lemma buckets_wf_lookup_Some n bs k v :
  buckets_wf hash n bs →
  chain_lookup (bs !!! Z.to_nat (hash k mod n)) k = Some v ↔ (k, v) ∈ mjoin bs.
Proof.
  intros Hwf. rewrite (buckets_wf_elem_of n) by done.
  apply chain_lookup_Some.
  pose proof (buckets_wf_lookup n bs k Hwf) as Hl.
  destruct Hwf as (_ & _ & Hall). by destruct (Hall _ _ Hl).
Qed.

Lemma buckets_wf_lookup_None n bs k :
  buckets_wf hash n bs →
  chain_lookup (bs !!! Z.to_nat (hash k mod n)) k = None ↔ k ∉ (mjoin bs).*1.
Proof.
  intros Hwf. by rewrite (buckets_wf_elem_of_keys n), chain_lookup_None.
Qed.

(** Two well-formed arrays with the same pairs answer alike. *)
Lemma buckets_lookup_perm n bs n' bs' k :
  buckets_wf hash n bs → buckets_wf hash n' bs' → mjoin bs' ≡ₚ mjoin bs →
  chain_lookup (bs' !!! Z.to_nat (hash k mod n')) k =
    chain_lookup (bs !!! Z.to_nat (hash k mod n)) k.
Proof.
  intros Hwf Hwf' Hperm. apply option_eq. intros v.
  by rewrite !buckets_wf_lookup_Some, Hperm.
Qed.

(** The walk of [set] in the bucket of the key's hash keeps the invariant. *)
Lemma buckets_wf_set n bs k v (r : V → V → V) s :
  let j := Z.to_nat (hash k mod n) in
  buckets_wf hash n bs →
  buckets_wf hash n
    (<[j := (hash_node_apply_recursive (bs !!! j) k (set_node_handler k v r) s).1]> bs).
Proof.
  intros j Hwf. pose proof Hwf as (Hn & Hlen & Hall).
  split; [done|]. split; [by rewrite length_insert|].
  intros i c Hi. destruct (decide (i = j)) as [->|Hne].
  - rewrite list_lookup_insert_eq in Hi by (by eapply buckets_wf_bucket_id).
    injection Hi as <-.
    destruct (Hall j _ (buckets_wf_lookup n bs k Hwf)) as [Hnd Hidx].
    split; [by apply set_node_handler_NoDup|].
    intros k' [->|Hk']%set_node_handler_keys; [done|by apply Hidx].
  - rewrite list_lookup_insert_ne in Hi by done. by apply Hall.
Qed.

(** What the array answers after the walk of [set]. *)
Lemma buckets_set_lookup n bs k v (r : V → V → V) s k' :
  let j := Z.to_nat (hash k mod n) in
  buckets_wf hash n bs →
  chain_lookup
    (<[j := (hash_node_apply_recursive (bs !!! j) k (set_node_handler k v r) s).1]> bs
       !!! Z.to_nat (hash k' mod n)) k' =
    if decide (k' = k)
    then Some (from_option (λ old, r old v) v (chain_lookup (bs !!! j) k))
    else chain_lookup (bs !!! Z.to_nat (hash k' mod n)) k'.
Proof.
  intros j Hwf.
  destruct (decide (Z.to_nat (hash k' mod n) = j)) as [Heq|Hne].
  - rewrite Heq, list_lookup_total_insert_eq by (by eapply buckets_wf_bucket_id).
    apply set_node_handler_lookup.
  - rewrite list_lookup_total_insert_ne by done.
    rewrite decide_False; [done|]. intros ->. by apply Hne.
Qed.

(** The test is sound. *)
Lemma buckets_wf_b_true n bs : buckets_wf_b hash n bs = true → buckets_wf hash n bs.
Proof.
  unfold buckets_wf_b. rewrite !andb_true_iff, !bool_decide_eq_true.
  intros [[Hn Hlen] Hall]. split; [done|]. split; [done|].
  intros i c Hi. apply Is_true_true, forallb_True in Hall.
  assert (imap pair bs !! i = Some (i, c)) as Hic
    by (by rewrite list_lookup_imap, Hi).
  pose proof (Forall_lookup_1 _ _ _ _ Hall Hic) as Hc. simpl in Hc.
  apply Is_true_true in Hc. rewrite andb_true_iff, bool_decide_eq_true in Hc.
  destruct Hc as [Hnd Hidx]. split; [done|].
  apply Is_true_true, forallb_True in Hidx. intros k Hk.
  rewrite Forall_forall in Hidx. specialize (Hidx k Hk).
  by apply bool_decide_unpack in Hidx.
Qed.
End BucketFacts.

(** ** [ConcurrentMap] *)

Section ConcurrentMapFacts.
Context {K V : Type} `{EqDecision K}.
Variable hasher : K → Z.
Variable n_procs : Z.
Implicit Types (m : ConcurrentMap K V) (k key : K) (v : V).

Lemma with_buckets_id m : with_buckets (buckets m) m = m.
Proof. by destruct m. Qed.

Lemma with_n_keys_id m : with_n_keys (n_keys m) m = m.
Proof. by destruct m. Qed.

Lemma wf_bucket_id m h :
  wf hasher n_procs m → (Z.to_nat (h mod n_buckets m) < length (buckets m))%nat.
Proof.
  intros (Hn & Hlen & _). rewrite Hlen.
  pose proof (Z.mod_pos_bound h (n_buckets m) Hn). lia.
Qed.

Lemma ConcurrentMap_new_wf n_threads :
  wf hasher n_procs (ConcurrentMap_new n_threads : ConcurrentMap K V).
Proof. by apply buckets_wf_replicate. Qed.

Lemma set_max_load_factor_wf l m : wf hasher n_procs m → wf hasher n_procs (set_max_load_factor l m).
Proof. done. Qed.

(** [rehash] keeps the stored pairs and the invariant. *)
Lemma rehash_wf_entries n m :
  wf hasher n_procs m →
  wf hasher n_procs (rehash hasher n_procs n m) ∧
  entries (rehash hasher n_procs n m) ≡ₚ entries m ∧
  n_keys (rehash hasher n_procs n m) = n_keys m.
Proof.
  intros Hwf. unfold rehash. destruct (Z.geb_spec (n_buckets m) n) as [Hge|Hlt]; [done|].
  pose proof Hwf as (Hn & Hlen & _).
  destruct (rehash_buckets_spec (get_hash_value hasher n_procs) (n_buckets m) n (buckets m))
    as [Hwf' Hperm]; [done|by eapply buckets_wf_NoDup|lia|].
  by split; [|split].
Qed.

Lemma reserve_wf_entries n m :
  wf hasher n_procs m →
  wf hasher n_procs (reserve hasher n_procs n m) ∧
  entries (reserve hasher n_procs n m) ≡ₚ entries m ∧
  n_keys (reserve hasher n_procs n m) = n_keys m.
Proof.
  intros Hwf. unfold reserve. destruct (_ >=? _); [done|].
  by apply rehash_wf_entries.
Qed.

Lemma rehash0_wf_entries m :
  wf hasher n_procs m →
  wf hasher n_procs (rehash0 hasher n_procs m) ∧
  entries (rehash0 hasher n_procs m) ≡ₚ entries m ∧
  n_keys (rehash0 hasher n_procs m) = n_keys m.
Proof. intros Hwf. by apply reserve_wf_entries. Qed.

Lemma rehash0_n_keys m : n_keys (rehash0 hasher n_procs m) = n_keys m.
Proof.
  unfold rehash0, reserve, rehash.
  destruct (_ >=? _); [done|]. by destruct (_ >=? _).
Qed.

Lemma set_with_hash_n_keys key h v (r : V → V → V) m :
  n_keys (set_with_hash hasher n_procs key h v r m) = n_keys (set_apply key h v r m).
Proof.
  unfold set_with_hash. destruct (set_calls_rehash _); [|done].
  apply rehash0_n_keys.
Qed.

Lemma set_apply_wf key v (r : V → V → V) m :
  wf hasher n_procs m → wf hasher n_procs (set_apply key (get_hash_value hasher n_procs key) v r m).
Proof.
  intros Hwf. unfold set_apply, hash_node_apply.
  pose proof (buckets_wf_set (get_hash_value hasher n_procs) (n_buckets m) (buckets m)
                key v r (n_keys m) Hwf) as Hset.
  by destruct (hash_node_apply_recursive _ _ _ _).
Qed.

Lemma set_with_hash_wf key v (r : V → V → V) m :
  wf hasher n_procs m →
  wf hasher n_procs (set_with_hash hasher n_procs key (get_hash_value hasher n_procs key) v r m).
Proof.
  intros Hwf. unfold set_with_hash. pose proof (set_apply_wf key v r m Hwf).
  destruct (set_calls_rehash _); [|done]. by apply rehash0_wf_entries.
Qed.

Lemma hash_node_apply_read {St} key h (handler : node_handler K V St) m s :
  wf hasher n_procs m →
  (∀ node s', (handler node s').1 = node) →
  (hash_node_apply key h handler m s).1 = m.
Proof.
  intros Hwf Hread. unfold hash_node_apply.
  pose proof (hash_node_apply_recursive_read
    (buckets m !!! Z.to_nat (h mod n_buckets m)) key handler s Hread) as Hc.
  destruct (hash_node_apply_recursive _ _ _ _) as [c s']. simpl in *. subst c.
  rewrite list_insert_id; [apply with_buckets_id|].
  apply list_lookup_lookup_total_lt. by apply wf_bucket_id.
Qed.

Lemma get_with_hash_lookup key h d m :
  (get_with_hash key h d m).1 =
    default d (chain_lookup (buckets m !!! Z.to_nat (h mod n_buckets m)) key).
Proof.
  unfold get_with_hash, hash_node_apply. by rewrite get_node_handler_lookup.
Qed.

Lemma has_with_hash_lookup key h m :
  (has_with_hash key h m).1 =
    bool_decide (is_Some (chain_lookup (buckets m !!! Z.to_nat (h mod n_buckets m)) key)).
Proof.
  unfold has_with_hash, hash_node_apply. by rewrite has_node_handler_lookup.
Qed.

Lemma unset_node_handler_chain (c : chain K V) key n :
  ∃ c1 c2, (hash_node_apply_recursive c key unset_node_handler n).1 = c1 ++ c2 ∧
           ∃ rest, c = c1 ++ rest ++ c2.
Proof.
  destruct (decide (key ∈ c.*1)) as [Hin|Hnin].
  - destruct (chain_split_first _ _ Hin) as (c1 & v & c2 & -> & Hc1).
    rewrite hash_node_apply_recursive_present by done.
    exists c1, c2. split; [done|]. by exists [(key, v)].
  - rewrite hash_node_apply_recursive_absent by done.
    exists c, []. split; [done|]. exists []. by rewrite !app_nil_r.
Qed.

(** [unset_with_hash], [clear] and [clear_and_shrink] keep the invariant. *)
Lemma unset_with_hash_wf key h m : wf hasher n_procs m → wf hasher n_procs (unset_with_hash key h m).
Proof.
  intros Hwf. pose proof Hwf as (Hn & Hlen & Hall).
  unfold unset_with_hash, hash_node_apply.
  set (j := Z.to_nat (h mod n_buckets m)).
  destruct (unset_node_handler_chain (buckets m !!! j) key (n_keys m))
    as (c1 & c2 & Heq & rest & Hc).
  destruct (hash_node_apply_recursive _ _ _ _) as [c' n']. simpl in Heq. subst c'.
  unfold wf. simpl. split; [done|]. split; [by rewrite length_insert|].
  intros i c Hi. destruct (decide (i = j)) as [->|Hne].
  - rewrite list_lookup_insert_eq in Hi by (by apply wf_bucket_id).
    injection Hi as <-.
    destruct (Hall j (buckets m !!! j)) as [Hnd Hidx].
    { apply list_lookup_lookup_total_lt. by apply wf_bucket_id. }
    rewrite Hc in Hnd, Hidx. rewrite !fmap_app in Hnd, Hidx. split.
    + rewrite fmap_app. apply NoDup_app in Hnd as (H1 & H2 & H3).
      apply NoDup_app in H3 as (_ & _ & H3). apply NoDup_app. split; [done|].
      split; [|done]. intros k Hk Hk2. apply (H2 k Hk). apply elem_of_app. by right.
    + intros k. rewrite fmap_app, elem_of_app. intros [Hk|Hk]; apply Hidx.
      * apply elem_of_app. by left.
      * apply elem_of_app. right. apply elem_of_app. by right.
  - rewrite list_lookup_insert_ne in Hi by done. by apply Hall.
Qed.

(** C9.  [get_with_hash] leaves the map as it is; called with the hash
    of the key it returns the value stored with the key when the key is
    in the map, and the default value when it is not. *)
Theorem get_with_hash_spec m key h d :
  wf hasher n_procs m →
  (get_with_hash key h d m).2 = m ∧
  (h = get_hash_value hasher n_procs key →
     (∀ v, (key, v) ∈ entries m → (get_with_hash key h d m).1 = v) ∧
     (key ∉ (entries m).*1 → (get_with_hash key h d m).1 = d)).
Proof.
  intros Hwf. split.
  - pose proof (hash_node_apply_read key h get_node_handler m d Hwf) as Hread.
    unfold get_with_hash. destruct (hash_node_apply _ _ _ _ _) as [m' x].
    apply Hread. by intros [|[k' v'] rest] s'.
  - intros ->. rewrite get_with_hash_lookup. split.
    + intros v Hin. apply (buckets_wf_lookup_Some _ _ _ _ _ Hwf) in Hin.
      by rewrite Hin.
    + intros Hnin. apply (buckets_wf_lookup_None _ _ _ _ Hwf) in Hnin.
      by rewrite Hnin.
Qed.

(** C10.  [unset_with_hash] on a key that is not in the map changes
    nothing, whatever hash it is called with. *)
Theorem unset_with_hash_absent m key h :
  wf hasher n_procs m → key ∉ (entries m).*1 → unset_with_hash key h m = m.
Proof.
  intros Hwf Hnin. unfold unset_with_hash, hash_node_apply.
  set (j := Z.to_nat (h mod n_buckets m)).
  assert (buckets m !! j = Some (buckets m !!! j)) as Hj.
  { apply list_lookup_lookup_total_lt. by apply wf_bucket_id. }
  rewrite hash_node_apply_recursive_absent.
  - simpl. rewrite app_nil_r, list_insert_id by done.
    by rewrite with_buckets_id, with_n_keys_id.
  - intros Hin. apply Hnin, elem_of_join_keys. eauto.
Qed.

Lemma reset_buckets_replicate n (bs : list (chain K V)) :
  length bs = Z.to_nat n → reset_buckets n bs = replicate (Z.to_nat n) [].
Proof.
  unfold reset_buckets. intros Hlen.
  assert (∀ cnt, (cnt ≤ length bs)%nat →
    foldl (λ bs i, <[i := []]> bs) bs (seq 0 cnt) = replicate cnt [] ++ drop cnt bs)
    as Hgen.
  { induction cnt as [|cnt IH]; intros Hcnt; [done|].
    rewrite seq_S, foldl_app, IH by lia. simpl.
    rewrite insert_app_r_alt by (rewrite length_replicate; lia).
    rewrite length_replicate, Nat.sub_diag.
    destruct (drop cnt bs) as [|c rest] eqn:Hdrop.
    { apply (f_equal length) in Hdrop. rewrite length_drop in Hdrop. simpl in Hdrop. lia. }
    assert (drop (S cnt) bs = rest) as ->.
    { by rewrite <- (Nat.add_1_r cnt), <- drop_drop, Hdrop. }
    change ([] :: replicate cnt [] ++ rest) with (replicate (S cnt) [] ++ rest).
    by rewrite replicate_S_end, <- app_assoc. }
  rewrite Hgen by lia. rewrite drop_ge by lia. by rewrite app_nil_r.
Qed.

Lemma chain_lookup_replicate_nil n j key :
  chain_lookup (replicate n ([] : chain K V) !!! j) key = None.
Proof.
  destruct (decide (j < n)%nat) as [Hlt|Hge].
  - by rewrite lookup_total_replicate_2.
  - rewrite list_lookup_total_alt, (proj1 (lookup_replicate_None n [] j)) by lia.
    done.
Qed.


Lemma clear_and_shrink_buckets m :
  wf hasher n_procs m → buckets (clear_and_shrink m) = replicate 11 [].
Proof.
  intros (Hn & Hlen & _).
  unfold clear_and_shrink. simpl. rewrite reset_buckets_replicate by done.
  unfold resize. rewrite take_replicate, length_replicate, <- replicate_add.
  change (Z.to_nat N_INITIAL_BUCKETS) with 11%nat.
  by replace (11 `min` Z.to_nat (n_buckets m) + (11 - Z.to_nat (n_buckets m)))%nat
    with 11%nat by lia.
Qed.


(** C8.  After [clear] the key count is zero, no pair is stored and no
    key can be retrieved; after [clear_and_shrink] the same holds and
    the bucket array has been reset to the 11 buckets of the smallest
    prime of the table. *)
Theorem clear_spec m :
  wf hasher n_procs m →
  (n_keys (clear m) = 0 ∧ entries (clear m) = [] ∧
   n_buckets (clear m) = n_buckets m ∧
   ∀ key h d, (get_with_hash key h d (clear m)).1 = d ∧
              (has_with_hash key h (clear m)).1 = false) ∧
  (n_keys (clear_and_shrink m) = 0 ∧ entries (clear_and_shrink m) = [] ∧
   n_buckets (clear_and_shrink m) = 11 ∧
   buckets (clear_and_shrink m) = replicate 11 [] ∧
   ∀ key h d, (get_with_hash key h d (clear_and_shrink m)).1 = d ∧
              (has_with_hash key h (clear_and_shrink m)).1 = false).
Proof.
  intros Hwf. pose proof (clear_and_shrink_buckets m Hwf) as Hshrink.
  destruct Hwf as (Hn & Hlen & _).
  split; [|split; [done|split; [|split; [done|split; [done|]]]]].
  - split; [done|]. unfold entries, clear. simpl.
    rewrite reset_buckets_replicate by done.
    split; [apply join_replicate_nil|]. split; [done|]. intros key h d.
    rewrite get_with_hash_lookup, has_with_hash_lookup. cbn [buckets n_buckets].
    by rewrite chain_lookup_replicate_nil.
  - unfold entries. rewrite Hshrink. apply (join_replicate_nil 11).
  - intros key h d. rewrite get_with_hash_lookup, has_with_hash_lookup, Hshrink.
    by rewrite chain_lookup_replicate_nil.
Qed.

(** C6.  [rehash] keeps the stored pairs: the pairs after the rehash are
    a permutation of the pairs before, so the key set and the value of
    every key are the same, and [get_with_hash] answers as before. *)
Theorem rehash_preserves_entries m n :
  wf hasher n_procs m →
  entries (rehash hasher n_procs n m) ≡ₚ entries m ∧
  n_keys (rehash hasher n_procs n m) = n_keys m ∧
  wf hasher n_procs (rehash hasher n_procs n m) ∧
  ∀ key d,
    (get_with_hash key (get_hash_value hasher n_procs key) d (rehash hasher n_procs n m)).1 =
    (get_with_hash key (get_hash_value hasher n_procs key) d m).1.
Proof.
  intros Hwf. destruct (rehash_wf_entries n m Hwf) as (Hwf' & Hperm & Hkeys).
  split; [done|]. split; [done|]. split; [done|]. intros key d.
  rewrite !get_with_hash_lookup. f_equal.
  by apply (buckets_lookup_perm (get_hash_value hasher n_procs)).
Qed.

(** C3.  The walk of [set_with_hash] reduces the value of the first node
    with the key in place, the stored value first and the new value
    second, and leaves [n_keys] alone; without such a node it appends
    the node [(key, value)] at the tail of the chain and adds one to
    [n_keys].  The rehash that may follow changes neither [n_keys] nor
    the stored pairs. *)
Theorem set_with_hash_spec m key h v (r : V → V → V) :
  let j := Z.to_nat (h mod n_buckets m) in
  let node := buckets m !!! j in
  let m1 := set_apply key h v r m in
  let m2 := set_with_hash hasher n_procs key h v r m in
  (∀ c1 old c2, node = c1 ++ (key, old) :: c2 → key ∉ c1.*1 →
     buckets m1 = <[j := c1 ++ (key, r old v) :: c2]> (buckets m) ∧
     n_keys m1 = n_keys m ∧ n_keys m2 = n_keys m) ∧
  (key ∉ node.*1 → 0 ≤ n_keys m < size_t_modulus - 1 →
     buckets m1 = <[j := node ++ [(key, v)]]> (buckets m) ∧
     n_keys m1 = n_keys m + 1 ∧ n_keys m2 = n_keys m + 1) ∧
  (wf hasher n_procs m → h = get_hash_value hasher n_procs key →
     wf hasher n_procs m2 ∧ entries m2 ≡ₚ entries m1).
Proof.
  intros j node m1 m2. subst m2. rewrite set_with_hash_n_keys. fold m1.
  split; [|split].
  - intros c1 old c2 Hnode Hc1. subst m1. unfold set_apply, hash_node_apply.
    fold j node. rewrite Hnode, set_node_handler_present by done. done.
  - intros Hnin Hrange. subst m1. unfold set_apply, hash_node_apply.
    fold j node. rewrite set_node_handler_absent by done. simpl.
    split; [done|]. by rewrite wrap64_small by lia.
  - intros Hwf ->. pose proof (set_apply_wf key v r m Hwf) as Hwf1. fold m1 in Hwf1.
    unfold set_with_hash. fold m1. destruct (set_calls_rehash m1); [|done].
    by destruct (rehash0_wf_entries m1 Hwf1) as (? & ? & _).
Qed.
End ConcurrentMapFacts.

(** Every map filled through [set] from the constructor is well formed. *)
Lemma sample_map_wf l keys : wf id 1 (sample_map l keys).
Proof.
  unfold sample_map.
  assert (∀ m : ConcurrentMap Z Z, wf id 1 m →
            wf id 1 (foldl (λ m k, set id 1 k (10 * k) Z.add m) m keys)) as Hgen.
  { induction keys as [|k keys IH]; intros m Hm; [done|].
    simpl. apply IH. by apply set_with_hash_wf. }
  apply Hgen, set_max_load_factor_wf, ConcurrentMap_new_wf.
Qed.

Lemma get_with_hash_spec_witness :
  wf id 1 sample_chained ∧
  (get_with_hash 14 14 0 sample_chained).2 = sample_chained ∧
  14 = get_hash_value id 1 14 ∧
  (14, 140) ∈ entries sample_chained ∧
  (get_with_hash 14 14 0 sample_chained).1 = 140 ∧
  36 = get_hash_value id 1 36 ∧
  (36 ∉ (entries sample_chained).*1) ∧
  (get_with_hash 36 36 0 sample_chained).1 = 0.
Proof.
  assert (wf id 1 sample_chained) as Hwf
    by (apply buckets_wf_b_true; vm_compute; reflexivity).
  assert ((14, 140) ∈ entries sample_chained) as Hin.
  { vm_compute. apply elem_of_cons. right. apply elem_of_cons. by left. }
  assert (36 ∉ (entries sample_chained).*1) as Hnin.
  { vm_compute. intros H. repeat (apply elem_of_cons in H as [H|H]; [discriminate|]).
    by apply elem_of_nil in H. }
  destruct (get_with_hash_spec id 1 sample_chained 14 14 0 Hwf) as [Hsame Hpresent].
  destruct (get_with_hash_spec id 1 sample_chained 36 36 0 Hwf) as [_ Habsent].
  split; [exact Hwf|]. split; [exact Hsame|]. split; [reflexivity|].
  split; [exact Hin|]. split; [exact (proj1 (Hpresent eq_refl) 140 Hin)|].
  split; [reflexivity|]. split; [exact Hnin|]. exact (proj2 (Habsent eq_refl) Hnin).
Defined.

Lemma unset_with_hash_absent_witness :
  wf id 1 sample_chained ∧ (36 ∉ (entries sample_chained).*1) ∧
  unset_with_hash 36 36 sample_chained = sample_chained.
Proof.
  assert (wf id 1 sample_chained) as Hwf
    by (apply buckets_wf_b_true; vm_compute; reflexivity).
  assert (36 ∉ (entries sample_chained).*1) as Hnin.
  { vm_compute. intros H. repeat (apply elem_of_cons in H as [H|H]; [discriminate|]).
    by apply elem_of_nil in H. }
  split; [exact Hwf|]. split; [exact Hnin|].
  exact (unset_with_hash_absent id 1 sample_chained 36 36 Hwf Hnin).
Defined.

Lemma clear_spec_witness :
  wf id 1 (sample_map 1 (seqZ 0 12)) ∧
  n_keys (sample_map 1 (seqZ 0 12)) = 12 ∧
  n_buckets (sample_map 1 (seqZ 0 12)) = 17 ∧
  n_keys (clear (sample_map 1 (seqZ 0 12))) = 0 ∧
  entries (clear (sample_map 1 (seqZ 0 12))) = [] ∧
  n_buckets (clear_and_shrink (sample_map 1 (seqZ 0 12))) = 11.
Proof.
  assert (wf id 1 (sample_map 1 (seqZ 0 12))) as Hwf
    by (apply buckets_wf_b_true; vm_compute; reflexivity).
  split; [exact Hwf|]. split; [vm_compute; reflexivity|].
  split; [vm_compute; reflexivity|].
  pose proof (clear_spec id 1 (sample_map 1 (seqZ 0 12)) Hwf) as Hclear.
  split; [exact (proj1 (proj1 Hclear))|].
  split; [exact (proj1 (proj2 (proj1 Hclear)))|].
  exact (proj1 (proj2 (proj2 (proj2 Hclear)))).
Defined.

Lemma rehash_preserves_entries_witness :
  wf id 1 sample_chained ∧
  entries (rehash id 1 17 sample_chained) ≡ₚ entries sample_chained ∧
  buckets (rehash id 1 17 sample_chained) ≠ buckets sample_chained ∧
  (get_with_hash 25 (get_hash_value id 1 25) 0 (rehash id 1 17 sample_chained)).1 =
    (get_with_hash 25 (get_hash_value id 1 25) 0 sample_chained).1.
Proof.
  assert (wf id 1 sample_chained) as Hwf
    by (apply buckets_wf_b_true; vm_compute; reflexivity).
  pose proof (rehash_preserves_entries id 1 sample_chained 17 Hwf) as Hrehash.
  split; [exact Hwf|]. split; [exact (proj1 Hrehash)|].
  split; [vm_compute; discriminate|].
  exact (proj2 (proj2 (proj2 Hrehash)) 25 0).
Defined.

Lemma set_with_hash_spec_witness :
  (buckets sample_chained !!! 3%nat = [(3, 30)] ++ (14, 140) :: [(25, 250)] ∧
   (14 ∉ [(3, 30)].*1) ∧
   buckets (set_apply 14 14 7 Z.add sample_chained) =
     <[3%nat := [(3, 30); (14, 140 + 7); (25, 250)]]> (buckets sample_chained) ∧
   n_keys (set_with_hash id 1 14 14 7 Z.add sample_chained) = n_keys sample_chained) ∧
  ((36 ∉ (buckets sample_chained !!! 3%nat).*1) ∧
   0 ≤ n_keys sample_chained < size_t_modulus - 1 ∧
   buckets (set_apply 36 36 7 Z.add sample_chained) =
     <[3%nat := [(3, 30); (14, 140); (25, 250)] ++ [(36, 7)]]> (buckets sample_chained) ∧
   n_keys (set_with_hash id 1 36 36 7 Z.add sample_chained) = n_keys sample_chained + 1) ∧
  (wf id 1 sample_chained ∧ 36 = get_hash_value id 1 36 ∧
   wf id 1 (set_with_hash id 1 36 36 7 Z.add sample_chained) ∧
   entries (set_with_hash id 1 36 36 7 Z.add sample_chained) ≡ₚ
     entries (set_apply 36 36 7 Z.add sample_chained)).
Proof.
  assert (wf id 1 sample_chained) as Hwf0
    by (apply buckets_wf_b_true; vm_compute; reflexivity).
  assert (14 ∉ [(3, 30)].*1) as H14.
  { vm_compute. intros H. apply elem_of_cons in H as [H|H]; [discriminate|].
    by apply elem_of_nil in H. }
  assert (36 ∉ (buckets sample_chained !!! 3%nat).*1) as H36.
  { vm_compute. intros H. repeat (apply elem_of_cons in H as [H|H]; [discriminate|]).
    by apply elem_of_nil in H. }
  assert (0 ≤ n_keys sample_chained < size_t_modulus - 1) as Hrange
    by (vm_compute; split; [discriminate|reflexivity]).
  pose proof (set_with_hash_spec id 1 sample_chained 14 14 7 Z.add) as Hpresent.
  pose proof (set_with_hash_spec id 1 sample_chained 36 36 7 Z.add) as Habsent.
  cbv zeta in Hpresent, Habsent.
  destruct Hpresent as (Hpresent & _ & _). destruct Habsent as (_ & Habsent & Hwf).
  split; [|split].
  - split; [reflexivity|]. split; [exact H14|].
    destruct (Hpresent [(3, 30)] 140 [(25, 250)] eq_refl H14) as (Hb & _ & Hn).
    split; [exact Hb|exact Hn].
  - split; [exact H36|]. split; [exact Hrange|].
    destruct (Habsent H36 Hrange) as (Hb & _ & Hn). split; [exact Hb|exact Hn].
  - split; [exact Hwf0|]. split; [reflexivity|]. exact (Hwf Hwf0 eq_refl).
Defined.

(** ** The load factor after [set] *)

Section LoadFactor.
Context {K V : Type} `{EqDecision K}.
Variable hasher : K → Z.
Variable n_procs : Z.
Implicit Types (m : ConcurrentMap K V) (key : K) (v : V).


Lemma set_apply_n_buckets key h v (r : V → V → V) m :
  n_buckets (set_apply key h v r m) = n_buckets m ∧
  max_load_factor (set_apply key h v r m) = max_load_factor m.
Proof.
  unfold set_apply, hash_node_apply. by destruct (hash_node_apply_recursive _ _ _ _).
Qed.


End LoadFactor.




(** ** Progress ticks of [mapreduce] *)


















(** ** Facts about [BareMap] *)

Section BareMapFacts.
Context {K V : Type} `{EqDecision K}.
Variable hasher : K → Z.
Implicit Types (m : BareMap.BareMap K V) (k key : K) (v : V).

Lemma bare_empty_wf : bare_wf hasher (BareMap.empty : BareMap.BareMap K V).
Proof. by apply buckets_wf_replicate. Qed.

Lemma bare_rehash_wf n m :
  bare_wf hasher m → 0 < n →
  bare_wf hasher (BareMap.rehash hasher n m) ∧
  mjoin (BareMap.buckets (BareMap.rehash hasher n m)) ≡ₚ mjoin (BareMap.buckets m).
Proof.
  intros Hwf Hn. pose proof Hwf as (_ & Hlen & _).
  apply rehash_buckets_spec; [done| |done]. by eapply buckets_wf_NoDup.
Qed.

(** [set] with the hash of the key keeps a bare map well formed and binds
    the key to the reduced value; the other keys keep their values. *)
Lemma bare_set_spec key v (r : V → V → V) m :
  bare_wf hasher m →
  bare_wf hasher (BareMap.set hasher key (hasher key) v r m) ∧
  ∀ k, BareMap.lookup k (hasher k) (BareMap.set hasher key (hasher key) v r m) =
       if decide (k = key)
       then reduce_into r (BareMap.lookup key (hasher key) m) v
       else BareMap.lookup k (hasher k) m.
Proof.
  intros Hwf. unfold BareMap.set, BareMap.lookup, reduce_into.
  pose proof (buckets_wf_set hasher (BareMap.n_buckets m) (BareMap.buckets m)
                key v r (BareMap.n_keys m) Hwf) as Hwf1.
  pose proof (λ k, buckets_set_lookup hasher (BareMap.n_buckets m)
                (BareMap.buckets m) key v r (BareMap.n_keys m) k Hwf) as Hlook.
  cbv zeta in Hwf1, Hlook.
  destruct (hash_node_apply_recursive _ _ _ _) as [node' n]. simpl in Hwf1, Hlook.
  destruct (negb _); [|by split].
  set (m' := {| BareMap.n_keys := n; BareMap.buckets := _ |}).
  destruct (bare_rehash_wf
              (get_n_rehashing_buckets
                 (Qfloor (inject_Z n / BareMap.max_load_factor m))) m')
    as [Hwf2 Hperm]; [done|apply get_n_rehashing_buckets_pos|].
  split; [done|]. intros k. rewrite <- Hlook.
  by apply (buckets_lookup_perm hasher).
Qed.

End BareMapFacts.

(** ** Facts about [BareConcurrentMap] *)

Section BareConcurrentMapFacts.
Context {K V : Type} `{EqDecision K}.
Variable H : K → Z.
Import BareConcurrentMap.
Implicit Types (m : BareConcurrentMap K V) (k key : K) (v : V).

Lemma with_locks_id m : with_locks (segment_locks m) m = m.
Proof. by destruct m. Qed.

Lemma async_set_free m thread_id key hash_value v (r : V → V → V) :
  let segment_id := Z.to_nat (hash_value mod n_segments m) in
  segment_locks m !! segment_id = Some None →
  async_set H thread_id key hash_value v r m =
    Some (tt, with_segments
                (<[segment_id :=
                     BareMap.set (AsyncHasher H (n_segments m))
                       key (hash_value / n_segments m) v r
                       (segments m !!! segment_id)]> (segments m)) m).
Proof.
  intros segment_id Hfree. unfold async_set. fold segment_id.
  unfold op_bind, omp_test_lock, segment_set, omp_unset_lock.
  rewrite Hfree. simpl. f_equal. f_equal.
  unfold with_segments, with_locks. simpl.
  rewrite list_insert_insert_eq, list_insert_id by done. by destruct m.
Qed.

Lemma async_set_held m thread_id key hash_value v (r : V → V → V) :
  let segment_id := Z.to_nat (hash_value mod n_segments m) in
  segment_locks m !! segment_id ≠ Some None →
  async_set H thread_id key hash_value v r m =
    Some (tt, with_thread_caches
                (<[Z.to_nat thread_id :=
                     BareMap.set H key hash_value v r
                       (thread_caches m !!! Z.to_nat thread_id)]>
                   (thread_caches m)) m).
Proof.
  intros segment_id Hheld. unfold async_set. fold segment_id.
  unfold op_bind, omp_test_lock.
  by destruct (segment_locks m !! segment_id) as [[owner|]|].
Qed.

(** C5.  [async_set] picks the segment [hash_value mod n_segments].  If
    the lock of that segment is free it sets the entry in the segment's
    bare map with the hash [hash_value div n_segments] and releases the
    lock; if the lock is held it sets the entry in the cache of the
    calling thread with the full [hash_value].  In both cases it returns:
    it never waits for the lock. *)
Theorem async_set_spec m thread_id key hash_value v (r : V → V → V) :
  let segment_id := Z.to_nat (hash_value mod n_segments m) in
  (segment_locks m !! segment_id = Some None →
     async_set H thread_id key hash_value v r m =
       Some (tt, with_segments
                   (<[segment_id :=
                        BareMap.set (AsyncHasher H (n_segments m))
                          key (hash_value / n_segments m) v r
                          (segments m !!! segment_id)]> (segments m)) m)) ∧
  (∀ owner, segment_locks m !! segment_id = Some (Some owner) →
     async_set H thread_id key hash_value v r m =
       Some (tt, with_thread_caches
                   (<[Z.to_nat thread_id :=
                        BareMap.set H key hash_value v r
                          (thread_caches m !!! Z.to_nat thread_id)]>
                      (thread_caches m)) m)) ∧
  is_Some (async_set H thread_id key hash_value v r m).
Proof.
  intros segment_id. split; [|split].
  - apply async_set_free.
  - intros owner Hheld. apply async_set_held. fold segment_id. by rewrite Hheld.
  - destruct (decide (segment_locks m !! segment_id = Some None)) as [Hfree|Hheld].
    + rewrite async_set_free by done. eauto.
    + rewrite async_set_held by done. eauto.
Qed.

Lemma segmented_wf_b_true m : segmented_wf_b H m = true → segmented_wf H m.
Proof.
  unfold segmented_wf_b. rewrite !andb_true_iff, !bool_decide_eq_true.
  intros [[[[HS Hsegs] Hlocks] Hcaches] Hall]. do 4 (split; [done|]).
  apply Is_true_true, forallb_True in Hall.
  eapply Forall_impl; [exact Hall|]. intros s Hs.
  by apply buckets_wf_b_true, Is_true_true.
Qed.

Lemma segmented_bucket_id m h :
  segmented_wf H m → (Z.to_nat (h mod n_segments m) < Z.to_nat (n_segments m))%nat.
Proof.
  intros (Hs & _). pose proof (Z.mod_pos_bound h (n_segments m) Hs). lia.
Qed.

Lemma BareConcurrentMap_new_wf (n : Z) :
  0 < n → segmented_wf H (BareConcurrentMap_new n : BareConcurrentMap K V).
Proof.
  intros Hn. unfold segmented_wf, BareConcurrentMap_new. simpl.
  rewrite !length_replicate.
  split; [unfold AsyncHasher_N_SEGMENTS_PER_THREAD; lia|]. do 3 (split; [done|]).
  apply Forall_replicate, bare_empty_wf.
Qed.

Lemma with_locks_wf ls m :
  length ls = length (segment_locks m) →
  segmented_wf H m → segmented_wf H (with_locks ls m).
Proof.
  intros Hlen (? & ? & Hll & ? & ?). unfold segmented_wf. simpl.
  do 2 (split; [done|]). split; [by rewrite Hlen|]. by split.
Qed.

(** Setting a key in the segment of its hash: the invariant stays, the
    key is bound to the reduced value, the other keys keep theirs. *)
Lemma segment_update_spec m key v (r : V → V → V) :
  let segment_id := Z.to_nat (H key mod n_segments m) in
  let m' := with_segments
              (<[segment_id := BareMap.set (AsyncHasher H (n_segments m))
                                 key (H key / n_segments m) v r
                                 (segments m !!! segment_id)]> (segments m)) m in
  segmented_wf H m →
  segmented_wf H m' ∧
  ∀ k, lookup k (H k) m' =
       if decide (k = key) then reduce_into r (lookup key (H key) m) v
       else lookup k (H k) m.
Proof.
  intros segment_id m' Hwf. pose proof Hwf as (HS & Hlen & Hlocks & Hcaches & Hsegs).
  assert (segment_id < length (segments m))%nat as Hid.
  { rewrite Hlen. by eapply segmented_bucket_id. }
  assert (segments m !! segment_id = Some (segments m !!! segment_id)) as Hseg
    by (by apply list_lookup_lookup_total_lt).
  pose proof (Forall_lookup_1 _ _ _ _ Hsegs Hseg) as Hswf.
  set (s := segments m !!! segment_id) in *.
  destruct (bare_set_spec (AsyncHasher H (n_segments m)) key v r s Hswf)
    as [Hswf' Hlook].
  split.
  - unfold segmented_wf, m'. simpl. rewrite length_insert.
    do 4 (split; [done|]). by apply Forall_insert.
  - intros k. unfold lookup, m'. simpl.
    destruct (decide (Z.to_nat (H k mod n_segments m) = segment_id)) as [Heq|Hne].
    + rewrite Heq, list_lookup_total_insert_eq by done. fold s. apply Hlook.
    + rewrite list_lookup_total_insert_ne by done.
      rewrite decide_False; [done|]. intros ->. by apply Hne.
Qed.

Lemma sync_handler_free m thread_id (r : V → V → V) key hash_value v :
  let segment_id := Z.to_nat (hash_value mod n_segments m) in
  segment_locks m !! segment_id = Some None →
  sync_handler H thread_id r key hash_value v m =
    Some (tt, with_segments
                (<[segment_id := BareMap.set (AsyncHasher H (n_segments m))
                                   key (hash_value / n_segments m) v r
                                   (segments m !!! segment_id)]> (segments m)) m).
Proof.
  intros segment_id Hfree. unfold sync_handler. fold segment_id.
  unfold op_bind, omp_set_lock, segment_set, omp_unset_lock. rewrite Hfree. simpl.
  f_equal. f_equal. unfold with_segments, with_locks. simpl.
  rewrite list_insert_insert_eq, list_insert_id by done. by destruct m.
Qed.

Lemma locks_free_lookup m h :
  segmented_wf H m → locks_free m →
  segment_locks m !! Z.to_nat (h mod n_segments m) = Some None.
Proof.
  intros Hwf Hfree. pose proof Hwf as (_ & _ & Hlen & _).
  destruct (lookup_lt_is_Some_2 (segment_locks m) (Z.to_nat (h mod n_segments m)))
    as [l Hl].
  { rewrite Hlen. by eapply segmented_bucket_id. }
  rewrite Hl. f_equal. by apply (Forall_lookup_1 _ _ _ _ Hfree Hl).
Qed.

Lemma values_of_app key (l1 l2 : list (K * V)) :
  values_of key (l1 ++ l2) = values_of key l1 ++ values_of key l2.
Proof. unfold values_of. by rewrite filter_app, fmap_app. Qed.

Lemma values_of_cons key k v (l : list (K * V)) :
  values_of key ((k, v) :: l) =
    if decide (key = k) then v :: values_of key l else values_of key l.
Proof.
  unfold values_of. rewrite filter_cons. simpl.
  destruct (decide (k = key)), (decide (key = k)); try done; congruence.
Qed.

(** Draining a list of staged pairs into the segments. *)
Lemma for_each_nodes_spec thread_id (r : V → V → V) (nodes : list (K * V)) : ∀ m,
  segmented_wf H m → locks_free m →
  ∃ m', BareMap.for_each_nodes H nodes (sync_handler H thread_id r) m = Some (tt, m') ∧
        segmented_wf H m' ∧ locks_free m' ∧
        thread_caches m' = thread_caches m ∧ n_threads m' = n_threads m ∧
        ∀ k, lookup k (H k) m' =
             foldl (reduce_into r) (lookup k (H k) m) (values_of k nodes).
Proof.
  induction nodes as [|[key v] nodes IH]; intros m Hwf Hfree.
  - exists m. by repeat (split; [done|]).
  - cbn [BareMap.for_each_nodes]. unfold op_bind at 1.
    rewrite sync_handler_free by (by eapply locks_free_lookup).
    destruct (segment_update_spec m key v r Hwf) as [Hwf1 Hlook1].
    set (m1 := with_segments _ m) in *.
    destruct (IH m1 Hwf1 Hfree) as (m' & -> & Hwf' & Hfree' & Hc & Ht & Hlook).
    exists m'. split; [done|]. do 4 (split; [done|]).
    intros k. rewrite Hlook, Hlook1, values_of_cons.
    by destruct (decide (k = key)) as [->|].
Qed.

(** One thread of the team: its cache is drained and cleared. *)
Lemma sync_thread_spec (r : V → V → V) thread_id m :
  segmented_wf H m → locks_free m → 0 ≤ thread_id < n_threads m →
  ∃ m', sync_thread H r thread_id m = Some (tt, m') ∧
        segmented_wf H m' ∧ locks_free m' ∧ n_threads m' = n_threads m ∧
        thread_caches m' =
          <[Z.to_nat thread_id := BareMap.clear (thread_caches m !!! Z.to_nat thread_id)]>
            (thread_caches m) ∧
        ∀ k, lookup k (H k) m' =
             foldl (reduce_into r) (lookup k (H k) m)
               (values_of k (mjoin (BareMap.buckets (thread_caches m !!! Z.to_nat thread_id)))).
Proof.
  intros Hwf Hfree Htid.
  set (c := thread_caches m !!! Z.to_nat thread_id).
  unfold sync_thread, BareMap.for_each. fold c. unfold op_bind.
  destruct (for_each_nodes_spec thread_id r (mjoin (BareMap.buckets c)) m Hwf Hfree)
    as (m1 & -> & Hwf1 & Hfree1 & Hc1 & Ht1 & Hlook1).
  unfold thread_cache_clear. eexists. split; [done|].
  destruct Hwf1 as (? & ? & ? & Hlen1 & ?).
  split; [|split; [done|split; [done|split; [by rewrite Hc1|done]]]].
  unfold segmented_wf. simpl. rewrite length_insert. by do 4 (split; [done|]).
Qed.

(** The team, thread after thread. *)
Lemma sync_team_spec (r : V → V → V) (team : list Z) : ∀ m,
  segmented_wf H m → locks_free m → NoDup team →
  (∀ t, t ∈ team → 0 ≤ t < n_threads m) →
  ∃ m', sync_team H r team m = Some (tt, m') ∧
        segmented_wf H m' ∧ locks_free m' ∧ n_threads m' = n_threads m ∧
        length (thread_caches m') = length (thread_caches m) ∧
        (∀ i c, thread_caches m !! i = Some c →
           thread_caches m' !! i =
             Some (if decide (Z.of_nat i ∈ team) then BareMap.clear c else c)) ∧
        ∀ k, lookup k (H k) m' =
             foldl (reduce_into r) (lookup k (H k) m)
               (values_of k
                  (mjoin ((λ t, mjoin (BareMap.buckets (thread_caches m !!! Z.to_nat t)))
                            <$> team))).
Proof.
  induction team as [|t team IH]; intros m Hwf Hfree Hnd Hrange.
  - exists m. do 5 (split; [done|]). split; [|done].
    intros i c Hi. rewrite decide_False; [done|]. apply not_elem_of_nil.
  - apply NoDup_cons in Hnd as [Ht Hnd].
    assert (0 ≤ t < n_threads m) as Htr by (apply Hrange, elem_of_cons; by left).
    destruct (sync_thread_spec r t m Hwf Hfree Htr)
      as (m1 & Heq1 & Hwf1 & Hfree1 & Hn1 & Hc1 & Hlook1).
    destruct (IH m1 Hwf1 Hfree1 Hnd) as (m' & Heq & Hwf' & Hfree' & Hn' & Hlen' & Hc' & Hlook').
    { intros t' Ht'. rewrite Hn1. apply Hrange, elem_of_cons. by right. }
    exists m'. cbn [sync_team]. unfold op_bind at 1. rewrite Heq1.
    split; [done|]. do 2 (split; [done|]). split; [congruence|].
    split; [by rewrite Hlen', Hc1, length_insert|]. split.
    + intros i c Hi. destruct (decide (i = Z.to_nat t)) as [->|Hne].
      * rewrite (Hc' _ (BareMap.clear c)).
        { rewrite decide_False by (rewrite Z2Nat.id by lia; done).
          rewrite decide_True; [done|]. rewrite Z2Nat.id by lia. apply elem_of_cons. by left. }
        rewrite Hc1, list_lookup_insert_eq by (by eapply lookup_lt_Some).
        by rewrite (list_lookup_total_correct _ _ _ Hi).
      * rewrite (Hc' _ c) by (by rewrite Hc1, list_lookup_insert_ne).
        f_equal. destruct (decide (Z.of_nat i ∈ team)) as [Hin|Hnin].
        { rewrite decide_True; [done|]. apply elem_of_cons. by right. }
        rewrite decide_False; [done|]. intros [Hx|?]%elem_of_cons; [|done].
        apply Hne. by rewrite <- Hx, Nat2Z.id.
    + intros k. rewrite Hlook', Hlook1. rewrite fmap_cons. cbn [mjoin list_join].
      rewrite values_of_app, foldl_app. f_equal. f_equal. f_equal.
      apply list_fmap_ext. intros _ t' Ht'%list_elem_of_lookup_2.
      rewrite Hc1, list_lookup_total_insert_ne; [done|].
      assert (0 ≤ t' < n_threads m) by (apply Hrange, elem_of_cons; by right).
      intros Heq'. apply Ht. replace t with t' by lia. done.
Qed.

Lemma staged_team m :
  mjoin ((λ t, mjoin (BareMap.buckets (thread_caches m !!! Z.to_nat t)))
           <$> seqZ 0 (Z.of_nat (length (thread_caches m)))) = staged m.
Proof.
  unfold staged. f_equal.
  apply list_eq. intros i. rewrite !list_lookup_fmap.
  destruct (thread_caches m !! i) as [c|] eqn:Hi.
  - rewrite lookup_seqZ_lt by (apply lookup_lt_Some in Hi; lia). simpl.
    by rewrite Z.add_0_l, Nat2Z.id, (list_lookup_total_correct _ _ _ Hi).
  - rewrite lookup_seqZ_ge; [done|]. apply lookup_ge_None in Hi. lia.
Qed.

Lemma reduce_into_fold_is_Some (r : V → V → V) (o : option V) (vs : list V) :
  is_Some (foldl (reduce_into r) o vs) ↔ is_Some o ∨ vs ≠ [].
Proof.
  revert o. induction vs as [|v vs IH]; intros o; simpl.
  - split; [by left|]. by intros [?|?].
  - rewrite IH. split; [by right|]. intros _. left. unfold reduce_into. eauto.
Qed.

Lemma values_of_nil_iff key (l : list (K * V)) : values_of key l ≠ [] ↔ key ∈ l.*1.
Proof.
  induction l as [|[k v] l IH]; [by rewrite elem_of_nil|].
  rewrite values_of_cons, fmap_cons, elem_of_cons. simpl.
  destruct (decide (key = k)) as [->|Hne].
  - split; [by left|done].
  - rewrite IH. split; [by right|]. by intros [?|?].
Qed.


(** [async_set] with the hash of the key keeps the invariant of the
    segmented map, whoever holds the lock. *)
Lemma async_set_wf m thread_id key v (r : V → V → V) :
  segmented_wf H m →
  ∃ m', async_set H thread_id key (H key) v r m = Some (tt, m') ∧
        segmented_wf H m' ∧ n_threads m' = n_threads m.
Proof.
  intros Hwf. pose proof Hwf as (? & ? & Hll & Hlen & ?).
  destruct (decide (segment_locks m !! Z.to_nat (H key mod n_segments m) = Some None))
    as [Hfree|Hheld].
  - rewrite async_set_free by done. eexists. split; [done|]. split; [|done].
    by apply (segment_update_spec m key v r).
  - rewrite async_set_held by done. eexists. split; [done|]. split; [|done].
    unfold segmented_wf. simpl. rewrite length_insert. by do 4 (split; [done|]).
Qed.
End BareConcurrentMapFacts.

Lemma async_set_spec_witness :
  (BareConcurrentMap.segment_locks sample_held
     !! Z.to_nat (18 mod BareConcurrentMap.n_segments sample_held) = Some None ∧
   (BareConcurrentMap.lookup 18 18 <$>
      (snd <$> BareConcurrentMap.async_set id 0 18 18 180 Z.add sample_held))
     = Some (Some 180)) ∧
  (BareConcurrentMap.segment_locks sample_held
     !! Z.to_nat (17 mod BareConcurrentMap.n_segments sample_held) = Some (Some 1) ∧
   (BareConcurrentMap.lookup 17 17 <$>
      (snd <$> BareConcurrentMap.async_set id 0 17 17 170 Z.add sample_held))
     = Some None ∧
   (BareMap.lookup 17 17 <$>
      ((λ m', BareConcurrentMap.thread_caches m' !!! 0%nat) <$>
         (snd <$> BareConcurrentMap.async_set id 0 17 17 170 Z.add sample_held)))
     = Some (Some 170)).
Proof.
  pose proof (async_set_spec id sample_held 0 18 18 180 Z.add) as Hfree.
  pose proof (async_set_spec id sample_held 0 17 17 170 Z.add) as Hheld.
  cbv zeta in Hfree, Hheld.
  split.
  - split; [reflexivity|]. rewrite (proj1 Hfree eq_refl). reflexivity.
  - split; [reflexivity|]. rewrite (proj1 (proj2 Hheld) 1 eq_refl).
    split; reflexivity.
Defined.


(** * Further properties *)

(** ** More on the bucket-count picker *)

Lemma PRIMES_at_mono i j : 0 ≤ i → i ≤ j → j ≤ 15 → PRIMES_at i ≤ PRIMES_at j.
Proof.
  intros Hi Hij Hj.
  assert (Hci : i ∈ seqZ 0 16) by (apply elem_of_seqZ; lia).
  assert (Hcj : j ∈ seqZ 0 16) by (apply elem_of_seqZ; lia).
  assert (forallb (λ i, forallb (λ j, (PRIMES_at i <=? PRIMES_at j) || negb (i <=? j))
                            (seqZ 0 16)) (seqZ 0 16) = true) as Hall
    by (vm_compute; reflexivity).
  rewrite forallb_forall in Hall. apply list_elem_of_In, Hall in Hci.
  rewrite forallb_forall in Hci. apply list_elem_of_In, Hci in Hcj.
  apply orb_true_iff in Hcj as [Hle|Hn]; [lia|].
  apply negb_true_iff in Hn. lia.
Qed.

Lemma elem_of_PRIMES p : p ∈ PRIMES ↔ ∃ i, 0 ≤ i ≤ 15 ∧ p = PRIMES_at i.
Proof.
  split.
  - intros [n Hn]%list_elem_of_lookup. exists (Z.of_nat n).
    pose proof (lookup_lt_Some _ _ _ Hn) as Hlt. change (length PRIMES) with 16%nat in Hlt.
    split; [lia|]. unfold PRIMES_at. rewrite Nat2Z.id.
    symmetry. by apply nth_lookup_Some.
  - intros (i & Hi & ->). unfold PRIMES_at. apply list_elem_of_lookup.
    exists (Z.to_nat i).
    destruct (nth_lookup_or_length PRIMES (Z.to_nat i) 0) as [Hs|Hl]; [done|].
    change (length PRIMES) with 16%nat in Hl. lia.
Qed.

(** The accumulator of the first loop only collects the factors. *)
Lemma divide_loop_acc fuel rf acc :
  divide_loop fuel rf (wrap64 acc) =
    ((divide_loop fuel rf 1).1, wrap64 (acc * (divide_loop fuel rf 1).2)).
Proof.
  revert rf acc. induction fuel as [|fuel IH]; intros rf acc.
  - simpl. by rewrite Z.mul_1_r.
  - rewrite !divide_loop_unfold. destruct (_ <? _).
    + replace (wrap64 (wrap64 acc * LAST_PRIME)) with (wrap64 (acc * LAST_PRIME)).
      2:{ unfold wrap64. by rewrite Z.mul_mod_idemp_l by discriminate. }
      rewrite IH. rewrite Z.mul_1_l.
      rewrite (IH _ LAST_PRIME). simpl. f_equal.
      unfold wrap64. rewrite Z.mul_mod_idemp_r by discriminate.
      f_equal. lia.
    + simpl. by rewrite Z.mul_1_r.
Qed.

(** X1.  Up to the last prime of the table, [get_n_rehashing_buckets]
    gives the least prime of the table that is not below the request;
    from there up to eleven times the last prime it gives 174449. *)
Theorem get_n_rehashing_buckets_least_prime n_buckets_min :
  0 ≤ n_buckets_min →
  (n_buckets_min ≤ 15859 →
     get_n_rehashing_buckets n_buckets_min ∈ PRIMES ∧
     n_buckets_min ≤ get_n_rehashing_buckets n_buckets_min ∧
     ∀ p, p ∈ PRIMES → n_buckets_min ≤ p → get_n_rehashing_buckets n_buckets_min ≤ p) ∧
  (15859 < n_buckets_min ≤ 174449 → get_n_rehashing_buckets n_buckets_min = 174449).
Proof.
  intros Hpos. split.
  - intros Hle. unfold get_n_rehashing_buckets.
    change 64%nat with (S 63). rewrite divide_loop_unfold.
    change LAST_PRIME with 15859.
    destruct (Z.ltb_spec 15859 n_buckets_min) as [Hlt|_]; [lia|].
    destruct (search_loop_spec n_buckets_min) as (Hi & Hge & Hmin).
    set (i := search_loop _ _ _ _) in *.
    change LAST_PRIME with 15859 in Hge. specialize (Hge Hle).
    pose proof (PRIMES_at_bounds i Hi) as Hb.
    rewrite Z.mul_1_l, wrap64_small by (change size_t_modulus with (2 ^ 64); lia).
    split; [apply elem_of_PRIMES; eauto|]. split; [done|].
    intros p (j & Hj & ->)%elem_of_PRIMES Hp.
    destruct (decide (i ≤ j)) as [Hij|Hji]; [apply PRIMES_at_mono; lia|].
    assert (0 < i) as Hi0 by lia. specialize (Hmin Hi0).
    pose proof (PRIMES_at_mono j (i - 1)). lia.
  - intros Hr. unfold get_n_rehashing_buckets.
    change 64%nat with (S (S 62)). rewrite divide_loop_unfold.
    change LAST_PRIME with 15859.
    destruct (Z.ltb_spec 15859 n_buckets_min) as [_|?]; [|lia].
    rewrite divide_loop_unfold. change LAST_PRIME with 15859.
    assert (1 ≤ n_buckets_min / 15859 ≤ 11) as Hq.
    { split; [apply Z.div_le_lower_bound; lia|apply Z.div_le_upper_bound; lia]. }
    destruct (Z.ltb_spec 15859 (n_buckets_min / 15859)); [lia|].
    destruct (search_loop_spec (n_buckets_min / 15859)) as (Hi & _ & Hmin).
    set (i := search_loop _ _ _ _) in *.
    assert (i = 0) as ->.
    { destruct (decide (0 < i)) as [Hi0|]; [|lia].
      specialize (Hmin Hi0). pose proof (PRIMES_at_bounds (i - 1)). lia. }
    reflexivity.
Qed.

Lemma get_n_rehashing_buckets_least_prime_witness :
  0 ≤ 12 ∧ 12 ≤ 15859 ∧ get_n_rehashing_buckets 12 = 17 ∧
  (17 ∈ PRIMES) ∧ 12 ≤ 17 ∧
  (15859 < 20000 ≤ 174449) ∧ get_n_rehashing_buckets 20000 = 174449.
Proof.
  pose proof (get_n_rehashing_buckets_least_prime 12) as H12.
  pose proof (get_n_rehashing_buckets_least_prime 20000) as H20.
  split; [lia|]. split; [lia|]. split; [reflexivity|].
  split; [exact (proj1 (proj1 (H12 ltac:(lia)) ltac:(lia)))|].
  split; [lia|]. split; [lia|].
  exact (proj2 (H20 ltac:(lia)) ltac:(lia)).
Defined.

(** X2.  Above the last prime of the table the picker takes one factor
    15859 out of the request and goes on with the quotient: its result
    is, in [size_t], 15859 times its result for the quotient. *)
Theorem get_n_rehashing_buckets_step n_buckets_min :
  LAST_PRIME < n_buckets_min < size_t_modulus →
  get_n_rehashing_buckets n_buckets_min =
    wrap64 (LAST_PRIME * get_n_rehashing_buckets (n_buckets_min / LAST_PRIME)).
Proof.
  intros [Hlt Hmax]. unfold get_n_rehashing_buckets.
  change 64%nat with (S 63) at 1. rewrite divide_loop_unfold.
  destruct (Z.ltb_spec LAST_PRIME n_buckets_min) as [_|?]; [|lia].
  assert (0 ≤ n_buckets_min / LAST_PRIME < 2 ^ Z.of_nat 63) as Hq.
  { change LAST_PRIME with 15859 in *. change size_t_modulus with (2 ^ 64) in Hmax.
    split; [apply Z.div_pos; lia|]. apply Z.div_lt_upper_bound; lia. }
  destruct (divide_loop_exit 63 _ 1 Hq) as [_ Hexit].
  specialize (Hexit 1%nat). change (63 + 1)%nat with 64%nat in Hexit.
  rewrite Hexit. rewrite divide_loop_acc.
  destruct (divide_loop 63 (n_buckets_min / LAST_PRIME) 1) as [rf acc]. simpl.
  unfold wrap64. rewrite Z.mul_mod_idemp_l, Z.mul_mod_idemp_r by discriminate.
  f_equal. lia.
Qed.

Lemma get_n_rehashing_buckets_step_witness :
  LAST_PRIME < 1000000 < size_t_modulus ∧
  get_n_rehashing_buckets 1000000 = 15859 * 79.
Proof.
  split; [by vm_compute|].
  rewrite (get_n_rehashing_buckets_step 1000000) by (by vm_compute).
  reflexivity.
Defined.

(** X3.  Whatever is asked for, the picker gives an odd number of
    [size_t] that is not zero: a power of the last prime of the table
    times a prime of the table, reduced modulo 2^64. *)
Theorem get_n_rehashing_buckets_odd n_buckets_min :
  0 < get_n_rehashing_buckets n_buckets_min < size_t_modulus ∧
  Z.odd (get_n_rehashing_buckets n_buckets_min) = true ∧
  ∃ (k : nat) p, p ∈ PRIMES ∧
    get_n_rehashing_buckets n_buckets_min = wrap64 (LAST_PRIME ^ Z.of_nat k * p).
Proof.
  split; [|split].
  - split; [apply get_n_rehashing_buckets_pos|].
    unfold get_n_rehashing_buckets. destruct (divide_loop _ _ _).
    apply wrap64_range.
  - destruct (get_n_rehashing_buckets_shape n_buckets_min) as (k & i & Hi & ->).
    rewrite wrap64_odd, Z.odd_mul, PRIMES_at_odd by done.
    rewrite andb_true_r. clear. induction k as [|k IH]; [done|].
    by rewrite Nat2Z.inj_succ, Z.pow_succ_r, Z.odd_mul, IH by lia.
  - destruct (get_n_rehashing_buckets_shape n_buckets_min) as (k & i & Hi & ->).
    exists k, (PRIMES_at i). split; [apply elem_of_PRIMES; eauto|done].
Qed.

(** ** Lists of chains *)

Section JoinFacts.
Context {K V : Type} `{EqDecision K}.
Implicit Types (bs : list (chain K V)) (c : chain K V) (k key : K) (v : V).

Lemma join_cons_chain c bs : mjoin (c :: bs) = c ++ mjoin bs.
Proof. reflexivity. Qed.

(** The pairs of a bucket array around one of its chains. *)
Lemma join_middle bs j c :
  bs !! j = Some c → mjoin bs = mjoin (take j bs) ++ c ++ mjoin (drop (S j) bs).
Proof.
  intros Hj. rewrite <- (take_drop_middle bs j c Hj) at 1.
  by rewrite join_app, join_cons_chain.
Qed.

Lemma join_insert_middle bs j c c' :
  bs !! j = Some c →
  mjoin (<[j := c']> bs) = mjoin (take j bs) ++ c' ++ mjoin (drop (S j) bs).
Proof.
  intros Hj. pose proof (lookup_lt_Some _ _ _ Hj) as Hlt.
  rewrite insert_take_drop by done. by rewrite join_app, join_cons_chain.
Qed.

Lemma lookup_total_seq bs : (λ i, bs !!! i) <$> seq 0 (length bs) = bs.
Proof.
  apply list_eq. intros i. rewrite list_lookup_fmap.
  destruct (decide (i < length bs)%nat) as [Hlt|Hge].
  - rewrite lookup_seq_lt by done. simpl.
    symmetry. by apply list_lookup_lookup_total_lt.
  - rewrite lookup_seq_ge by lia. simpl. symmetry. apply lookup_ge_None. lia.
Qed.

Lemma filter_join_id (P : K * V → Prop) `{∀ x, Decision (P x)} bs :
  (∀ c, c ∈ bs → filter P c = c) → filter P (mjoin bs) = mjoin bs.
Proof.
  induction bs as [|c bs IH]; intros Hall; [done|].
  rewrite join_cons_chain, filter_app, Hall, IH; [done| |by left].
  intros c' Hc'. apply Hall. by right.
Qed.

Lemma filter_key_absent c key : key ∉ c.*1 → filter (λ kv, kv.1 ≠ key) c = c.
Proof.
  induction c as [|[k v] c IH]; intros Hnin; [done|].
  rewrite fmap_cons, not_elem_of_cons in Hnin. destruct Hnin as [Hne Hnin].
  rewrite filter_cons_True by (simpl; intros ?; by subst). by rewrite IH.
Qed.

Lemma filter_key_length (l : list (K * V)) key :
  NoDup l.*1 → key ∈ l.*1 →
  S (length (filter (λ kv, kv.1 ≠ key) l)) = length l.
Proof.
  induction l as [|[k v] l IH]; intros Hnd Hin; [by apply elem_of_nil in Hin|].
  rewrite fmap_cons in Hnd, Hin. apply NoDup_cons in Hnd as [Hk Hnd].
  destruct (decide (k = key)) as [->|Hne].
  - rewrite filter_cons_False by (simpl; by intros ?).
    by rewrite filter_key_absent.
  - rewrite filter_cons_True by (simpl; intros ?; by subst). simpl.
    apply elem_of_cons in Hin as [Heq|Hin]; [simpl in Heq; congruence|].
    by rewrite IH.
Qed.

(** The walk of [unset_with_hash] on one chain. *)
Lemma unset_node_handler_filter c key n :
  NoDup c.*1 →
  hash_node_apply_recursive c key unset_node_handler n =
    (filter (λ kv, kv.1 ≠ key) c,
     if decide (key ∈ c.*1) then wrap64 (n - 1) else n).
Proof.
  intros Hnd. destruct (decide (key ∈ c.*1)) as [Hin|Hnin].
  - destruct (chain_split_first _ _ Hin) as (c1 & v & c2 & -> & Hc1).
    rewrite hash_node_apply_recursive_present by done. simpl.
    rewrite fmap_app, fmap_cons in Hnd. apply NoDup_app in Hnd as (_ & _ & Hnd).
    apply NoDup_cons in Hnd as [Hc2 _].
    rewrite filter_app, filter_cons_False, !filter_key_absent; [done..|].
    simpl. by intros ?.
  - rewrite hash_node_apply_recursive_absent by done. simpl.
    by rewrite app_nil_r, filter_key_absent.
Qed.

(** The walk of the callback [get_with_hash] on one chain. *)
Lemma callback_node_handler_lookup {St} c key (handler : V → St → St) s :
  hash_node_apply_recursive c key (callback_node_handler handler) s =
    (c, from_option (λ v, handler v s) s (chain_lookup c key)).
Proof.
  induction c as [|[k v] c IH]; [done|].
  rewrite chain_lookup_cons. simpl. destruct (decide (k = key)); [done|].
  by rewrite IH.
Qed.


Lemma copy_chain_allocated (ptr_src ptr_dest : chain K V) allocated :
  (copy_chain ptr_src ptr_dest allocated).2 = allocated ++ ptr_src.
Proof.
  revert ptr_dest allocated. induction ptr_src as [|[k v] next IH];
    intros ptr_dest allocated; simpl.
  - by rewrite app_nil_r.
  - by rewrite IH, <- app_assoc.
Qed.
End JoinFacts.

(** ** The public operations of [ConcurrentMap] *)

Section ConcurrentMapApi.
Context {K V : Type} `{EqDecision K}.
Variable hasher : K → Z.
Variable n_procs : Z.
Implicit Types (m : ConcurrentMap K V) (k key : K) (v : V).

(** What the walk for a key finds in the bucket of its hash. *)
Local Abbreviation found m k :=
  (chain_lookup
     (buckets m !!! Z.to_nat (get_hash_value hasher n_procs k mod n_buckets m)) k).

Lemma get_found key d m : (get hasher n_procs key d m).1 = default d (found m key).
Proof. apply get_with_hash_lookup. Qed.

Lemma has_found key m :
  (has hasher n_procs key m).1 = bool_decide (is_Some (found m key)).
Proof. apply has_with_hash_lookup. Qed.

Lemma found_Some m k v :
  wf hasher n_procs m → found m k = Some v ↔ (k, v) ∈ entries m.
Proof. apply buckets_wf_lookup_Some. Qed.

Lemma found_None m k :
  wf hasher n_procs m → found m k = None ↔ k ∉ (entries m).*1.
Proof. apply buckets_wf_lookup_None. Qed.

Lemma found_perm m m' k :
  wf hasher n_procs m → wf hasher n_procs m' → entries m' ≡ₚ entries m →
  found m' k = found m k.
Proof. apply buckets_lookup_perm. Qed.

Lemma wf_bucket_lookup m h :
  wf hasher n_procs m →
  buckets m !! Z.to_nat (h mod n_buckets m) =
    Some (buckets m !!! Z.to_nat (h mod n_buckets m)).
Proof.
  intros Hwf. apply list_lookup_lookup_total_lt. by apply (wf_bucket_id hasher n_procs).
Qed.

Lemma set_apply_found key v (r : V → V → V) m k :
  wf hasher n_procs m →
  found (set_apply key (get_hash_value hasher n_procs key) v r m) k =
    if decide (k = key)
    then Some (from_option (λ old, r old v) v (found m key))
    else found m k.
Proof.
  intros Hwf.
  pose proof (buckets_set_lookup (get_hash_value hasher n_procs) (n_buckets m)
                (buckets m) key v r (n_keys m) k Hwf) as Hset.
  unfold set_apply, hash_node_apply.
  by destruct (hash_node_apply_recursive _ _ _ _).
Qed.

Lemma set_found key v (r : V → V → V) m k :
  wf hasher n_procs m →
  found (set hasher n_procs key v r m) k =
    if decide (k = key)
    then Some (from_option (λ old, r old v) v (found m key))
    else found m k.
Proof.
  intros Hwf. rewrite <- set_apply_found by done.
  pose proof (set_apply_wf hasher n_procs key v r m Hwf) as Hwf1.
  unfold set, set_with_hash. destruct (set_calls_rehash _); [|done].
  destruct (rehash0_wf_entries hasher n_procs _ Hwf1) as (Hwf2 & Hperm & _).
  by apply found_perm.
Qed.

(** X4.  Insert and look up.  After [set] the key is in the map, with
    the new value if it was not there and with the reducer's result on
    the old and the new value if it was; for every other key [get] and
    [has] answer as before. *)
Theorem set_then_get m key v (r : V → V → V) d :
  wf hasher n_procs m →
  wf hasher n_procs (set hasher n_procs key v r m) ∧
  (∀ old, (key, old) ∈ entries m →
     (get hasher n_procs key d (set hasher n_procs key v r m)).1 = r old v) ∧
  (key ∉ (entries m).*1 →
     (get hasher n_procs key d (set hasher n_procs key v r m)).1 = v) ∧
  (has hasher n_procs key (set hasher n_procs key v r m)).1 = true ∧
  ∀ k, k ≠ key →
    (get hasher n_procs k d (set hasher n_procs key v r m)).1 =
      (get hasher n_procs k d m).1 ∧
    (has hasher n_procs k (set hasher n_procs key v r m)).1 =
      (has hasher n_procs k m).1.
Proof.
  intros Hwf. split; [by apply set_with_hash_wf|].
  split; [|split; [|split]].
  - intros old Hold%found_Some; [|done].
    by rewrite get_found, set_found, decide_True, Hold.
  - intros Hnin%found_None; [|done].
    by rewrite get_found, set_found, decide_True, Hnin.
  - by rewrite has_found, set_found, decide_True.
  - intros k Hne.
    by rewrite !get_found, !has_found, set_found, decide_False.
Qed.

Lemma unset_entries key m :
  wf hasher n_procs m →
  entries (unset hasher n_procs key m) = filter (λ kv, kv.1 ≠ key) (entries m) ∧
  n_buckets (unset hasher n_procs key m) = n_buckets m ∧
  n_keys (unset hasher n_procs key m) =
    if decide (key ∈ (entries m).*1) then wrap64 (n_keys m - 1) else n_keys m.
Proof.
  intros Hwf. pose proof Hwf as (Hn & Hlen & Hall).
  unfold unset, unset_with_hash, hash_node_apply.
  set (j := Z.to_nat (get_hash_value hasher n_procs key mod n_buckets m)).
  pose proof (wf_bucket_lookup m (get_hash_value hasher n_procs key) Hwf) as Hj.
  fold j in Hj. destruct (Hall j _ Hj) as [Hnd Hidx].
  rewrite unset_node_handler_filter by done. simpl.
  split; [|split; [done|]].
  - unfold entries. simpl.
    rewrite (join_insert_middle _ _ _ _ Hj), (join_middle _ _ _ Hj).
    rewrite !filter_app. f_equal; [|f_equal]; symmetry; apply filter_join_id.
    + intros c [i Hi]%list_elem_of_lookup. apply filter_key_absent. intros Hk.
      apply lookup_take_Some in Hi as [Hi Hlt].
      destruct (Hall i c Hi) as [_ Hic]. specialize (Hic key Hk).
      fold j in Hic. lia.
    + intros c [i Hi]%list_elem_of_lookup. apply filter_key_absent. intros Hk.
      rewrite lookup_drop in Hi.
      destruct (Hall _ c Hi) as [_ Hic]. specialize (Hic key Hk).
      fold j in Hic. lia.
  - pose proof (buckets_wf_elem_of_keys (get_hash_value hasher n_procs) _ _ key Hwf)
      as Hkeys. fold j in Hkeys. unfold entries.
    destruct (decide (key ∈ (buckets m !!! j).*1)) as [Hin|Hnin].
    + by rewrite decide_True by (by apply Hkeys).
    + by rewrite decide_False by (by rewrite Hkeys).
Qed.

Lemma unset_found key m k :
  wf hasher n_procs m →
  found (unset hasher n_procs key m) k =
    if decide (k = key) then None else found m k.
Proof.
  intros Hwf. pose proof (unset_with_hash_wf hasher n_procs key
    (get_hash_value hasher n_procs key) m Hwf) as Hwf'.
  destruct (unset_entries key m Hwf) as (Hent & _).
  destruct (decide (k = key)) as [->|Hne].
  - apply found_None; [done|]. fold (unset hasher n_procs key m). rewrite Hent.
    intros ([k' v'] & -> & [Hp _]%list_elem_of_filter)%list_elem_of_fmap. by apply Hp.
  - apply option_eq. intros v. rewrite !found_Some by done.
    fold (unset hasher n_procs key m). rewrite Hent, list_elem_of_filter.
    split; [by intros [_ ?]|]. intros Hin. split; [exact Hne|done].
Qed.

Lemma set_each_found (r : V → V → V) (l : list (K * V)) : ∀ m,
  wf hasher n_procs m →
  wf hasher n_procs (foldl (λ m kv, set hasher n_procs kv.1 kv.2 r m) m l) ∧
  ∀ k, found (foldl (λ m kv, set hasher n_procs kv.1 kv.2 r m) m l) k =
       foldl (reduce_into r) (found m k) (values_of k l).
Proof.
  induction l as [|[k0 v0] l IH]; intros m Hwf; [done|].
  pose proof (set_with_hash_wf hasher n_procs k0 v0 r m Hwf) as Hwf1.
  fold (set hasher n_procs k0 v0 r m) in Hwf1.
  destruct (IH _ Hwf1) as [Hwf' Hfound]. simpl. split; [done|].
  intros k. rewrite Hfound, set_found, values_of_cons by done.
  by destruct (decide (k = k0)) as [->|Hne].
Qed.

(** X5.  Filling a new map.  After the pairs of a list have been put
    into a new map by [set], one after the other with the same reducer,
    [has] is true exactly for the keys of the list, and [get] gives for
    such a key its values in the list reduced from the left: the first
    value as it is, every later one through the reducer. *)
Theorem set_each_reduces (r : V → V → V) (l : list (K * V)) n_threads key d :
  let m := foldl (λ m kv, set hasher n_procs kv.1 kv.2 r m)
                 (ConcurrentMap_new n_threads) l in
  wf hasher n_procs m ∧
  (get hasher n_procs key d m).1 =
    default d (foldl (reduce_into r) None (values_of key l)) ∧
  (has hasher n_procs key m).1 = bool_decide (key ∈ l.*1).
Proof.
  intros m. subst m.
  destruct (set_each_found r l _ (ConcurrentMap_new_wf hasher n_procs n_threads))
    as [Hwf Hfound].
  split; [done|]. rewrite get_found, has_found, Hfound.
  replace (found (ConcurrentMap_new n_threads) key) with (@None V)
    by (symmetry; apply chain_lookup_replicate_nil).
  split; [done|]. apply bool_decide_ext.
  rewrite reduce_into_fold_is_Some, values_of_nil_iff.
  split; [intros [[? [=]]|?]; done|by right].
Qed.

(** X6.  [unset] takes the pair of the key out of the map and nothing
    else: afterwards [has] is false and [get] gives the default for the
    key, every other key is found as before, the bucket count is the
    same, and [n_keys] is one less (in [size_t]) if the key was there. *)
Theorem unset_removes m key d :
  wf hasher n_procs m →
  wf hasher n_procs (unset hasher n_procs key m) ∧
  entries (unset hasher n_procs key m) = filter (λ kv, kv.1 ≠ key) (entries m) ∧
  (has hasher n_procs key (unset hasher n_procs key m)).1 = false ∧
  (get hasher n_procs key d (unset hasher n_procs key m)).1 = d ∧
  (∀ k, k ≠ key →
     (get hasher n_procs k d (unset hasher n_procs key m)).1 =
       (get hasher n_procs k d m).1 ∧
     (has hasher n_procs k (unset hasher n_procs key m)).1 =
       (has hasher n_procs k m).1) ∧
  n_buckets (unset hasher n_procs key m) = n_buckets m ∧
  (key ∈ (entries m).*1 →
     n_keys (unset hasher n_procs key m) = wrap64 (n_keys m - 1)).
Proof.
  intros Hwf. destruct (unset_entries key m Hwf) as (Hent & Hnb & Hnk).
  split; [by apply unset_with_hash_wf|]. split; [done|].
  split; [|split; [|split; [|split; [done|]]]].
  - by rewrite has_found, unset_found, decide_True.
  - by rewrite get_found, unset_found, decide_True.
  - intros k Hne. by rewrite !get_found, !has_found, unset_found, decide_False.
  - intros Hin. by rewrite Hnk, decide_True.
Qed.

(** X7.  [has] is true exactly for the keys that are stored, and leaves
    the map as it is, whatever hash it is called with. *)
Theorem has_iff_stored m key h :
  wf hasher n_procs m →
  ((has hasher n_procs key m).1 = true ↔ key ∈ (entries m).*1) ∧
  (has hasher n_procs key m).2 = m ∧
  (has_with_hash key h m).2 = m.
Proof.
  intros Hwf. split; [|split].
  - rewrite has_found, bool_decide_eq_true.
    pose proof (found_None m key Hwf) as Hnone.
    destruct (found m key) as [v|].
    + split; [intros _|by eauto].
      destruct (decide (key ∈ (entries m).*1)) as [|Hnin]; [done|].
      by apply Hnone in Hnin.
    + split; [by intros [? ?]|]. intros Hin. by apply Hnone in Hin.
  - unfold has, has_with_hash.
    pose proof (hash_node_apply_read hasher n_procs key
                  (get_hash_value hasher n_procs key) has_node_handler m false Hwf) as Hr.
    destruct (hash_node_apply _ _ _ _ _) as [m' b]. apply Hr. by intros [|[? ?] ?] ?.
  - unfold has_with_hash.
    pose proof (hash_node_apply_read hasher n_procs key h has_node_handler m false Hwf)
      as Hr.
    destruct (hash_node_apply _ _ _ _ _) as [m' b]. apply Hr. by intros [|[? ?] ?] ?.
Qed.

(** X8.  The [get] that takes a callback runs the callback once, on the
    value stored with the key, when the key is in the map, and not at
    all when it is not; the map stays as it is. *)
Theorem get_callback_calls {St} m key (handler : V → St → St) s :
  wf hasher n_procs m →
  (∀ v, (key, v) ∈ entries m →
     get_callback hasher n_procs key handler m s = (m, handler v s)) ∧
  (key ∉ (entries m).*1 → get_callback hasher n_procs key handler m s = (m, s)).
Proof.
  intros Hwf.
  assert (get_callback hasher n_procs key handler m s =
            (m, from_option (λ v, handler v s) s (found m key))) as Heq.
  { unfold get_callback, get_with_hash_callback, hash_node_apply.
    rewrite callback_node_handler_lookup.
    rewrite list_insert_id by (by apply wf_bucket_lookup).
    by rewrite with_buckets_id. }
  rewrite Heq. split.
  - intros v Hv%found_Some; [|done]. by rewrite Hv.
  - intros Hnin%found_None; [|done]. by rewrite Hnin.
Qed.
Lemma set_apply_entries key v (r : V → V → V) m :
  wf hasher n_procs m →
  let m1 := set_apply key (get_hash_value hasher n_procs key) v r m in
  (key ∈ (entries m).*1 →
     length (entries m1) = length (entries m) ∧ n_keys m1 = n_keys m) ∧
  (key ∉ (entries m).*1 →
     entries m1 ≡ₚ (key, v) :: entries m ∧ n_keys m1 = wrap64 (n_keys m + 1)).
Proof.
  intros Hwf m1. subst m1. unfold set_apply, hash_node_apply.
  set (j := Z.to_nat (get_hash_value hasher n_procs key mod n_buckets m)).
  pose proof (wf_bucket_lookup m (get_hash_value hasher n_procs key) Hwf) as Hj.
  fold j in Hj.
  pose proof (buckets_wf_elem_of_keys (get_hash_value hasher n_procs) _ _ key Hwf)
    as Hkeys. fold j in Hkeys. fold (entries m) in Hkeys.
  split.
  - intros Hin%Hkeys.
    destruct (chain_split_first _ _ Hin) as (c1 & old & c2 & Hc & Hc1).
    rewrite Hc, set_node_handler_present by done. rewrite Hc in Hj. simpl.
    split; [|done]. unfold entries. simpl.
    rewrite (join_insert_middle _ _ _ _ Hj), (join_middle _ _ _ Hj).
    by rewrite !length_app.
  - intros Hnin. rewrite Hkeys in Hnin.
    rewrite set_node_handler_absent by done. simpl. split; [|done].
    unfold entries. simpl. by apply join_insert_snoc.
Qed.

Lemma clear_entries m : wf hasher n_procs m → entries (clear m) = [].
Proof.
  intros (_ & Hlen & _). unfold entries, clear. simpl.
  rewrite reset_buckets_replicate by done. apply join_replicate_nil.
Qed.

Lemma clear_and_shrink_entries m :
  wf hasher n_procs m → entries (clear_and_shrink m) = [].
Proof.
  intros Hwf. unfold entries.
  rewrite (clear_and_shrink_buckets hasher n_procs) by done.
  apply (join_replicate_nil 11).
Qed.

(** X9.  [get_n_keys] is the number of stored pairs.  This holds for a
    new map, and where it holds, with fewer than 2^64 - 1 keys, it holds
    again after [set], [unset], [clear], [clear_and_shrink] and
    [reserve]. *)
Theorem get_n_keys_counts m key v (r : V → V → V) n n_threads :
  wf hasher n_procs m → counted m → n_keys m < size_t_modulus - 1 →
  counted (ConcurrentMap_new n_threads : ConcurrentMap K V) ∧
  counted (set hasher n_procs key v r m) ∧
  counted (unset hasher n_procs key m) ∧
  counted (clear m) ∧
  counted (clear_and_shrink m) ∧
  counted (reserve hasher n_procs n m).
Proof.
  unfold counted, get_n_keys. intros Hwf Hcount Hmax.
  split; [done|]. split; [|split; [|split; [|split]]].
  - unfold set. rewrite set_with_hash_n_keys.
    pose proof (set_apply_wf hasher n_procs key v r m Hwf) as Hwf1.
    assert (length (entries (set_with_hash hasher n_procs key
              (get_hash_value hasher n_procs key) v r m)) =
            length (entries (set_apply key (get_hash_value hasher n_procs key) v r m)))
      as ->.
    { unfold set_with_hash. destruct (set_calls_rehash _); [|done].
      destruct (rehash0_wf_entries hasher n_procs _ Hwf1) as (_ & Hperm & _).
      by rewrite Hperm. }
    destruct (set_apply_entries key v r m Hwf) as [Hin Hnin].
    destruct (decide (key ∈ (entries m).*1)) as [Hk|Hk].
    + destruct (Hin Hk) as [-> ->]. done.
    + destruct (Hnin Hk) as [-> ->]. simpl.
      rewrite wrap64_small by lia. lia.
  - destruct (unset_entries key m Hwf) as (-> & _ & ->).
    destruct (decide (key ∈ (entries m).*1)) as [Hk|Hk].
    + pose proof (filter_key_length (entries m) key
                    (buckets_wf_NoDup _ _ _ Hwf) Hk) as Hlen.
      rewrite wrap64_small by lia. lia.
    + rewrite filter_key_absent by done. done.
  - by rewrite clear_entries.
  - by rewrite clear_and_shrink_entries.
  - destruct (reserve_wf_entries hasher n_procs n m Hwf) as (_ & -> & ->). done.
Qed.

(** X10.  [reserve] never takes buckets away and keeps what is stored: it
    does nothing when there are enough buckets, and up to 174449 it
    leaves at least as many buckets as were asked for.  [rehash] with a
    bucket count that is not larger than the present one does nothing. *)
Theorem reserve_never_shrinks m n :
  wf hasher n_procs m →
  wf hasher n_procs (reserve hasher n_procs n m) ∧
  get_n_buckets m ≤ get_n_buckets (reserve hasher n_procs n m) ∧
  (n ≤ get_n_buckets m → reserve hasher n_procs n m = m) ∧
  (n ≤ get_n_buckets m → rehash hasher n_procs n m = m) ∧
  (0 ≤ n ≤ 174449 → n ≤ get_n_buckets (reserve hasher n_procs n m)) ∧
  entries (reserve hasher n_procs n m) ≡ₚ entries m ∧
  get_n_keys (reserve hasher n_procs n m) = get_n_keys m ∧
  ∀ key d, (get hasher n_procs key d (reserve hasher n_procs n m)).1 =
           (get hasher n_procs key d m).1.
Proof.
  intros Hwf. destruct (reserve_wf_entries hasher n_procs n m Hwf) as (Hwf' & Hperm & Hk).
  unfold get_n_buckets, get_n_keys.
  split; [done|]. split; [|split; [|split; [|split; [|split; [done|split; [done|]]]]]].
  - unfold reserve, rehash. destruct (Z.geb_spec (n_buckets m) n); [done|].
    destruct (Z.geb_spec (n_buckets m) (get_n_rehashing_buckets n)); [done|].
    cbn [n_buckets]. lia.
  - intros Hle. unfold reserve. destruct (Z.geb_spec (n_buckets m) n); [done|lia].
  - intros Hle. unfold rehash. destruct (Z.geb_spec (n_buckets m) n); [done|lia].
  - intros Hn. pose proof (get_n_rehashing_buckets_ge n Hn) as Hge.
    unfold reserve, rehash. destruct (Z.geb_spec (n_buckets m) n); [lia|].
    destruct (Z.geb_spec (n_buckets m) (get_n_rehashing_buckets n)); [lia|]. done.
  - intros key d. rewrite !get_found. f_equal. by apply found_perm.
Qed.

(** X11.  Insert and take out again.  [unset] after [set] of a key that
    was not in the map gives back the stored pairs and the key count;
    only the bucket count may have grown. *)
Theorem set_then_unset m key v (r : V → V → V) :
  wf hasher n_procs m → key ∉ (entries m).*1 → 0 ≤ n_keys m < size_t_modulus - 1 →
  entries (unset hasher n_procs key (set hasher n_procs key v r m)) ≡ₚ entries m ∧
  n_keys (unset hasher n_procs key (set hasher n_procs key v r m)) = n_keys m ∧
  n_buckets m ≤ n_buckets (unset hasher n_procs key (set hasher n_procs key v r m)).
Proof.
  intros Hwf Hnin Hrange.
  pose proof (set_with_hash_wf hasher n_procs key v r m Hwf) as Hwf2.
  fold (set hasher n_procs key v r m) in Hwf2.
  destruct (unset_entries key _ Hwf2) as (Hent & Hnb & Hnk).
  pose proof (set_apply_wf hasher n_procs key v r m Hwf) as Hwf1.
  destruct (set_apply_entries key v r m Hwf) as [_ Habsent].
  destruct (Habsent Hnin) as [Hperm1 Hn1].
  assert (entries (set hasher n_procs key v r m) ≡ₚ (key, v) :: entries m) as Hperm.
  { rewrite <- Hperm1. unfold set, set_with_hash. destruct (set_calls_rehash _); [|done].
    by destruct (rehash0_wf_entries hasher n_procs _ Hwf1) as (_ & ? & _). }
  split; [|split].
  - rewrite Hent, Hperm. rewrite filter_cons_False by (simpl; by intros ?).
    by rewrite filter_key_absent.
  - rewrite Hnk, decide_True.
    + unfold set. rewrite set_with_hash_n_keys, Hn1.
      rewrite (wrap64_small (n_keys m + 1)) by lia.
      rewrite wrap64_small by lia. lia.
    + rewrite Hperm. simpl. by left.
  - rewrite Hnb. unfold set, set_with_hash.
    pose proof (set_apply_n_buckets key (get_hash_value hasher n_procs key) v r m)
      as [Hb _].
    destruct (set_calls_rehash _); [|lia].
    unfold rehash0, reserve, rehash.
    repeat (match goal with |- context [?a >=? ?b] => destruct (Z.geb_spec a b) end);
      cbn [n_buckets]; lia.
Qed.

(** X12.  The copy constructor copies the counts and allocates a node for
    every pair of the source, but links none of them into the bucket
    array of the copy: the copy has the key count of the source and no
    stored pair, so that no key is found in it. *)
Theorem ConcurrentMap_copy_links_nothing m :
  wf hasher n_procs m →
  n_keys (ConcurrentMap_copy m).1 = n_keys m ∧
  n_buckets (ConcurrentMap_copy m).1 = n_buckets m ∧
  entries (ConcurrentMap_copy m).1 = [] ∧
  (ConcurrentMap_copy m).2 = entries m ∧
  wf hasher n_procs (ConcurrentMap_copy m).1 ∧
  ∀ key d, (get hasher n_procs key d (ConcurrentMap_copy m).1).1 = d ∧
           (has hasher n_procs key (ConcurrentMap_copy m).1).1 = false.
Proof.
  intros Hwf. pose proof Hwf as (Hn & Hlen & _).
  assert (∀ ids bs allocated,
            foldl (copy_step m) (bs, allocated) ids =
              (bs, allocated ++ mjoin ((λ i, buckets m !!! i) <$> ids))) as Hfold.
  { induction ids as [|i ids IH]; intros bs allocated; simpl.
    - by rewrite app_nil_r.
    - pose proof (copy_chain_allocated (buckets m !!! i) (bs !!! i) allocated) as Hc.
      destruct (copy_chain _ _ _) as [ptr allocated']. simpl in Hc. subst allocated'.
      by rewrite IH, <- app_assoc. }
  unfold ConcurrentMap_copy. rewrite Hfold. simpl.
  rewrite <- Hlen, lookup_total_seq. unfold resize, entries.
  rewrite take_nil. simpl. rewrite Nat.sub_0_r.
  assert (wf hasher n_procs
            ({| n_keys := n_keys m; n_buckets := n_buckets m;
                max_load_factor := max_load_factor m; n_segments := n_segments m;
                buckets := replicate (length (buckets m)) [] |} : ConcurrentMap K V))
    as Hwf'.
  { unfold wf. simpl. rewrite Hlen. by apply buckets_wf_replicate. }
  split; [done|]. split; [done|]. split; [apply join_replicate_nil|].
  split; [done|]. split; [done|]. intros key d.
  rewrite get_found, has_found. simpl. by rewrite chain_lookup_replicate_nil.
Qed.

End ConcurrentMapApi.

Lemma set_then_get_witness :
  wf id 1 sample_chained ∧
  (14, 140) ∈ entries sample_chained ∧
  (get id 1 14 0 (set id 1 14 7 Z.add sample_chained)).1 = 140 + 7 ∧
  (36 ∉ (entries sample_chained).*1) ∧
  (get id 1 36 0 (set id 1 36 7 Z.add sample_chained)).1 = 7 ∧
  25 ≠ 14 ∧
  (get id 1 25 0 (set id 1 14 7 Z.add sample_chained)).1 =
    (get id 1 25 0 sample_chained).1.
Proof.
  assert (wf id 1 sample_chained) as Hwf
    by (apply buckets_wf_b_true; vm_compute; reflexivity).
  assert ((14, 140) ∈ entries sample_chained) as Hin.
  { vm_compute. apply elem_of_cons. right. apply elem_of_cons. by left. }
  assert (36 ∉ (entries sample_chained).*1) as Hnin.
  { vm_compute. intros H. repeat (apply elem_of_cons in H as [H|H]; [discriminate|]).
    by apply elem_of_nil in H. }
  assert (25 ≠ 14) as Hne by discriminate.
  pose proof (set_then_get id 1 sample_chained 14 7 Z.add 0 Hwf) as H14.
  pose proof (set_then_get id 1 sample_chained 36 7 Z.add 0 Hwf) as H36.
  split; [exact Hwf|]. split; [exact Hin|].
  split; [exact (proj1 (proj2 H14) 140 Hin)|]. split; [exact Hnin|].
  split; [exact (proj1 (proj2 (proj2 H36)) Hnin)|]. split; [exact Hne|].
  exact (proj1 (proj2 (proj2 (proj2 (proj2 H14))) 25 Hne)).
Defined.

Lemma unset_removes_witness :
  wf id 1 sample_chained ∧
  entries (unset id 1 14 sample_chained) = [(3, 30); (25, 250)] ∧
  (has id 1 14 (unset id 1 14 sample_chained)).1 = false ∧
  (14 ∈ (entries sample_chained).*1) ∧
  n_keys sample_chained = 3 ∧
  n_keys (unset id 1 14 sample_chained) = wrap64 (n_keys sample_chained - 1).
Proof.
  assert (wf id 1 sample_chained) as Hwf
    by (apply buckets_wf_b_true; vm_compute; reflexivity).
  assert (14 ∈ (entries sample_chained).*1) as Hin.
  { vm_compute. apply elem_of_cons. right. apply elem_of_cons. by left. }
  assert (filter (λ kv : Z * Z, kv.1 ≠ 14) (entries sample_chained) = [(3, 30); (25, 250)])
    as Hfilter by (vm_compute; reflexivity).
  pose proof (unset_removes id 1 sample_chained 14 0 Hwf) as H14.
  split; [exact Hwf|].
  split; [exact (eq_trans (proj1 (proj2 H14)) Hfilter)|].
  split; [exact (proj1 (proj2 (proj2 H14)))|]. split; [exact Hin|].
  split; [reflexivity|].
  exact (proj2 (proj2 (proj2 (proj2 (proj2 (proj2 H14))))) Hin).
Defined.

Lemma has_iff_stored_witness :
  wf id 1 sample_chained ∧
  (14 ∈ (entries sample_chained).*1) ∧
  (has id 1 14 sample_chained).1 = true ∧
  (has id 1 14 sample_chained).2 = sample_chained.
Proof.
  assert (wf id 1 sample_chained) as Hwf
    by (apply buckets_wf_b_true; vm_compute; reflexivity).
  assert (14 ∈ (entries sample_chained).*1) as Hin.
  { vm_compute. apply elem_of_cons. right. apply elem_of_cons. by left. }
  pose proof (has_iff_stored id 1 sample_chained 14 14 Hwf) as H14.
  split; [exact Hwf|]. split; [exact Hin|].
  split; [exact (proj2 (proj1 H14) Hin)|].
  exact (proj1 (proj2 H14)).
Defined.

Lemma get_callback_calls_witness :
  wf id 1 sample_chained ∧
  (14, 140) ∈ entries sample_chained ∧
  get_callback id 1 14 (λ v s, v :: s) sample_chained [] = (sample_chained, [140]) ∧
  (36 ∉ (entries sample_chained).*1) ∧
  get_callback id 1 36 (λ v s, v :: s) sample_chained [] = (sample_chained, []).
Proof.
  assert (wf id 1 sample_chained) as Hwf
    by (apply buckets_wf_b_true; vm_compute; reflexivity).
  assert ((14, 140) ∈ entries sample_chained) as Hin.
  { vm_compute. apply elem_of_cons. right. apply elem_of_cons. by left. }
  assert (36 ∉ (entries sample_chained).*1) as Hnin.
  { vm_compute. intros H. repeat (apply elem_of_cons in H as [H|H]; [discriminate|]).
    by apply elem_of_nil in H. }
  pose proof (get_callback_calls id 1 sample_chained 14 (λ v s, v :: s) [] Hwf) as H14.
  pose proof (get_callback_calls id 1 sample_chained 36 (λ v s, v :: s) [] Hwf) as H36.
  split; [exact Hwf|]. split; [exact Hin|].
  split; [exact (proj1 H14 140 Hin)|]. split; [exact Hnin|].
  exact (proj2 H36 Hnin).
Defined.

Lemma get_n_keys_counts_witness :
  wf id 1 (sample_map 1 (seqZ 0 12)) ∧
  counted (sample_map 1 (seqZ 0 12)) ∧
  n_keys (sample_map 1 (seqZ 0 12)) < size_t_modulus - 1 ∧
  counted (set id 1 40 400 Z.add (sample_map 1 (seqZ 0 12))) ∧
  counted (unset id 1 5 (sample_map 1 (seqZ 0 12))).
Proof.
  assert (wf id 1 (sample_map 1 (seqZ 0 12))) as Hwf
    by (apply buckets_wf_b_true; vm_compute; reflexivity).
  assert (counted (sample_map 1 (seqZ 0 12))) as Hcount by (vm_compute; reflexivity).
  assert (n_keys (sample_map 1 (seqZ 0 12)) < size_t_modulus - 1) as Hmax
    by (vm_compute; reflexivity).
  pose proof (get_n_keys_counts id 1 (sample_map 1 (seqZ 0 12)) 40 400 Z.add 0 1
                Hwf Hcount Hmax) as H40.
  pose proof (get_n_keys_counts id 1 (sample_map 1 (seqZ 0 12)) 5 0 Z.add 0 1
                Hwf Hcount Hmax) as H5.
  split; [exact Hwf|]. split; [exact Hcount|]. split; [exact Hmax|].
  split; [exact (proj1 (proj2 H40))|].
  exact (proj1 (proj2 (proj2 H5))).
Defined.

Lemma reserve_never_shrinks_witness :
  wf id 1 sample_chained ∧
  0 ≤ 100 ≤ 174449 ∧
  get_n_buckets sample_chained = 11 ∧
  100 ≤ get_n_buckets (reserve id 1 100 sample_chained) ∧
  entries (reserve id 1 100 sample_chained) ≡ₚ entries sample_chained ∧
  7 ≤ get_n_buckets sample_chained ∧
  reserve id 1 7 sample_chained = sample_chained.
Proof.
  assert (wf id 1 sample_chained) as Hwf
    by (apply buckets_wf_b_true; vm_compute; reflexivity).
  assert (0 ≤ 100 ≤ 174449) as Hrange by lia.
  assert (7 ≤ get_n_buckets sample_chained) as Hle by (vm_compute; discriminate).
  pose proof (reserve_never_shrinks id 1 sample_chained 100 Hwf) as H100.
  pose proof (reserve_never_shrinks id 1 sample_chained 7 Hwf) as H7.
  split; [exact Hwf|]. split; [exact Hrange|]. split; [reflexivity|].
  split; [exact (proj1 (proj2 (proj2 (proj2 (proj2 H100)))) Hrange)|].
  split; [exact (proj1 (proj2 (proj2 (proj2 (proj2 (proj2 H100))))))|].
  split; [exact Hle|].
  exact (proj1 (proj2 (proj2 H7)) Hle).
Defined.

Lemma set_then_unset_witness :
  wf id 1 (sample_map 1 (seqZ 0 11)) ∧
  (11 ∉ (entries (sample_map 1 (seqZ 0 11))).*1) ∧
  0 ≤ n_keys (sample_map 1 (seqZ 0 11)) < size_t_modulus - 1 ∧
  entries (unset id 1 11 (set id 1 11 110 Z.add (sample_map 1 (seqZ 0 11)))) ≡ₚ
    entries (sample_map 1 (seqZ 0 11)) ∧
  n_keys (unset id 1 11 (set id 1 11 110 Z.add (sample_map 1 (seqZ 0 11)))) = 11 ∧
  n_buckets (sample_map 1 (seqZ 0 11)) = 11 ∧
  n_buckets (unset id 1 11 (set id 1 11 110 Z.add (sample_map 1 (seqZ 0 11)))) = 17.
Proof.
  assert (wf id 1 (sample_map 1 (seqZ 0 11))) as Hwf
    by (apply buckets_wf_b_true; vm_compute; reflexivity).
  assert (11 ∉ (entries (sample_map 1 (seqZ 0 11))).*1) as Hnin.
  { vm_compute. intros H. repeat (apply elem_of_cons in H as [H|H]; [discriminate|]).
    by apply elem_of_nil in H. }
  assert (0 ≤ n_keys (sample_map 1 (seqZ 0 11)) < size_t_modulus - 1) as Hrange
    by (vm_compute; split; [discriminate|reflexivity]).
  assert (n_keys (sample_map 1 (seqZ 0 11)) = 11) as Hn by (vm_compute; reflexivity).
  assert (n_buckets (unset id 1 11 (set id 1 11 110 Z.add (sample_map 1 (seqZ 0 11)))) = 17)
    as Hb by (vm_compute; reflexivity).
  pose proof (set_then_unset id 1 (sample_map 1 (seqZ 0 11)) 11 110 Z.add
                Hwf Hnin Hrange) as H11.
  split; [exact Hwf|]. split; [exact Hnin|]. split; [exact Hrange|].
  split; [exact (proj1 H11)|].
  split; [exact (eq_trans (proj1 (proj2 H11)) Hn)|].
  split; [reflexivity|exact Hb].
Defined.

Lemma ConcurrentMap_copy_links_nothing_witness :
  wf id 1 sample_chained ∧
  n_keys (ConcurrentMap_copy sample_chained).1 = n_keys sample_chained ∧
  n_keys sample_chained = 3 ∧
  entries (ConcurrentMap_copy sample_chained).1 = [] ∧
  (get id 1 14 0 sample_chained).1 = 140 ∧
  (get id 1 14 0 (ConcurrentMap_copy sample_chained).1).1 = 0.
Proof.
  assert (wf id 1 sample_chained) as Hwf
    by (apply buckets_wf_b_true; vm_compute; reflexivity).
  pose proof (ConcurrentMap_copy_links_nothing id 1 sample_chained Hwf) as Hcopy.
  split; [exact Hwf|]. split; [exact (proj1 Hcopy)|]. split; [reflexivity|].
  split; [exact (proj1 (proj2 (proj2 Hcopy)))|]. split; [reflexivity|].
  exact (proj1 (proj2 (proj2 (proj2 (proj2 (proj2 Hcopy)))) 14 0)).
Defined.


(** ** The mapper calls of [mapreduce] *)

(** The bucket loop of a process gives bucket [i] to its thread
    [(i / n_procs) mod n_threads] when [i mod n_procs] is its rank, and
    to nobody otherwise. *)
Lemma elem_of_thread_iterations proc_id n_procs n_threads thread_id n_buckets i :
  0 < n_procs → 0 ≤ proc_id < n_procs →
  i ∈ thread_iterations proc_id n_procs n_threads thread_id n_buckets ↔
  0 ≤ i < n_buckets ∧ i mod n_procs = proc_id ∧ (i / n_procs) mod n_threads = thread_id.
Proof.
  intros Hnp Hp. unfold thread_iterations. rewrite list_elem_of_fmap. split.
  - intros (j & -> & Hj). apply list_elem_of_filter in Hj as [Hmod Hj].
    apply elem_of_seqZ in Hj.
    assert ((proc_id + j * n_procs) mod n_procs = proc_id) as Hm.
    { rewrite Z.mod_add by lia. apply Z.mod_small. lia. }
    assert ((proc_id + j * n_procs) / n_procs = j) as Hd.
    { rewrite Z.div_add by lia. rewrite Z.div_small by lia. lia. }
    rewrite Hm, Hd. split; [|done].
    pose proof (Z.mul_div_le (n_buckets - proc_id + n_procs - 1) n_procs Hnp). nia.
  - intros (Hi & Hm & Ht). exists (i / n_procs).
    pose proof (Z.div_mod i n_procs ltac:(lia)) as Hdm. rewrite Hm in Hdm.
    split; [lia|]. apply list_elem_of_filter. split; [done|].
    apply elem_of_seqZ. split; [apply Z.div_pos; lia|].
    assert (i / n_procs + 1 ≤ (n_buckets - proc_id + n_procs - 1) / n_procs)
      by (apply Z.div_le_lower_bound; [lia|nia]).
    lia.
Qed.

Lemma NoDup_thread_iterations proc_id n_procs n_threads thread_id n_buckets :
  0 < n_procs → NoDup (thread_iterations proc_id n_procs n_threads thread_id n_buckets).
Proof.
  intros Hnp. unfold thread_iterations. apply NoDup_fmap_2.
  - intros j1 j2 Heq. nia.
  - apply NoDup_filter, NoDup_seqZ.
Qed.

Section MapreduceCalls.
Context {K V : Type} `{EqDecision K}.
Variable hasher : K → Z.
Variable n_procs : Z.
Implicit Types (m : ConcurrentMap K V) (k key : K) (v : V).

Lemma mapreduce_thread_join {St} n_threads proc_id thread_id
    (mapper : K → V → St → St) m s :
  mapreduce_thread n_procs n_threads proc_id thread_id mapper m s =
    foldl (λ s kv, mapper kv.1 kv.2 s) s
      (mjoin ((λ i, buckets m !!! Z.to_nat i) <$>
                thread_iterations proc_id n_procs n_threads thread_id (n_buckets m))).
Proof.
  unfold mapreduce_thread.
  generalize (thread_iterations proc_id n_procs n_threads thread_id (n_buckets m)).
  intros ids. revert s. induction ids as [|i ids IH]; intros s; [done|].
  simpl. rewrite foldl_app. apply IH.
Qed.

Lemma mapper_calls_join n_threads proc_id thread_id m :
  mapper_calls n_procs n_threads proc_id thread_id m =
    mjoin ((λ i, buckets m !!! Z.to_nat i) <$>
             thread_iterations proc_id n_procs n_threads thread_id (n_buckets m)).
Proof.
  unfold mapper_calls. rewrite mapreduce_thread_join.
  assert (∀ l acc : list (K * V),
            foldl (λ s kv, s ++ [(kv.1, kv.2)]) acc l = acc ++ l) as Haux.
  { induction l as [|[k v] l IH]; intros acc; simpl; [by rewrite app_nil_r|].
    by rewrite IH, <- app_assoc. }
  apply (Haux _ []).
Qed.

(** The keys of some buckets of a well-formed array, each bucket taken
    once, are all different. *)
Lemma NoDup_join_buckets (bs : list (chain K V)) n (ids : list Z) :
  buckets_wf (get_hash_value hasher n_procs) n bs →
  NoDup ids → (∀ i, i ∈ ids → 0 ≤ i < n) →
  NoDup (mjoin ((λ i, bs !!! Z.to_nat i) <$> ids)).*1.
Proof.
  intros Hwf. pose proof Hwf as (Hn & Hlen & Hall).
  induction ids as [|i ids IH]; intros Hnd Hrange; [constructor|].
  apply NoDup_cons in Hnd as [Hi Hnd]. simpl. rewrite fmap_app.
  assert (bs !! Z.to_nat i = Some (bs !!! Z.to_nat i)) as Hlook.
  { apply list_lookup_lookup_total_lt. specialize (Hrange i ltac:(by left)). lia. }
  destruct (Hall _ _ Hlook) as [Hc Hidx].
  apply NoDup_app. split; [done|]. split.
  - intros k Hk Hk'. apply elem_of_join_keys in Hk' as (j & c & Hj & Hkc).
    apply list_lookup_fmap_Some in Hj as (i' & -> & Hi').
    apply list_elem_of_lookup_2 in Hi'.
    assert (bs !! Z.to_nat i' = Some (bs !!! Z.to_nat i')) as Hlook'.
    { apply list_lookup_lookup_total_lt.
      specialize (Hrange i' ltac:(by right)). lia. }
    destruct (Hall _ _ Hlook') as [_ Hidx'].
    specialize (Hidx k Hk). specialize (Hidx' k Hkc).
    specialize (Hrange i ltac:(by left)) as Hri.
    specialize (Hrange i' ltac:(by right)) as Hri'.
    assert (i = i') as -> by lia. done.
  - apply IH; [done|]. intros i' Hi'. apply Hrange. by right.
Qed.

(** X14.  The calls of the mapper.  A thread runs the mapper on the pairs
    of its buckets, bucket after bucket and each chain from its head.  A
    stored pair is passed to the mapper by the process whose rank is the
    bucket index modulo [n_procs], there by the thread whose number is
    the quotient modulo [n_threads], and by no other; no thread gets a
    key twice. *)
Theorem mapper_calls_partition {St} m n_threads proc_id thread_id
    (mapper : K → V → St → St) s :
  wf hasher n_procs m → 0 < n_procs → 0 ≤ proc_id < n_procs →
  mapreduce_thread n_procs n_threads proc_id thread_id mapper m s =
    foldl (λ s kv, mapper kv.1 kv.2 s) s
          (mapper_calls n_procs n_threads proc_id thread_id m) ∧
  NoDup (mapper_calls n_procs n_threads proc_id thread_id m).*1 ∧
  ∀ k v, (k, v) ∈ mapper_calls n_procs n_threads proc_id thread_id m ↔
         (k, v) ∈ entries m ∧
         let bucket_id := get_hash_value hasher n_procs k mod n_buckets m in
         bucket_id mod n_procs = proc_id ∧
         (bucket_id / n_procs) mod n_threads = thread_id.
Proof.
  intros Hwf Hnp Hp. pose proof Hwf as (Hn & Hlen & Hall).
  rewrite mapper_calls_join. split; [apply mapreduce_thread_join|]. split.
  - apply (NoDup_join_buckets _ (n_buckets m)); [done| |].
    + by apply NoDup_thread_iterations.
    + intros i Hi. by apply elem_of_thread_iterations in Hi as [? _].
  - intros k v. cbv zeta.
    set (b := get_hash_value hasher n_procs k mod n_buckets m).
    assert (0 ≤ b < n_buckets m) as Hb by (apply Z.mod_pos_bound; lia).
    rewrite (buckets_wf_elem_of (get_hash_value hasher n_procs) _ _ k v Hwf).
    fold b. rewrite list_elem_of_join. split.
    + intros (c & Hkv & Hc). apply list_elem_of_fmap in Hc as (i & -> & Hi).
      apply elem_of_thread_iterations in Hi as (Hi & Hm & Ht); [|done..].
      assert (buckets m !! Z.to_nat i = Some (buckets m !!! Z.to_nat i)) as Hlook.
      { apply list_lookup_lookup_total_lt. lia. }
      destruct (Hall _ _ Hlook) as [_ Hidx].
      assert (Z.to_nat b = Z.to_nat i) as Hbi.
      { apply Hidx, list_elem_of_fmap. by exists (k, v). }
      assert (b = i) as -> by lia. done.
    + intros (Hkv & Hm & Ht). exists (buckets m !!! Z.to_nat b). split; [done|].
      apply list_elem_of_fmap. exists b. split; [done|].
      by apply elem_of_thread_iterations.
Qed.

End MapreduceCalls.

Lemma thread_iterations_single n : thread_iterations 0 1 1 0 n = seqZ 0 n.
Proof.
  unfold thread_iterations.
  replace ((n - 0 + 1 - 1) / 1) with n by (rewrite Z.div_1_r; lia).
  induction (seqZ 0 n) as [|j l IH]; [done|].
  rewrite filter_cons_True by apply Z.mod_1_r.
  rewrite fmap_cons, IH. f_equal. lia.
Qed.

(** X15.  With one process and one thread the mapper is run on every
    stored pair, in the order of the buckets and of their chains. *)
Theorem mapper_calls_single {K V} (m : ConcurrentMap K V) :
  length (buckets m) = Z.to_nat (n_buckets m) →
  mapper_calls 1 1 0 0 m = entries m.
Proof.
  intros Hlen. rewrite mapper_calls_join, thread_iterations_single.
  unfold entries. f_equal.
  transitivity ((λ i, buckets m !!! i) <$> seq 0 (length (buckets m)));
    [|apply lookup_total_seq].
  rewrite Hlen. unfold seqZ. rewrite <- list_fmap_compose.
  apply list_fmap_ext. intros _ i _. simpl. f_equal. lia.
Qed.

Lemma mapper_calls_partition_witness :
  wf id 1 (sample_map 1 (seqZ 0 12)) ∧ 0 < 1 ∧ 0 ≤ 0 < 1 ∧
  n_buckets (sample_map 1 (seqZ 0 12)) = 17 ∧
  mapper_calls 1 2 0 1 (sample_map 1 (seqZ 0 12)) =
    [(1, 10); (3, 30); (5, 50); (7, 70); (9, 90); (11, 110)] ∧
  NoDup (mapper_calls 1 2 0 1 (sample_map 1 (seqZ 0 12))).*1 ∧
  ((5, 50) ∈ entries (sample_map 1 (seqZ 0 12)) ∧
   (get_hash_value id 1 5 mod n_buckets (sample_map 1 (seqZ 0 12))) mod 1 = 0 ∧
   ((get_hash_value id 1 5 mod n_buckets (sample_map 1 (seqZ 0 12))) / 1) mod 2 = 1) ∧
  (5, 50) ∈ mapper_calls 1 2 0 1 (sample_map 1 (seqZ 0 12)).
Proof.
  assert (wf id 1 (sample_map 1 (seqZ 0 12))) as Hwf
    by (apply buckets_wf_b_true; vm_compute; reflexivity).
  assert (0 ≤ 0 < 1) as Hp by lia.
  assert ((5, 50) ∈ entries (sample_map 1 (seqZ 0 12))) as Hin.
  { vm_compute. do 5 (apply elem_of_cons; right). apply elem_of_cons. by left. }
  pose proof (mapper_calls_partition id 1 (sample_map 1 (seqZ 0 12)) 2 0 1
                (λ _ _ (s : unit), s) tt Hwf Z.lt_0_1 Hp) as Hcalls.
  split; [exact Hwf|]. split; [exact Z.lt_0_1|]. split; [exact Hp|].
  split; [vm_compute; reflexivity|]. split; [vm_compute; reflexivity|].
  split; [exact (proj1 (proj2 Hcalls))|].
  assert (get_hash_value id 1 5 mod n_buckets (sample_map 1 (seqZ 0 12)) mod 1 = 0)
    as Hm by (vm_compute; reflexivity).
  assert ((get_hash_value id 1 5 mod n_buckets (sample_map 1 (seqZ 0 12))) / 1 mod 2 = 1)
    as Ht by (vm_compute; reflexivity).
  split; [exact (conj Hin (conj Hm Ht))|].
  exact (proj2 (proj2 (proj2 Hcalls) 5 50) (conj Hin (conj Hm Ht))).
Defined.

Lemma mapper_calls_single_witness :
  length (buckets sample_chained) = Z.to_nat (n_buckets sample_chained) ∧
  mapper_calls 1 1 0 0 sample_chained = [(3, 30); (14, 140); (25, 250)].
Proof.
  assert (length (buckets sample_chained) = Z.to_nat (n_buckets sample_chained)) as Hlen
    by (vm_compute; reflexivity).
  split; [exact Hlen|].
  rewrite (mapper_calls_single sample_chained Hlen). vm_compute. reflexivity.
Defined.

(** ** More on [BareConcurrentMap] *)

Section BareConcurrentMapMore.
Context {K V : Type} `{EqDecision K}.
Variable H : K → Z.
Import BareConcurrentMap.
Implicit Types (m : BareConcurrentMap K V) (k key : K) (v : V).

(** X16.  [async_set] always returns, with every segment lock as it found
    it.  When it finds the lock of the segment free it leaves the
    staging caches alone and touches no other segment; when it finds
    the lock held it leaves the segments alone, so that until the next
    [sync] the key count and every lookup are what they were, and it
    touches no cache but that of the calling thread. *)
Theorem async_set_keeps_locks m thread_id key hash_value v (r : V → V → V) :
  ∃ m', async_set H thread_id key hash_value v r m = Some (tt, m') ∧
        segment_locks m' = segment_locks m ∧
        n_segments m' = n_segments m ∧ n_threads m' = n_threads m ∧
        (segment_locks m !! Z.to_nat (hash_value mod n_segments m) = Some None →
           thread_caches m' = thread_caches m ∧
           ∀ i, i ≠ Z.to_nat (hash_value mod n_segments m) →
                segments m' !! i = segments m !! i) ∧
        (segment_locks m !! Z.to_nat (hash_value mod n_segments m) ≠ Some None →
           segments m' = segments m ∧
           get_n_keys m' = get_n_keys m ∧
           (∀ k h, lookup k h m' = lookup k h m) ∧
           ∀ i, i ≠ Z.to_nat thread_id → thread_caches m' !! i = thread_caches m !! i).
Proof.
  destruct (decide (segment_locks m !! Z.to_nat (hash_value mod n_segments m) = Some None))
    as [Hfree|Hheld].
  - rewrite async_set_free by done. eexists. split; [done|]. simpl.
    split; [done|]. split; [done|]. split; [done|]. split; [|done].
    intros _. split; [done|]. intros i Hi. by rewrite list_lookup_insert_ne.
  - rewrite async_set_held by done. eexists. split; [done|]. simpl.
    split; [done|]. split; [done|]. split; [done|]. split; [done|].
    intros _. split; [done|]. split; [done|]. split; [done|].
    intros i Hi. by rewrite list_lookup_insert_ne.
Qed.

(** X17.  [async_set] with the hash of the key, on a segment whose lock
    is free, commits at once: the key is found with the new value, or
    with the reducer's result on the old and the new one, every other
    key is found as before, and nothing is staged. *)
Theorem async_set_commits m thread_id key v (r : V → V → V) :
  segmented_wf H m →
  segment_locks m !! Z.to_nat (H key mod n_segments m) = Some None →
  ∃ m', async_set H thread_id key (H key) v r m = Some (tt, m') ∧
        segmented_wf H m' ∧
        thread_caches m' = thread_caches m ∧
        ∀ k, lookup k (H k) m' =
             if decide (k = key) then reduce_into r (lookup key (H key) m) v
             else lookup k (H k) m.
Proof.
  intros Hwf Hfree. rewrite async_set_free by done. eexists. split; [done|].
  destruct (segment_update_spec H m key v r Hwf) as [Hwf' Hlook].
  by split; [|split].
Qed.

(** What [sync] leaves behind on a map at rest. *)
Lemma sync_result (r : V → V → V) m :
  segmented_wf H m → locks_free m →
  ∃ m', sync H r m = Some (tt, m') ∧
        segmented_wf H m' ∧ locks_free m' ∧
        thread_caches m' = BareMap.clear <$> thread_caches m ∧
        ∀ k, lookup k (H k) m' =
             foldl (reduce_into r) (lookup k (H k) m) (values_of k (staged m)).
Proof.
  intros Hwf Hfree. pose proof Hwf as (_ & _ & _ & Hlen & _).
  destruct (sync_team_spec H r (seqZ 0 (n_threads m)) m Hwf Hfree)
    as (m' & Heq & Hwf' & Hfree' & Hn' & Hlen' & Hc' & Hlook').
  { apply NoDup_seqZ. }
  { intros t Ht%elem_of_seqZ. lia. }
  exists m'. split; [done|]. split; [done|]. split; [done|]. split.
  - apply list_eq. intros i. rewrite list_lookup_fmap.
    destruct (thread_caches m !! i) as [c|] eqn:Hi.
    + rewrite (Hc' i c Hi), decide_True; [done|].
      apply elem_of_seqZ. apply lookup_lt_Some in Hi. lia.
    + apply lookup_ge_None. rewrite Hlen'. by apply lookup_ge_None.
  - intros k. rewrite Hlook'. do 2 f_equal. rewrite <- staged_team.
    rewrite Hlen. unfold seqZ. by rewrite Nat2Z.id.
Qed.

Lemma released_wf m : segmented_wf H m → segmented_wf H (released m) ∧ locks_free (released m).
Proof.
  intros Hwf. split.
  - apply with_locks_wf; [|done]. by rewrite length_replicate.
  - unfold locks_free, released. simpl. by apply Forall_replicate.
Qed.

(** A list of one pair, from what is in it. *)
Lemma list_singleton_keys (l : list (K * V)) key v :
  NoDup l.*1 → (∀ k v', (k, v') ∈ l ↔ k = key ∧ v' = v) → l = [(key, v)].
Proof.
  intros Hnd Hl. destruct l as [|[k1 v1] l].
  - assert ((key, v) ∈ ([] : list (K * V))) as Hin by (by apply Hl).
    by apply elem_of_nil in Hin.
  - assert (k1 = key ∧ v1 = v) as [-> ->] by (apply Hl; by left).
    destruct l as [|[k2 v2] l]; [done|].
    assert (k2 = key ∧ v2 = v) as [-> ->] by (apply Hl; right; by left).
    rewrite !fmap_cons in Hnd. apply NoDup_cons in Hnd as [Hnin _].
    exfalso. apply Hnin. by left.
Qed.

(** [set] on an empty, well-formed bare map leaves one pair. *)
Lemma bare_set_empty key v (r : V → V → V) (c : BareMap.BareMap K V) :
  bare_wf H c → mjoin (BareMap.buckets c) = [] →
  mjoin (BareMap.buckets (BareMap.set H key (H key) v r c)) = [(key, v)].
Proof.
  intros Hwf Hempty. destruct (bare_set_spec H key v r c Hwf) as [Hwf' Hlook].
  assert (∀ k, BareMap.lookup k (H k) c = None) as Hnone.
  { intros k. apply (buckets_wf_lookup_None H _ _ k Hwf). rewrite Hempty.
    apply not_elem_of_nil. }
  apply list_singleton_keys; [by eapply buckets_wf_NoDup|].
  intros k v'. rewrite <- (buckets_wf_lookup_Some H _ _ k v' Hwf').
  fold (BareMap.lookup k (H k) (BareMap.set H key (H key) v r c)).
  rewrite Hlook. destruct (decide (k = key)) as [->|Hne].
  - rewrite Hnone. unfold reduce_into. simpl. split; [by intros [= ->]|by intros [_ ->]].
  - rewrite Hnone. split; [done|]. by intros [? _].
Qed.

(** X18.  No [async_set] is lost.  On a map with nothing staged, an
    [async_set] with the hash of the key by one of the threads, followed
    by a [sync] once the locks are released, leaves the key with the new
    value if it was not committed, and with the reducer's result on the
    committed and the new value if it was, whether the call found the
    lock free or held; every other key is found as before. *)
Theorem async_set_then_sync m thread_id key v (r : V → V → V) :
  segmented_wf H m → caches_wf H m → staged m = [] →
  0 ≤ thread_id < n_threads m →
  ∃ m1 m2, async_set H thread_id key (H key) v r m = Some (tt, m1) ∧
           sync H r (released m1) = Some (tt, m2) ∧
           staged m2 = [] ∧
           ∀ k, lookup k (H k) m2 =
                if decide (k = key) then reduce_into r (lookup key (H key) m) v
                else lookup k (H k) m.
Proof.
  intros Hwf Hcaches Hstaged Ht.
  pose proof Hwf as (_ & _ & _ & Hlen & _).
  assert (∀ m1, segmented_wf H m1 →
            ∃ m2, sync H r (released m1) = Some (tt, m2) ∧ staged m2 = [] ∧
                  ∀ k, lookup k (H k) m2 =
                       foldl (reduce_into r) (lookup k (H k) m1) (values_of k (staged m1)))
    as Hsync.
  { intros m1 Hwf1. destruct (released_wf m1 Hwf1) as [Hwfr Hfree].
    destruct (sync_result r (released m1) Hwfr Hfree) as (m2 & Heq & _ & _ & Hc & Hlook).
    exists m2. split; [done|]. split; [|done].
    unfold staged. rewrite Hc. apply join_nil_2, Forall_fmap, Forall_fmap.
    apply Forall_true. intros c. simpl. apply join_replicate_nil. }
  destruct (decide (segment_locks m !! Z.to_nat (H key mod n_segments m) = Some None))
    as [Hfree|Hheld].
  - destruct (segment_update_spec H m key v r Hwf) as [Hwf1 Hlook1].
    destruct (Hsync _ Hwf1) as (m2 & Heq2 & Hst2 & Hlook2).
    eexists _, m2. split; [by apply async_set_free|]. split; [done|]. split; [done|].
    intros k. rewrite Hlook2. unfold staged. simpl.
    fold (staged m). rewrite Hstaged. simpl. apply Hlook1.
  - destruct (async_set_wf H m thread_id key v r Hwf) as (m1 & Heq & Hwf1 & _).
    destruct (Hsync m1 Hwf1) as (m2 & Heq2 & Hst2 & Hlook2).
    exists m1, m2. split; [done|]. split; [done|]. split; [done|].
    rewrite async_set_held in Heq by done. injection Heq as <-.
    assert (thread_caches m !! Z.to_nat thread_id =
              Some (thread_caches m !!! Z.to_nat thread_id)) as Hc.
    { apply list_lookup_lookup_total_lt. lia. }
    assert (Forall (λ l : list (K * V), l = [])
              ((λ c, mjoin (BareMap.buckets c)) <$> thread_caches m)) as Hnil.
    { apply join_nil_1. exact Hstaged. }
    assert (staged (with_thread_caches
              (<[Z.to_nat thread_id := BareMap.set H key (H key) v r
                   (thread_caches m !!! Z.to_nat thread_id)]> (thread_caches m)) m)
            = [(key, v)]) as Hst1.
    { unfold staged. simpl. rewrite list_fmap_insert.
      rewrite (join_insert_middle _ _ (mjoin (BareMap.buckets
                 (thread_caches m !!! Z.to_nat thread_id)))).
      2:{ by rewrite list_lookup_fmap, Hc. }
      rewrite bare_set_empty.
      - rewrite (join_nil_2 (take _ _)), (join_nil_2 (drop _ _)); [done|..].
        + by apply Forall_drop.
        + by apply Forall_take.
      - unfold caches_wf in Hcaches. rewrite Forall_forall in Hcaches. apply Hcaches.
        by eapply list_elem_of_lookup_2.
      - rewrite Forall_forall in Hnil. apply Hnil.
        apply list_elem_of_fmap. eexists. split; [done|].
        by eapply list_elem_of_lookup_2. }
    intros k. rewrite Hlook2, Hst1. rewrite values_of_cons.
    destruct (decide (k = key)) as [->|Hne]; [done|]. done.
Qed.

(** X19.  A second [sync] finds nothing to do: it returns and leaves the
    map exactly as the first one left it. *)
Theorem sync_twice (r r' : V → V → V) m :
  segmented_wf H m → locks_free m →
  ∃ m1, sync H r m = Some (tt, m1) ∧ sync H r' m1 = Some (tt, m1).
Proof.
  intros Hwf Hfree.
  destruct (sync_result r m Hwf Hfree) as (m1 & Heq & Hwf1 & Hfree1 & Hc1 & _).
  exists m1. split; [done|]. unfold sync.
  pose proof Hwf1 as (_ & _ & _ & Hlen1 & _).
  assert (∀ team, (∀ t, t ∈ team → 0 ≤ t < n_threads m1) →
            sync_team H r' team m1 = Some (tt, m1)) as Hteam.
  { induction team as [|t team IH]; intros Hrange; [done|].
    assert (0 ≤ t < n_threads m1) as Ht by (apply Hrange; by left).
    assert (∃ c, thread_caches m1 !! Z.to_nat t = Some (BareMap.clear c)) as [c Hc].
    { rewrite Hc1, list_lookup_fmap.
      destruct (thread_caches m !! Z.to_nat t) as [c|] eqn:Hc; [by exists c|].
      apply lookup_ge_None in Hc.
      rewrite Hc1, length_fmap in Hlen1. lia. }
    assert (sync_thread H r' t m1 = Some (tt, m1)) as Hthread.
    { unfold sync_thread, op_bind, BareMap.for_each, thread_cache_clear.
      rewrite (list_lookup_total_correct _ _ _ Hc). simpl.
      rewrite join_replicate_nil. simpl.
      rewrite (list_lookup_total_correct _ _ _ Hc).
      rewrite list_insert_id by done. by destruct m1. }
    simpl. unfold op_bind. rewrite Hthread. apply IH.
    intros t' Ht'. apply Hrange. by right. }
  apply Hteam. intros t Ht%elem_of_seqZ. lia.
Qed.
End BareConcurrentMapMore.

Lemma async_set_commits_witness :
  segmented_wf id sample_held ∧
  BareConcurrentMap.segment_locks sample_held
    !! Z.to_nat (id 18 mod BareConcurrentMap.n_segments sample_held) = Some None ∧
  ∃ m', BareConcurrentMap.async_set id 0 18 (id 18) 180 Z.add sample_held = Some (tt, m') ∧
        BareConcurrentMap.lookup 18 (id 18) m' = Some 180 ∧
        BareConcurrentMap.lookup 4 (id 4) m' = None.
Proof.
  assert (segmented_wf id sample_held) as Hwf
    by (apply segmented_wf_b_true; vm_compute; reflexivity).
  assert (BareConcurrentMap.segment_locks sample_held
            !! Z.to_nat (id 18 mod BareConcurrentMap.n_segments sample_held) = Some None)
    as Hfree by reflexivity.
  destruct (async_set_commits id sample_held 0 18 180 Z.add Hwf Hfree)
    as (m' & Heq & _ & _ & Hlook).
  split; [exact Hwf|]. split; [exact Hfree|].
  exists m'. split; [exact Heq|]. split.
  - rewrite (Hlook 18). vm_compute. reflexivity.
  - rewrite (Hlook 4). vm_compute. reflexivity.
Defined.

Lemma async_set_then_sync_witness :
  segmented_wf id sample_held ∧ caches_wf id sample_held ∧ staged sample_held = [] ∧
  0 ≤ 0 < BareConcurrentMap.n_threads sample_held ∧
  BareConcurrentMap.segment_locks sample_held
    !! Z.to_nat (id 17 mod BareConcurrentMap.n_segments sample_held) = Some (Some 1) ∧
  ∃ m1 m2,
    BareConcurrentMap.async_set id 0 17 (id 17) 170 Z.add sample_held = Some (tt, m1) ∧
    BareConcurrentMap.lookup 17 (id 17) m1 = None ∧
    BareConcurrentMap.sync id Z.add (released m1) = Some (tt, m2) ∧
    BareConcurrentMap.lookup 17 (id 17) m2 = Some 170.
Proof.
  assert (segmented_wf id sample_held) as Hwf
    by (apply segmented_wf_b_true; vm_compute; reflexivity).
  assert (caches_wf id sample_held) as Hcaches.
  { unfold caches_wf. apply Forall_replicate. apply bare_empty_wf. }
  assert (staged sample_held = []) as Hstaged by (vm_compute; reflexivity).
  assert (0 ≤ 0 < BareConcurrentMap.n_threads sample_held) as Ht
    by (vm_compute; split; [discriminate|reflexivity]).
  destruct (async_set_then_sync id sample_held 0 17 170 Z.add Hwf Hcaches Hstaged Ht)
    as (m1 & m2 & Heq1 & Heq2 & _ & Hlook).
  split; [exact Hwf|]. split; [exact Hcaches|]. split; [exact Hstaged|].
  split; [exact Ht|]. split; [reflexivity|].
  exists m1, m2. split; [exact Heq1|]. split; [|split; [exact Heq2|]].
  - assert (BareConcurrentMap.lookup 17 (id 17) <$>
              (snd <$> BareConcurrentMap.async_set id 0 17 (id 17) 170 Z.add sample_held)
            = Some None) as Hc by (vm_compute; reflexivity).
    rewrite Heq1 in Hc. simpl in Hc. by injection Hc.
  - rewrite (Hlook 17). vm_compute. reflexivity.
Defined.

Lemma sync_twice_witness :
  segmented_wf id sample_segmented ∧ locks_free sample_segmented ∧
  staged sample_segmented = [(3, 7); (17, 170); (3, 100)] ∧
  ∃ m1, BareConcurrentMap.sync id Z.add sample_segmented = Some (tt, m1) ∧
        BareConcurrentMap.sync id Z.add m1 = Some (tt, m1).
Proof.
  assert (segmented_wf id sample_segmented) as Hwf
    by (apply segmented_wf_b_true; vm_compute; reflexivity).
  assert (locks_free sample_segmented) as Hfree.
  { unfold locks_free. vm_compute. repeat constructor. }
  split; [exact Hwf|]. split; [exact Hfree|]. split; [vm_compute; reflexivity|].
  exact (sync_twice id Z.add Z.add sample_segmented Hwf Hfree).
Defined.

(** ** The locks of [ConcurrentMap] *)

Lemma omp_set_locks_replicate thread_id cnt : ∀ a,
  omp_set_locks thread_id (seq a cnt)
      (replicate a (Some thread_id) ++ replicate cnt None) =
    Some (tt, replicate (a + cnt) (Some thread_id)).
Proof.
  induction cnt as [|cnt IH]; intros a.
  - simpl. by rewrite app_nil_r, Nat.add_0_r.
  - cbn [seq omp_set_locks]. unfold op_bind, omp_set_lock.
    rewrite lookup_app_r by (by rewrite length_replicate).
    rewrite length_replicate, Nat.sub_diag. cbn [replicate lookup list_lookup].
    rewrite insert_app_r_alt by (by rewrite length_replicate).
    rewrite length_replicate, Nat.sub_diag. cbn [insert list_insert].
    rewrite (cons_middle (Some thread_id)), app_assoc, <- replicate_S_end.
    rewrite IH. do 2 f_equal. f_equal. lia.
Qed.

Lemma omp_unset_locks_replicate cnt : ∀ a (rest : list (option Z)),
  length rest = cnt →
  omp_unset_locks (seq a cnt) (replicate a None ++ rest) =
    Some (tt, replicate (a + cnt) None).
Proof.
  induction cnt as [|cnt IH]; intros a rest Hlen.
  - destruct rest; [|done]. simpl. by rewrite app_nil_r, Nat.add_0_r.
  - destruct rest as [|l rest]; [done|]. injection Hlen as Hlen.
    cbn [seq omp_unset_locks]. unfold op_bind, omp_unset_lock.
    rewrite insert_app_r_alt by (by rewrite length_replicate).
    rewrite length_replicate, Nat.sub_diag. cbn [insert list_insert].
    rewrite (cons_middle None), app_assoc, <- replicate_S_end.
    rewrite IH by done. do 2 f_equal. f_equal. lia.
Qed.

(** A lock that is held stops [omp_set_locks]. *)
Lemma omp_set_locks_held thread_id (locks : list (option Z)) ids i owner :
  i ∈ ids → locks !! i = Some (Some owner) → omp_set_locks thread_id ids locks = None.
Proof.
  revert locks. induction ids as [|j ids IH]; intros locks Hi Hheld.
  - by apply elem_of_nil in Hi.
  - cbn [omp_set_locks]. unfold op_bind, omp_set_lock.
    destruct (decide (j = i)) as [->|Hne]; [by rewrite Hheld|].
    destruct (locks !! j) as [[?|]|]; [done| |done].
    apply IH.
    + apply elem_of_cons in Hi as [->|Hi]; done.
    + by rewrite list_lookup_insert_ne.
Qed.

Section LockedFacts.
Context {K V : Type} `{EqDecision K}.
Variable hasher : K → Z.
Variable n_procs : Z.
Variable thread_id : Z.
Implicit Types (lm : LockedMap K V) (m : ConcurrentMap K V) (k key : K) (v : V).

Lemma with_map_id lm : with_map (map_of lm) lm = lm.
Proof. by destruct lm. Qed.

Lemma lock_all_segments_free lm :
  segment_locks lm = replicate (length (segment_locks lm)) None →
  lock_all_segments thread_id lm =
    Some (tt, {| map_of := map_of lm;
                 segment_locks := replicate (length (segment_locks lm)) (Some thread_id);
                 rehashing_segment_locks := rehashing_segment_locks lm |}).
Proof.
  intros Hfree. unfold lock_all_segments, on_segment_locks.
  pose proof (omp_set_locks_replicate thread_id (length (segment_locks lm)) 0) as Hs.
  cbn [replicate app Nat.add] in Hs. rewrite <- Hfree in Hs. by rewrite Hs.
Qed.

Lemma unlock_all_segments_frees lm :
  unlock_all_segments lm =
    Some (tt, {| map_of := map_of lm;
                 segment_locks := replicate (length (segment_locks lm)) None;
                 rehashing_segment_locks := rehashing_segment_locks lm |}).
Proof.
  unfold unlock_all_segments, on_segment_locks.
  pose proof (omp_unset_locks_replicate (length (segment_locks lm)) 0
                (segment_locks lm) eq_refl) as Hs.
  cbn [replicate app Nat.add] in Hs. by rewrite Hs.
Qed.


Lemma at_rest_segment lm h :
  at_rest hasher n_procs lm →
  (Z.to_nat ((h mod n_buckets (map_of lm)) mod n_segments (map_of lm))
     < Z.to_nat (n_segments (map_of lm)))%nat.
Proof.
  intros (_ & Hs & _).
  pose proof (Z.mod_pos_bound (h mod n_buckets (map_of lm)) (n_segments (map_of lm)) Hs).
  lia.
Qed.

Lemma at_rest_free lm :
  at_rest hasher n_procs lm →
  segment_locks lm = replicate (length (segment_locks lm)) None.
Proof. intros (_ & _ & Hl & _). rewrite Hl at 2. by rewrite length_replicate. Qed.

(** At rest, [hash_node_apply] takes the lock of the segment, runs the
    walk and lets the lock go. *)
Lemma locked_hash_node_apply_at_rest {St} key h (handler : node_handler K V St) s lm :
  at_rest hasher n_procs lm →
  locked_hash_node_apply thread_id key h handler s lm =
    Some ((hash_node_apply key h handler (map_of lm) s).2,
          with_map (hash_node_apply key h handler (map_of lm) s).1 lm).
Proof.
  intros Hrest. pose proof (at_rest_segment lm h Hrest) as Hseg.
  destruct Hrest as (_ & _ & Hl & _).
  unfold locked_hash_node_apply, op_bind, on_segment_locks, omp_set_lock.
  rewrite Hl, lookup_replicate_2 by done. cbn [map_of segment_locks].
  unfold on_map. cbn [map_of segment_locks rehashing_segment_locks].
  destruct (hash_node_apply key h handler (map_of lm) s) as [m' s'].
  unfold omp_unset_lock, op_ret, with_map. cbn.
  by rewrite list_insert_insert_eq, insert_replicate, Hl.
Qed.

(** With the rehashing locks free, the handler of [rehash] does what it
    does without them. *)
Lemma locked_rehash_node_handler_free n ns (kv : K * V) (next : chain K V)
    (rb : list (chain K V)) :
  0 < ns →
  locked_rehash_node_handler hasher n_procs thread_id n ns (kv :: next)
      (Some (rb, replicate (Z.to_nat ns) None)) =
    ((rehash_node_handler (get_hash_value hasher n_procs) n (kv :: next) rb).1,
     Some ((rehash_node_handler (get_hash_value hasher n_procs) n (kv :: next) rb).2,
           replicate (Z.to_nat ns) None)).
Proof.
  intros Hns. destruct kv as [key value].
  unfold locked_rehash_node_handler, rehash_node_handler, omp_set_lock, omp_unset_lock.
  set (b := get_hash_value hasher n_procs key mod n).
  pose proof (Z.mod_pos_bound b ns Hns).
  rewrite lookup_replicate_2 by lia.
  destruct (hash_node_apply_recursive _ _ _ _) as [slot u].
  by rewrite list_insert_insert_eq, insert_replicate.
Qed.

Lemma locked_rehash_chain n ns (c : chain K V) (rb : list (chain K V)) :
  0 < ns →
  hash_node_all_apply_recursive c
      (locked_rehash_node_handler hasher n_procs thread_id n ns)
      (Some (rb, replicate (Z.to_nat ns) None)) =
    ((hash_node_all_apply_recursive c
        (rehash_node_handler (get_hash_value hasher n_procs) n) rb).1,
     Some ((hash_node_all_apply_recursive c
              (rehash_node_handler (get_hash_value hasher n_procs) n) rb).2,
           replicate (Z.to_nat ns) None)).
Proof.
  intros Hns. induction c as [|kv c IH]; [done|].
  cbn [hash_node_all_apply_recursive]. rewrite IH.
  destruct (hash_node_all_apply_recursive c _ rb) as [c' rb']. cbn [fst snd].
  rewrite locked_rehash_node_handler_free by done.
  by destruct (rehash_node_handler _ _ _ _).
Qed.

Lemma locked_rehash_fold n ns ids : ∀ old rb : list (chain K V),
  0 < ns →
  foldl (locked_rehash_step hasher n_procs thread_id n ns)
        (old, Some (rb, replicate (Z.to_nat ns) None)) ids =
    ((foldl (rehash_step (get_hash_value hasher n_procs) n) (old, rb) ids).1,
     Some ((foldl (rehash_step (get_hash_value hasher n_procs) n) (old, rb) ids).2,
           replicate (Z.to_nat ns) None)).
Proof.
  induction ids as [|i ids IH]; intros old rb Hns; [done|].
  cbn [foldl]. unfold locked_rehash_step at 2, rehash_step at 2 4.
  rewrite locked_rehash_chain by done.
  destruct (hash_node_all_apply_recursive (old !!! i) _ rb) as [c' rb']. cbn [fst snd].
  by apply IH.
Qed.

(** At rest, [rehash] returns with the locks free and the map that
    [rehash] gives without locks. *)
Lemma locked_rehash_at_rest n lm :
  at_rest hasher n_procs lm →
  locked_rehash hasher n_procs thread_id n lm =
    Some (tt, with_map (rehash hasher n_procs n (map_of lm)) lm).
Proof.
  intros Hrest. pose proof (at_rest_free lm Hrest) as Hfree.
  destruct Hrest as (Hwf & Hs & Hl & Hr).
  unfold locked_rehash, rehash. unfold op_bind at 1.
  unfold on_segment_locks at 1. unfold omp_set_lock.
  rewrite Hl, lookup_replicate_2 by lia. cbn [map_of segment_locks rehashing_segment_locks].
  destruct (Z.geb_spec (n_buckets (map_of lm)) n) as [Hge|Hlt].
  - unfold on_segment_locks, omp_unset_lock. cbn.
    rewrite list_insert_insert_eq, insert_replicate. unfold with_map. by rewrite Hl.
  - unfold op_bind at 1. unfold on_segment_locks at 1. unfold omp_unset_lock.
    cbn [map_of segment_locks rehashing_segment_locks].
    rewrite list_insert_insert_eq, insert_replicate.
    unfold op_bind at 1. rewrite lock_all_segments_free.
    2:{ cbn. by rewrite length_replicate. }
    cbn [map_of segment_locks rehashing_segment_locks].
    destruct (Z.geb_spec (n_buckets (map_of lm)) n) as [?|_]; [lia|].
    unfold op_bind, locked_rehash_buckets.
    cbn [map_of segment_locks rehashing_segment_locks].
    rewrite Hr, locked_rehash_fold by done. cbn [snd].
    rewrite unlock_all_segments_frees. cbn [map_of segment_locks rehashing_segment_locks].
    unfold with_map, rehash_buckets. rewrite !length_replicate. by rewrite Hl, Hr.
Qed.
Lemma at_rest_with_map m lm :
  at_rest hasher n_procs lm → wf hasher n_procs m →
  n_segments m = n_segments (map_of lm) →
  at_rest hasher n_procs (with_map m lm).
Proof.
  intros (_ & Hs & Hl & Hr) Hwf Hn. unfold at_rest, with_map. cbn.
  rewrite Hn. by split; [|split; [|split]].
Qed.

Lemma rehash_n_segments n m : n_segments (rehash hasher n_procs n m) = n_segments m.
Proof. unfold rehash. by destruct (_ >=? _). Qed.

Lemma reserve_n_segments n m : n_segments (reserve hasher n_procs n m) = n_segments m.
Proof. unfold reserve. destruct (_ >=? _); [done|]. apply rehash_n_segments. Qed.

Lemma set_n_segments key v (r : V → V → V) m :
  n_segments (set hasher n_procs key v r m) = n_segments m.
Proof.
  unfold set, set_with_hash.
  assert (n_segments (set_apply key (get_hash_value hasher n_procs key) v r m) =
            n_segments m) as Hs.
  { unfold set_apply, hash_node_apply. by destruct (hash_node_apply_recursive _ _ _ _). }
  destruct (set_calls_rehash _); [|done].
  unfold rehash0. by rewrite reserve_n_segments.
Qed.

Lemma unset_n_segments key m : n_segments (unset hasher n_procs key m) = n_segments m.
Proof.
  unfold unset, unset_with_hash, hash_node_apply.
  by destruct (hash_node_apply_recursive _ _ _ _).
Qed.

Lemma locked_reserve_at_rest n lm :
  at_rest hasher n_procs lm →
  locked_reserve hasher n_procs thread_id n lm =
    Some (tt, with_map (reserve hasher n_procs n (map_of lm)) lm).
Proof.
  intros Hrest. unfold locked_reserve, reserve.
  destruct (_ >=? _); [by rewrite with_map_id|].
  by apply locked_rehash_at_rest.
Qed.

(** X20.  The operations on one key, with their locks.  On a map at rest
    (well formed, no lock held), [set], [get], [has] and [unset] take
    the lock of the segment of the key's bucket, and [set] the locks of
    a rehash, without ever waiting; they return with every lock free
    again and with the result that they have without the locks. *)
Theorem locked_operations_at_rest lm key v (r : V → V → V) d :
  at_rest hasher n_procs lm →
  locked_set hasher n_procs thread_id key v r lm =
    Some (tt, with_map (set hasher n_procs key v r (map_of lm)) lm) ∧
  locked_get hasher n_procs thread_id key d lm =
    Some ((get hasher n_procs key d (map_of lm)).1, lm) ∧
  locked_has hasher n_procs thread_id key lm =
    Some ((has hasher n_procs key (map_of lm)).1, lm) ∧
  locked_unset hasher n_procs thread_id key lm =
    Some (tt, with_map (unset hasher n_procs key (map_of lm)) lm) ∧
  at_rest hasher n_procs (with_map (set hasher n_procs key v r (map_of lm)) lm) ∧
  at_rest hasher n_procs (with_map (unset hasher n_procs key (map_of lm)) lm).
Proof.
  intros Hrest. pose proof Hrest as (Hwf & _).
  split; [|split; [|split; [|split; [|split]]]].
  - unfold locked_set, locked_set_with_hash, set, set_with_hash. unfold op_bind at 1.
    rewrite locked_hash_node_apply_at_rest by done.
    unfold op_bind, on_map. cbn [map_of segment_locks rehashing_segment_locks with_map].
    unfold set_apply.
    pose proof (set_apply_wf hasher n_procs key v r (map_of lm) Hwf) as Hwf1.
    unfold set_apply in Hwf1.
    destruct (hash_node_apply key _ _ (map_of lm) _) as [m' n] eqn:Happly.
    cbn [fst snd]. destruct (set_calls_rehash (with_n_keys n m')) eqn:Hcalls; [|done].
    unfold locked_rehash0, rehash0. cbn [map_of].
    rewrite locked_reserve_at_rest; [done|].
    apply (at_rest_with_map _ lm Hrest Hwf1).
    unfold hash_node_apply in Happly.
    destruct (hash_node_apply_recursive _ _ _ _). by injection Happly as <- <-.
  - unfold locked_get, get, get_with_hash.
    rewrite locked_hash_node_apply_at_rest by done.
    pose proof (hash_node_apply_read hasher n_procs key
                  (get_hash_value hasher n_procs key) get_node_handler
                  (map_of lm) d Hwf) as Hread.
    destruct (hash_node_apply _ _ _ _ _) as [m' x]. cbn [fst snd] in *.
    rewrite Hread by (by intros [|[? ?] ?] ?). by rewrite with_map_id.
  - unfold locked_has, has, has_with_hash.
    rewrite locked_hash_node_apply_at_rest by done.
    pose proof (hash_node_apply_read hasher n_procs key
                  (get_hash_value hasher n_procs key) has_node_handler
                  (map_of lm) false Hwf) as Hread.
    destruct (hash_node_apply _ _ _ _ _) as [m' x]. cbn [fst snd] in *.
    rewrite Hread by (by intros [|[? ?] ?] ?). by rewrite with_map_id.
  - unfold locked_unset, unset, unset_with_hash. unfold op_bind.
    rewrite locked_hash_node_apply_at_rest by done.
    unfold on_map. cbn [map_of segment_locks rehashing_segment_locks with_map].
    by destruct (hash_node_apply _ _ _ _ _).
  - apply at_rest_with_map; [done| |apply set_n_segments].
    by apply set_with_hash_wf.
  - apply at_rest_with_map; [done| |apply unset_n_segments].
    by apply unset_with_hash_wf.
Qed.


(** X22.  [lock_all_segments] and [unlock_all_segments].  When no segment
    lock is held, [lock_all_segments] returns with every segment lock
    held by the caller, and [unlock_all_segments] after it gives the
    state back as it was; when a segment lock is held, by whatever
    thread, [lock_all_segments] waits.  [unlock_all_segments] leaves
    every segment lock free.  Neither touches the map. *)
Theorem lock_all_segments_all_or_wait lm :
  (segment_locks lm = replicate (length (segment_locks lm)) None →
     (∃ lm', lock_all_segments thread_id lm = Some (tt, lm') ∧
             segment_locks lm' = replicate (length (segment_locks lm)) (Some thread_id) ∧
             map_of lm' = map_of lm) ∧
     (lock_all_segments thread_id >> unlock_all_segments) lm = Some (tt, lm)) ∧
  (∀ i owner, segment_locks lm !! i = Some (Some owner) →
     lock_all_segments thread_id lm = None) ∧
  (∃ lm', unlock_all_segments lm = Some (tt, lm') ∧
          segment_locks lm' = replicate (length (segment_locks lm)) None ∧
          map_of lm' = map_of lm).
Proof.
  split; [|split].
  - intros Hfree. split.
    + eexists. split; [by apply lock_all_segments_free|]. done.
    + unfold op_bind. rewrite lock_all_segments_free by done.
      rewrite unlock_all_segments_frees. cbn. rewrite length_replicate, <- Hfree.
      by destruct lm.
  - intros i owner Hheld. unfold lock_all_segments, on_segment_locks.
    rewrite (omp_set_locks_held thread_id _ _ i owner); [done| |done].
    apply elem_of_seq. apply lookup_lt_Some in Hheld. lia.
  - eexists. split; [apply unlock_all_segments_frees|]. done.
Qed.

(** X23.  Waiting.  When the lock of the segment of a key's bucket is
    held, [set], [get], [has] and [unset] of that key wait for it; when
    any segment lock is held, [clear] and [clear_and_shrink] wait, and
    so does a [rehash] that has to add buckets. *)
Theorem locked_operations_wait lm key v (r : V → V → V) d n i owner owner' :
  segment_locks lm
    !! Z.to_nat ((get_hash_value hasher n_procs key mod n_buckets (map_of lm))
                   mod n_segments (map_of lm)) = Some (Some owner) →
  segment_locks lm !! i = Some (Some owner') →
  locked_set hasher n_procs thread_id key v r lm = None ∧
  locked_get hasher n_procs thread_id key d lm = None ∧
  locked_has hasher n_procs thread_id key lm = None ∧
  locked_unset hasher n_procs thread_id key lm = None ∧
  locked_clear thread_id lm = None ∧
  locked_clear_and_shrink thread_id lm = None ∧
  (n_buckets (map_of lm) < n → locked_rehash hasher n_procs thread_id n lm = None).
Proof.
  intros Hkey Hany.
  assert (∀ St (handler : node_handler K V St) s,
            locked_hash_node_apply thread_id key (get_hash_value hasher n_procs key)
              handler s lm = None) as Happly.
  { intros St handler s.
    unfold locked_hash_node_apply, op_bind, on_segment_locks, omp_set_lock.
    by rewrite Hkey. }
  assert (lock_all_segments thread_id lm = None) as Hall.
  { unfold lock_all_segments, on_segment_locks.
    rewrite (omp_set_locks_held thread_id _ _ i owner'); [done| |done].
    apply elem_of_seq. apply lookup_lt_Some in Hany. lia. }
  split; [|split; [|split; [|split; [|split; [|split]]]]].
  - unfold locked_set, locked_set_with_hash, op_bind. by rewrite Happly.
  - apply Happly.
  - apply Happly.
  - unfold locked_unset, op_bind. by rewrite Happly.
  - unfold locked_clear, op_bind. by rewrite Hall.
  - unfold locked_clear_and_shrink, op_bind. by rewrite Hall.
  - intros Hlt. unfold locked_rehash. unfold op_bind at 1.
    unfold on_segment_locks at 1. unfold omp_set_lock.
    destruct (segment_locks lm !! 0%nat) as [[o|]|] eqn:H0; [done| |done].
    cbn [map_of segment_locks rehashing_segment_locks].
    destruct (Z.geb_spec (n_buckets (map_of lm)) n) as [?|_]; [lia|].
    unfold op_bind at 1. unfold on_segment_locks at 1. unfold omp_unset_lock.
    cbn [map_of segment_locks rehashing_segment_locks].
    rewrite list_insert_insert_eq, list_insert_id by done.
    unfold op_bind. replace {| map_of := map_of lm; segment_locks := segment_locks lm;
      rehashing_segment_locks := rehashing_segment_locks lm |} with lm by (by destruct lm).
    by rewrite Hall.
Qed.
End LockedFacts.

(** A newly constructed map is at rest. *)
Lemma LockedMap_new_at_rest {K V} `{EqDecision K} (hasher : K → Z) n_procs n_threads :
  0 < n_threads → at_rest hasher n_procs (LockedMap_new n_threads : LockedMap K V).
Proof.
  intros Hn. split; [apply ConcurrentMap_new_wf|].
  split; [|done]. cbn. unfold N_SEGMENTS_PER_THREAD. lia.
Qed.

Lemma sample_locked_at_rest : at_rest id 1 sample_locked.
Proof.
  split; [apply buckets_wf_b_true; vm_compute; reflexivity|].
  split; [reflexivity|]. split; reflexivity.
Qed.

Lemma locked_operations_at_rest_witness :
  at_rest id 1 sample_locked ∧
  locked_set id 1 0 36 7 Z.add sample_locked =
    Some (tt, with_map (set id 1 36 7 Z.add sample_chained) sample_locked) ∧
  locked_get id 1 0 14 0 sample_locked = Some (140, sample_locked).
Proof.
  pose proof sample_locked_at_rest as Hrest.
  pose proof (locked_operations_at_rest id 1 0 sample_locked 36 7 Z.add 0 Hrest) as H36.
  pose proof (locked_operations_at_rest id 1 0 sample_locked 14 7 Z.add 0 Hrest) as H14.
  split; [exact Hrest|]. split; [exact (proj1 H36)|].
  exact (proj1 (proj2 H14)).
Defined.


Lemma lock_all_segments_all_or_wait_witness :
  segment_locks sample_locked = replicate (length (segment_locks sample_locked)) None ∧
  (lock_all_segments 0 >> unlock_all_segments) sample_locked = Some (tt, sample_locked) ∧
  segment_locks sample_locked_held !! 3%nat = Some (Some 1) ∧
  lock_all_segments 0 sample_locked_held = None.
Proof.
  assert (segment_locks sample_locked =
            replicate (length (segment_locks sample_locked)) None) as Hfree by reflexivity.
  assert (segment_locks sample_locked_held !! 3%nat = Some (Some 1)) as Hheld
    by reflexivity.
  split; [exact Hfree|].
  split; [exact (proj2 (proj1 (lock_all_segments_all_or_wait 0 sample_locked) Hfree))|].
  split; [exact Hheld|].
  exact (proj1 (proj2 (lock_all_segments_all_or_wait 0 sample_locked_held)) 3%nat 1 Hheld).
Defined.

Lemma locked_operations_wait_witness :
  segment_locks sample_locked_held
    !! Z.to_nat ((get_hash_value id 1 14 mod n_buckets (map_of sample_locked_held))
                   mod n_segments (map_of sample_locked_held)) = Some (Some 1) ∧
  segment_locks sample_locked_held !! 3%nat = Some (Some 1) ∧
  locked_set id 1 0 14 7 Z.add sample_locked_held = None ∧
  locked_clear 0 sample_locked_held = None ∧
  (∃ lm', locked_get id 1 0 4 0 sample_locked_held = Some (0, lm')).
Proof.
  assert (segment_locks sample_locked_held
            !! Z.to_nat ((get_hash_value id 1 14 mod n_buckets (map_of sample_locked_held))
                           mod n_segments (map_of sample_locked_held)) = Some (Some 1))
    as Hkey by reflexivity.
  assert (segment_locks sample_locked_held !! 3%nat = Some (Some 1)) as Hheld
    by reflexivity.
  pose proof (locked_operations_wait id 1 0 sample_locked_held 14 7 Z.add 0 17 3%nat 1 1
                Hkey Hheld) as Hwait.
  split; [exact Hkey|]. split; [exact Hheld|]. split; [exact (proj1 Hwait)|].
  split; [exact (proj1 (proj2 (proj2 (proj2 (proj2 Hwait)))))|].
  eexists. vm_compute. reflexivity.
Defined.
